(** * Ca Mau DST Digital Library: flipbook viewer, preloader and document store

    A shallow embedding of the logic of
    - [src/components/hooks/useImagePreloader.ts] (tiered image preloader and
      the page-flip sound player that shares the file),
    - [src/components/FlipbookViewer.tsx] (layout calculation, lazy page
      window, double-tap zoom),
    - [src/convex/documents.ts] (document mutations and queries),
    - [src/components/Uploader.tsx] and the admin screens (upload, drag to
      reorder),
    followed by the properties the specification states about them.

    Conventions.  Integers of the program (page numbers, pixel sizes of DOM
    boxes, millisecond time stamps, order keys) are [Z].  The numbers of the
    layout calculation and of the upload progress are IEEE doubles
    ([Double.Num]: every operation rounds to the nearest double, with the
    infinities and NaN).  The zoom scale, the volume and [Math.random()] are
    exact rationals [Q].  The process-wide [Set<string>] is a [gset string];
    arrays are lists.  Asynchronous code is cut at its suspension points: every
    function below is the synchronous run of one callback, and the browser is
    the environment that chooses which callback runs next. *)

From stdpp Require Import base gmap sets list strings sorting.
From Stdlib Require Import ZArith QArith Qround Qpower Lia Lqa.

Close Scope Q_scope.
Local Open Scope Z_scope.

(** ** JavaScript array helpers *)

Module Js.

(** [Array.prototype.slice(start, end)]: negative positions count from the
    end, positions are clamped to the array, an empty range gives []. *)
Definition relative_index (len i : Z) : Z :=
  if i <? 0 then Z.max (len + i) 0 else Z.min i len.

Definition slice {A : Type} (l : list A) (start end_ : Z) : list A :=
  let len := Z.of_nat (length l) in
  let k := relative_index len start in
  let final := relative_index len end_ in
  firstn (Z.to_nat (final - k)) (skipn (Z.to_nat k) l).

(** [slice(start)]: the end defaults to the length. *)
Definition slice_from {A : Type} (l : list A) (start : Z) : list A :=
  slice l start (Z.of_nat (length l)).

(** Truthiness of a [string | null] value: [null] and the empty string are
    falsy. *)
Definition truthy_string (s : string) : bool :=
  negb (String.eqb s EmptyString).

Definition truthy (u : option string) : bool :=
  match u with
  | Some s => truthy_string s
  | None => false
  end.

(** [arr.filter((url): url is string => !!url)] *)
Fixpoint filter_truthy (l : list (option string)) : list string :=
  match l with
  | [] => []
  | Some s :: r =>
      if truthy_string s then s :: filter_truthy r else filter_truthy r
  | None :: r => filter_truthy r
  end.

End Js.

(** ** Image preloader ([useImagePreloader.ts]) *)

Module Preloader.

Inductive Priority := critical | high | low | idle.

(** One mounted use of the hook: every [useImagePreloader()] of a component
    instance has an [abortRef] of its own ([useRef], line 85), while
    [loadedImages], [pendingTasks] and [isIdleLoading] are shared by all of
    them. *)
Definition Hook := nat.
Inductive Status := pending | loading | loaded | error.

Record PreloadTask := mkTask {
  url : string;
  priority : Priority;
  status : Status
}.

(** What happens when an [Image] settles: nothing more ([Promise.all] of the
    critical tier, or a task taken from the queue), or the sequential loop
    of the high tier resumes with the URLs that are left. *)
Inductive Cont :=
| KDone
| KHigh (h : Hook) (rest : list string).

(** Callbacks handed to [setTimeout] / [requestIdleCallback]. *)
Inductive Callback :=
| CbProcessIdleTasks   (* setTimeout(processIdleTasks, 100) *)
| CbIdleCallback       (* requestIdleCallback(idleCallback, ...) *)
| CbFallbackProcess.   (* setTimeout(fallbackProcess, 50) *)

(** Module-level variables [loadedImages], [pendingTasks], [isIdleLoading],
    the hook instances whose [abortRef.current] is true ([aborted]), and the
    browser side: images whose [src] was set and that have not fired
    [onload]/[onerror] yet, and scheduled callbacks. *)
Record State := mkState {
  loadedImages : gset string;
  pendingTasks : list PreloadTask;
  isIdleLoading : bool;
  aborted : gset Hook;
  inflight : list (string * Cont);
  timers : list Callback;
  hasRequestIdleCallback : bool   (* 'requestIdleCallback' in window *)
}.

Definition initial (ric : bool) : State :=
  mkState ∅ [] false ∅ [] [] ric.

Definition set_loaded (f : gset string → gset string) (st : State) : State :=
  mkState (f (loadedImages st)) (pendingTasks st) (isIdleLoading st)
          (aborted st) (inflight st) (timers st) (hasRequestIdleCallback st).
Definition set_pending (f : list PreloadTask → list PreloadTask) (st : State) : State :=
  mkState (loadedImages st) (f (pendingTasks st)) (isIdleLoading st)
          (aborted st) (inflight st) (timers st) (hasRequestIdleCallback st).
Definition set_idle (b : bool) (st : State) : State :=
  mkState (loadedImages st) (pendingTasks st) b
          (aborted st) (inflight st) (timers st) (hasRequestIdleCallback st).
Definition set_aborted (f : gset Hook → gset Hook) (st : State) : State :=
  mkState (loadedImages st) (pendingTasks st) (isIdleLoading st)
          (f (aborted st)) (inflight st) (timers st) (hasRequestIdleCallback st).

(** [abortRef.current] of the hook instance [h]. *)
Definition abortRef (st : State) (h : Hook) : bool :=
  bool_decide (h ∈ aborted st).
Definition set_inflight (f : list (string * Cont) → list (string * Cont)) (st : State) : State :=
  mkState (loadedImages st) (pendingTasks st) (isIdleLoading st)
          (aborted st) (f (inflight st)) (timers st) (hasRequestIdleCallback st).
Definition set_timers (f : list Callback → list Callback) (st : State) : State :=
  mkState (loadedImages st) (pendingTasks st) (isIdleLoading st)
          (aborted st) (inflight st) (f (timers st)) (hasRequestIdleCallback st).

(** Every function returns the new state and the URLs for which a network
    fetch was started ([img.src = url]) during the call, in order. *)
Definition Run : Type := State * list string.

Definition andThen (r : Run) (f : State → Run) : Run :=
  let (st1, f1) := r in
  let (st2, f2) := f st1 in
  (st2, f1 ++ f2).

(** [preloadImage(url)]: resolves at once when the URL is cached, otherwise
    creates an [Image] and starts the fetch. *)
Definition preloadImage (k : Cont) (u : string) (st : State) : Run :=
  if decide (u ∈ loadedImages st) then (st, [])
  else (set_inflight (λ l, l ++ [(u, k)]) st, [u]).

(** [validUrls.map(url => preloadImage(url))] of the critical tier. *)
Fixpoint preloadAll (urls : list string) (st : State) : Run :=
  match urls with
  | [] => (st, [])
  | u :: rest => andThen (preloadImage KDone u st) (preloadAll rest)
  end.

(** The [for (const url of validUrls)] loop of the high tier, up to its
    next suspension: a cached URL resolves immediately and the loop goes
    on; a fetch suspends the loop, which is resumed by [settle]. *)
Fixpoint highLoop (h : Hook) (urls : list string) (st : State) : Run :=
  match urls with
  | [] => (st, [])
  | u :: rest =>
      if abortRef st h then (st, [])
      else if decide (u ∈ loadedImages st) then highLoop h rest st
      else preloadImage (KHigh h rest) u st
  end.

(** [processIdleTasks] *)
Definition processIdleTasks (st : State) : State :=
  if isIdleLoading st then st
  else
    let st1 := set_idle true st in
    if hasRequestIdleCallback st1
    then set_timers (λ l, l ++ [CbIdleCallback]) st1
    else set_timers (λ l, l ++ [CbFallbackProcess]) st1.

(** [const task = pendingTasks.shift(); if (task && task.status === 'pending') ...] *)
Definition runTask (st : State) : Run :=
  match pendingTasks st with
  | [] => (st, [])
  | t :: q =>
      let st1 := set_pending (λ _, q) st in
      match status t with
      | pending => preloadImage KDone (url t) st1
      | _ => (st1, [])
      end
  end.

(** The [while (deadline.timeRemaining() > 0 && pendingTasks.length > 0)]
    loop; [budget] is the number of times [timeRemaining()] is positive. *)
Fixpoint idleLoop (budget : nat) (st : State) : Run :=
  match budget with
  | O => (st, [])
  | S b =>
      match pendingTasks st with
      | [] => (st, [])
      | _ :: _ => andThen (runTask st) (idleLoop b)
      end
  end.

Definition idleCallback (budget : nat) (st : State) : Run :=
  andThen (idleLoop budget st) (λ st1,
    match pendingTasks st1 with
    | [] => (set_idle false st1, [])
    | _ :: _ => (set_timers (λ l, l ++ [CbIdleCallback]) st1, [])
    end).

Definition fallbackProcess (st : State) : Run :=
  andThen (runTask st) (λ st1,
    match pendingTasks st1 with
    | [] => (set_idle false st1, [])
    | _ :: _ => (set_timers (λ l, l ++ [CbFallbackProcess]) st1, [])
    end).

(** [urls.filter(url => url && !loadedImages.has(url))] *)
Definition validUrls (st : State) (urls : list string) : list string :=
  List.filter
    (λ u, Js.truthy_string u && negb (bool_decide (u ∈ loadedImages st)))
    urls.

(** [preload(urls, { priority })], up to its first suspension. *)
Definition preload (h : Hook) (urls : list string) (p : Priority) (st : State) : Run :=
  match validUrls st urls with
  | [] => (st, [])
  | valid =>
      match p with
      | critical => preloadAll valid st
      | high => highLoop h valid st
      | low =>
          let st1 := set_pending (λ q, q ++ map (λ u, mkTask u low pending) valid) st in
          (set_timers (λ l, l ++ [CbProcessIdleTasks]) st1, [])
      | idle =>
          let st1 := set_pending (λ q, q ++ map (λ u, mkTask u idle pending) valid) st in
          (processIdleTasks st1, [])
      end
  end.

(** The four slices of [preloadForViewer]. *)
Record Tiers := mkTiers {
  criticalUrls : list string;
  highUrls : list string;
  lowUrls : list string;
  idleUrls : list string
}.

Definition viewerTiers (pageImageUrls : list (option string))
           (currentPage initialPages : Z) : Tiers :=
  let validUrls := Js.filter_truthy pageImageUrls in
  let len := Z.of_nat (length validUrls) in
  let currentIndex := currentPage - 1 in
  let criticalStart := Z.max 0 currentIndex in
  let criticalEnd := Z.min len (criticalStart + initialPages) in
  let highStart := criticalEnd in
  let highEnd := Z.min len (highStart + 2) in
  let lowStart := highEnd in
  let lowEnd := Z.min len (lowStart + 4) in
  mkTiers (Js.slice validUrls criticalStart criticalEnd)
          (Js.slice validUrls highStart highEnd)
          (Js.slice validUrls lowStart lowEnd)
          (Js.slice_from validUrls lowEnd).

(** [if (xs.length > 0) preload(xs, { priority })] *)
Definition preloadIfAny (h : Hook) (urls : list string) (p : Priority) (st : State) : Run :=
  match urls with
  | [] => (st, [])
  | _ :: _ => preload h urls p st
  end.

(** [preloadForViewer(pageImageUrls, currentPage, initialPages)] *)
Definition preloadForViewer (h : Hook) (pageImageUrls : list (option string))
           (currentPage initialPages : Z) (st : State) : Run :=
  match Js.filter_truthy pageImageUrls with
  | [] => (st, [])
  | _ :: _ =>
      let t := viewerTiers pageImageUrls currentPage initialPages in
      andThen (andThen (andThen
        (preload h (criticalUrls t) critical st)
        (preloadIfAny h (highUrls t) high))
        (preloadIfAny h (lowUrls t) low))
        (preloadIfAny h (idleUrls t) idle)
  end.

(** The lists [preloadForViewer] hands to [preload], with their priority,
    in call order. *)
Definition viewerCalls (pageImageUrls : list (option string))
           (currentPage initialPages : Z) : list (Priority * list string) :=
  match Js.filter_truthy pageImageUrls with
  | [] => []
  | _ :: _ =>
      let t := viewerTiers pageImageUrls currentPage initialPages in
      let opt p us := match us with [] => [] | _ :: _ => [(p, us)] end in
      (critical, criticalUrls t) :: opt high (highUrls t)
        ++ opt low (lowUrls t) ++ opt idle (idleUrls t)
  end.

(** An image fires [onload] ([ok = true]: the URL enters the cache) or
    [onerror] ([ok = false]: the promise rejects, nothing is recorded).
    A suspended high-tier loop resumes either way, since it swallows the
    rejection with [.catch(() => {})]. *)
Definition settle (i : nat) (ok : bool) (st : State) : Run :=
  match inflight st !! i with
  | None => (st, [])
  | Some (u, k) =>
      let st1 := set_inflight (λ l, take i l ++ drop (S i) l) st in
      let st2 := if ok then set_loaded (λ s, {[u]} ∪ s) st1 else st1 in
      match k with
      | KDone => (st2, [])
      | KHigh h rest => highLoop h rest st2
      end
  end.

(** A scheduled callback runs. *)
Definition fire (i : nat) (budget : nat) (st : State) : Run :=
  match timers st !! i with
  | None => (st, [])
  | Some cb =>
      let st1 := set_timers (λ l, take i l ++ drop (S i) l) st in
      match cb with
      | CbProcessIdleTasks => (processIdleTasks st1, [])
      | CbIdleCallback => idleCallback budget st1
      | CbFallbackProcess => fallbackProcess st1
      end
  end.

(** Everything that can happen to the preloader. *)
Inductive Event :=
| EvPreload (h : Hook) (urls : list string) (p : Priority)
| EvPreloadForViewer (h : Hook) (pageImageUrls : list (option string))
                     (currentPage initialPages : Z)
| EvSettle (i : nat) (ok : bool)
| EvFire (i : nat) (budget : nat)
| EvUnmount (h : Hook).

Definition step (ev : Event) (st : State) : Run :=
  match ev with
  | EvPreload h urls p => preload h urls p st
  | EvPreloadForViewer h l c n => preloadForViewer h l c n st
  | EvSettle i ok => settle i ok st
  | EvFire i budget => fire i budget st
  | EvUnmount h => (set_aborted (λ s, {[h]} ∪ s) st, [])
  end.

Fixpoint run (evs : list Event) (st : State) : Run :=
  match evs with
  | [] => (st, [])
  | ev :: rest => andThen (step ev st) (run rest)
  end.

(** [isLoaded(url)] *)
Definition isLoaded (u : string) (st : State) : bool :=
  bool_decide (u ∈ loadedImages st).

(** URLs of the tasks waiting in the queue. *)
Definition queued (st : State) : list string := map url (pendingTasks st).

(** URLs a suspended high-tier loop will still go through. *)
Definition awaitingOf (l : list (string * Cont)) : list string :=
  flat_map (λ e, match snd e with KHigh h rest => rest | KDone => [] end) l.

(** What a call dispatched, given the state [st] it started from: the
    fetches it started, the URLs left in the sequential loop it suspended,
    and the URLs of the tasks it pushed on the queue. *)
Definition dispatched (st : State) (r : Run) : list string :=
  snd r
  ++ awaitingOf (drop (length (inflight st)) (inflight (fst r)))
  ++ drop (length (pendingTasks st)) (queued (fst r)).

(** [st'] continues [st]: same cache and abort flags, images in flight and
    queue extended at their ends only. *)
Definition extends (st st' : State) : Prop :=
  loadedImages st' = loadedImages st ∧
  aborted st' = aborted st ∧
  (∃ n, inflight st' = inflight st ++ n) ∧
  (∃ t, pendingTasks st' = pendingTasks st ++ t).

(** A run that leaves the cache as it was and starts fetches only for URLs
    that are not in it. *)
Definition cacheNeutral (st : State) (r : Run) : Prop :=
  loadedImages (fst r) = loadedImages st ∧
  ∀ u, u ∈ snd r → u ∉ loadedImages st.

(** No image of [u] fires [onload] along the events [evs] run from [st]:
    every fetch of [u] that settles, fails. *)
Fixpoint neverLoads (u : string) (evs : list Event) (st : State) : Prop :=
  match evs with
  | [] => True
  | ev :: rest =>
      match ev with
      | EvSettle i true => ∀ k, inflight st !! i ≠ Some (u, k)
      | _ => True
      end
      ∧ neverLoads u rest (fst (step ev st))
  end.

Definition allTiers (t : Tiers) : list string :=
  criticalUrls t ++ highUrls t ++ lowUrls t ++ idleUrls t.

Definition disjoint (l1 l2 : list string) : Prop :=
  ∀ u, u ∈ l1 → u ∈ l2 → False.

Definition pairwiseDisjoint (t : Tiers) : Prop :=
  disjoint (criticalUrls t) (highUrls t) ∧
  disjoint (criticalUrls t) (lowUrls t) ∧
  disjoint (criticalUrls t) (idleUrls t) ∧
  disjoint (highUrls t) (lowUrls t) ∧
  disjoint (highUrls t) (idleUrls t) ∧
  disjoint (lowUrls t) (idleUrls t).

(** The partition property as the specification words it: the tiers are
    pairwise disjoint and together hold exactly the non-null entries from
    position [currentPage - 1] of the original sequence on. *)
Definition tiersPartitionTail (pageImageUrls : list (option string))
           (currentPage initialPages : Z) : Prop :=
  let t := viewerTiers pageImageUrls currentPage initialPages in
  pairwiseDisjoint t ∧
  ∀ u, u ∈ allTiers t ↔ Some u ∈ drop (Z.to_nat (currentPage - 1)) pageImageUrls.

(** What the browser does on its own: an image settles, or a scheduled
    callback runs. *)
Definition browserEvent (ev : Event) : Prop :=
  match ev with
  | EvSettle _ _ | EvFire _ _ => True
  | _ => False
  end.

(** A URL that is kept for a later fetch: by a task in the queue, or by the
    sequential loop of a hook instance that is still mounted. *)
Definition waits (u : string) (st : State) : Prop :=
  u ∈ queued st
  ∨ ∃ i v h rest, inflight st !! i = Some (v, KHigh h rest)
                  ∧ u ∈ rest ∧ abortRef st h = false.

(** The retry property as the specification words it for
    [preloadForViewer]: a call whose list includes a URL that is not loaded
    dispatches that URL. *)
Definition refetchesIncluded (h : Hook) (pageImageUrls : list (option string))
           (currentPage initialPages : Z) (st : State) : Prop :=
  ∀ u, Some u ∈ pageImageUrls → u ≠ EmptyString → u ∉ loadedImages st →
       u ∈ dispatched st (preloadForViewer h pageImageUrls currentPage initialPages st).

(** The filter of [preload] as the specification words it: nothing that is
    cached and nothing that is already queued is dispatched. *)
Definition skipsLoadedAndQueued : Prop :=
  ∀ h urls p st u,
    u ∈ dispatched st (preload h urls p st) →
    (u ∉ loadedImages st) ∧ (u ∉ queued st).

End Preloader.

(** ** Page-flip sound player ([usePageFlipSound], second part of
    [useImagePreloader.ts]) *)

Module Sound.

Definition PAGE_FLIP_SOUNDS : list string :=
  ["page-flip1-178322.mp3"; "page-flip2-178323.mp3"; "small-page-103398.mp3"]%string.

Record Audio := mkAudio {
  src : string;
  volume : Q;
  playbackRate : Q;
  currentTime : Q;
  plays : nat              (* number of [audio.play()] calls *)
}.

Record Options := mkOptions {
  opt_volume : Q;          (* default 0.3 *)
  enabled : bool           (* default true *)
}.

(** [audioPoolRef], [loadedRef], [lastSoundIndexRef]. *)
Record State := mkState {
  audioPool : list Audio;
  loadedRef : bool;
  lastSoundIndex : Z
}.

Definition initial : State := mkState [] false (-1).

(** [initAudioPool]; [hasWindow] is [typeof window !== 'undefined']. *)
Definition initAudioPool (hasWindow : bool) (o : Options) (st : State) : State :=
  if loadedRef st || negb hasWindow then st
  else
    mkState
      (audioPool st ++ map (λ s, mkAudio s (opt_volume o) 1.3%Q 0%Q 0) PAGE_FLIP_SOUNDS)
      true (lastSoundIndex st).

(** The [do { ... } while (randomIndex === last && pool.length > 1)] loop.
    [draws] are the successive values of [Math.random()]; [None] means the
    loop has consumed all of them and is still rejecting. *)
Fixpoint pickIndex (draws : list Q) (len last : Z) : option (Z * list Q) :=
  match draws with
  | [] => None
  | r :: rest =>
      let randomIndex := Qfloor (r * inject_Z len) in
      if (randomIndex =? last) && (1 <? len)
      then pickIndex rest len last
      else Some (randomIndex, rest)
  end.

(** [pool[randomIndex]] with the reset-and-play of the clip. *)
Definition playClip (o : Options) (i : Z) (pool : list Audio) : list Audio :=
  if i <? 0 then pool
  else
    match pool !! Z.to_nat i with
    | None => pool
    | Some a =>
        <[Z.to_nat i := mkAudio (src a) (opt_volume o) (playbackRate a) 0%Q (S (plays a))]> pool
    end.

Record Result := mkResult {
  after : State;
  selected : option Z;     (* the clip index chosen by this call, if any *)
  unused : list Q          (* random draws not consumed *)
}.

(** [playFlipSound()].  [None]: the selection loop did not finish with the
    draws supplied. *)
Definition playFlipSound (hasWindow : bool) (o : Options) (draws : list Q)
           (st : State) : option Result :=
  if negb (enabled o) then Some (mkResult st None draws)
  else
    let st1 := if negb (loadedRef st) then initAudioPool hasWindow o st else st in
    let pool := audioPool st1 in
    match pool with
    | [] => Some (mkResult st1 None draws)
    | _ :: _ =>
        match pickIndex draws (Z.of_nat (length pool)) (lastSoundIndex st1) with
        | None => None
        | Some (randomIndex, rest) =>
            Some (mkResult
                    (mkState (playClip o randomIndex pool) (loadedRef st1) randomIndex)
                    (Some randomIndex) rest)
        end
    end.

(** A sequence of calls, each with its own supply of random draws; the
    result lists the clip chosen by each call that chose one.  The
    sequence stops at a call whose loop does not finish. *)
Fixpoint playMany (hasWindow : bool) (calls : list (Options * list Q))
         (st : State) : list Z :=
  match calls with
  | [] => []
  | (o, draws) :: rest =>
      match playFlipSound hasWindow o draws st with
      | None => []
      | Some r =>
          match selected r with
          | Some i => i :: playMany hasWindow rest (after r)
          | None => playMany hasWindow rest (after r)
          end
      end
  end.

(** A pool that is either not built yet or holds more than one clip. *)
Definition poolReady (st : State) : Prop :=
  audioPool st = [] ∨ (1 < length (audioPool st))%nat.

(** No two neighbours of a list are equal. *)
Fixpoint noRepeat (l : list Z) : Prop :=
  match l with
  | [] => True
  | a :: rest =>
      match rest with
      | [] => True
      | b :: _ => a ≠ b ∧ noRepeat rest
      end
  end.

End Sound.

(** ** JavaScript numbers *)

Module Double.

(** JavaScript numbers: the finite doubles as the rationals they are, the
    two infinities and NaN.  The sign of zero is not kept. *)
Inductive Num := NaN | Inf (negative : bool) | Fin (q : Q).

(** Nearest integer, ties to the even one. *)
Definition roundEven (x : Q) : Z :=
  let f := Qfloor x in
  match (x - inject_Z f ?= 1 # 2)%Q with
  | Lt => f
  | Gt => f + 1
  | Eq => if Z.even f then f else f + 1
  end.

(** [floor (log2 x)] for a positive [x]. *)
Definition ilog2 (x : Q) : Z :=
  let k := Z.log2 (Qnum x) - Z.log2 (Zpos (Qden x)) in
  if Qle_bool (2 ^ k) x then k else k - 1.

(** The exponent of the last place of the double nearest to a positive
    [x]: 53 significant bits, subnormals below [2^-1022]. *)
Definition ulpExp (x : Q) : Z := Z.max (ilog2 x - 52) (-1074).

(** A positive [x] rounded to 53 bits, before the overflow check. *)
Definition nearest (x : Q) : Q :=
  (inject_Z (roundEven (x / 2 ^ ulpExp x)) * 2 ^ ulpExp x)%Q.

(** The result of an operation whose exact value is [x]: round to nearest,
    ties to even, overflow to infinity. *)
Definition rnd (x : Q) : Num :=
  match (x ?= 0)%Q with
  | Eq => Fin 0
  | Gt => let m := nearest x in
          if Qle_bool (2 ^ 1024) m then Inf false else Fin (Qred m)
  | Lt => let m := nearest (- x) in
          if Qle_bool (2 ^ 1024) m then Inf true else Fin (Qred (- m))
  end.

(** An integer, or a numeric literal, as a number. *)
Definition ofZ (z : Z) : Num := rnd (inject_Z z).
Definition lit (q : Q) : Num := rnd q.

Definition isNeg (q : Q) : bool := negb (Qle_bool 0 q).

(** [a - b] *)
Definition sub (a b : Num) : Num :=
  match a, b with
  | NaN, _ | _, NaN => NaN
  | Fin x, Fin y => rnd (x - y)
  | Inf s, Fin _ => Inf s
  | Fin _, Inf s => Inf (negb s)
  | Inf s, Inf s' => if Bool.eqb s s' then NaN else Inf s
  end.

(** [a + b] *)
Definition add (a b : Num) : Num :=
  match a, b with
  | NaN, _ | _, NaN => NaN
  | Fin x, Fin y => rnd (x + y)
  | Inf s, Fin _ | Fin _, Inf s => Inf s
  | Inf s, Inf s' => if Bool.eqb s s' then Inf s else NaN
  end.

(** [a * b] *)
Definition mul (a b : Num) : Num :=
  match a, b with
  | NaN, _ | _, NaN => NaN
  | Fin x, Fin y => rnd (x * y)
  | Inf s, Fin y | Fin y, Inf s =>
      if Qeq_bool y 0 then NaN else Inf (xorb s (isNeg y))
  | Inf s, Inf s' => Inf (xorb s s')
  end.

(** [a / b]; a zero divisor is taken as [+0]. *)
Definition div (a b : Num) : Num :=
  match a, b with
  | NaN, _ | _, NaN => NaN
  | Fin x, Fin y =>
      if Qeq_bool y 0
      then (if Qeq_bool x 0 then NaN else Inf (isNeg x))
      else rnd (x / y)
  | Fin _, Inf _ => Fin 0
  | Inf s, Fin y => Inf (xorb s (isNeg y))
  | Inf _, Inf _ => NaN
  end.

(** [a < b]; false as soon as one side is NaN. *)
Definition ltb (a b : Num) : bool :=
  match a, b with
  | NaN, _ | _, NaN => false
  | Fin x, Fin y => negb (Qle_bool y x)
  | Inf true, Inf true => false
  | Inf true, _ => true
  | _, Inf true => false
  | Inf false, _ => false
  | Fin _, Inf false => true
  end.

(** [a == b] *)
Definition eqb (a b : Num) : bool :=
  match a, b with
  | Fin x, Fin y => Qeq_bool x y
  | Inf s, Inf s' => Bool.eqb s s'
  | _, _ => false
  end.

(** [Math.floor(a)] *)
Definition floor (a : Num) : Num :=
  match a with
  | Fin q => Fin (inject_Z (Qfloor q))
  | _ => a
  end.

(** [Math.round(a)]: the nearest integer, halves up. *)
Definition round (a : Num) : Num :=
  match a with
  | Fin q => Fin (inject_Z (Qfloor (q + (1 # 2))))
  | _ => a
  end.

(** The order of the numbers; NaN is not comparable. *)
Definition le (a b : Num) : Prop :=
  match a, b with
  | NaN, _ | _, NaN => False
  | Inf true, _ => True
  | _, Inf false => True
  | Fin x, Fin y => (x <= y)%Q
  | _, _ => False
  end.

End Double.

(** ** Flipbook viewer ([FlipbookViewer.tsx]) *)

Module Viewer.

Inductive ViewMode := single | double.

Definition DEFAULT_RATIO : Double.Num := Double.lit 1.414%Q.
Definition PRELOAD_AHEAD : Z := 2.
(** The constant of the earlier revision kept at the top of the file. *)
Definition RENDER_BUFFER : Z := 4.

Definition Qltb (a b : Q) : bool := negb (Qle_bool b a).

(** *** Layout *)

Record Dim := mkDim { width : Double.Num; height : Double.Num }.

Definition modeOf (windowW : Z) : ViewMode :=
  if windowW <? 1024 then single else double.

Definition maxH (mode : ViewMode) (containerH : Z) : Double.Num :=
  match mode with
  | single => Double.sub (Double.ofZ containerH) (Double.Fin 40)
  | double => Double.sub (Double.ofZ containerH) (Double.Fin 60)
  end.

Definition maxW (mode : ViewMode) (containerW : Z) : Double.Num :=
  match mode with
  | single => Double.sub (Double.ofZ containerW) (Double.Fin 40)
  | double => Double.div (Double.sub (Double.ofZ containerW) (Double.Fin 80)) (Double.Fin 2)
  end.

(** Height first, then width first when the derived width overflows:
    [targetWidth] and [targetHeight] before the sanity checks. *)
Definition fit (mode : ViewMode) (containerW containerH : Z) (RATIO : Double.Num)
  : Double.Num * Double.Num :=
  let targetHeight := maxH mode containerH in
  let targetWidth := Double.div targetHeight RATIO in
  if Double.ltb (maxW mode containerW) targetWidth
  then (maxW mode containerW, Double.mul (maxW mode containerW) RATIO)
  else (targetWidth, targetHeight).

(** The two sanity checks. *)
Definition clampWidth (targetWidth : Double.Num) : Double.Num :=
  if Double.ltb targetWidth (Double.Fin 200) then Double.Fin 200 else targetWidth.

Definition clampHeight (RATIO targetHeight : Double.Num) : Double.Num :=
  if Double.ltb targetHeight (Double.mul (Double.Fin 200) RATIO) then Double.mul (Double.Fin 200) RATIO
  else targetHeight.

(** [targetWidth], [targetHeight] as they reach [Math.floor]. *)
Definition target (containerW containerH windowW : Z) (RATIO : Double.Num) : Double.Num * Double.Num :=
  let (w, h) := fit (modeOf windowW) containerW containerH RATIO in
  (clampWidth w, clampHeight RATIO h).

Record Layout := mkLayout { viewMode : ViewMode; baseDim : Dim }.

(** [calculateLayout]: [container] is [containerRef.current] with its
    [clientWidth] and [clientHeight]; without it nothing changes. *)
Definition calculateLayout (container : option (Z * Z)) (windowW : Z)
           (pdfRatio : Double.Num) (st : Layout) : Layout :=
  match container with
  | None => st
  | Some (containerW, containerH) =>
      let (targetWidth, targetHeight) := target containerW containerH windowW pdfRatio in
      mkLayout (modeOf windowW) (mkDim (Double.floor targetWidth) (Double.floor targetHeight))
  end.

Definition initialLayout : Layout := mkLayout double (mkDim (Double.Fin 0) (Double.Fin 0)).

(** The stored dimensions after a recalculation with a container present. *)
Definition layoutOf (containerW containerH windowW : Z) (pdfRatio : Double.Num) : Dim :=
  baseDim (calculateLayout (Some (containerW, containerH)) windowW pdfRatio initialLayout).

(** The ratio invariant as the specification words it: unless a floor
    clamp fires, stored height / stored width is the ratio. *)
Definition ratioExact (containerW containerH windowW : Z) (pdfRatio : Double.Num) : Prop :=
  let (w, h) := fit (modeOf windowW) containerW containerH pdfRatio in
  Double.ltb w (Double.Fin 200) = false →
  Double.ltb h (Double.mul (Double.Fin 200) pdfRatio) = false →
  let d := layoutOf containerW containerH windowW pdfRatio in
  Double.eqb (Double.div (height d) (width d)) pdfRatio = true.

(** The box of the specification: what is left of the container once the
    paddings of the mode are taken off, as exact numbers. *)
Definition maxAvailableHeight (mode : ViewMode) (containerH : Z) : Q :=
  match mode with
  | single => inject_Z containerH - 40
  | double => inject_Z containerH - 60
  end%Q.

Definition maxAvailableWidth (mode : ViewMode) (containerW : Z) : Q :=
  match mode with
  | single => inject_Z containerW - 40
  | double => (inject_Z containerW - 80) / 2
  end%Q.

(** The box holds a sheet of the minimum size. *)
Definition hasRoom (mode : ViewMode) (containerW containerH : Z) (ratio : Q) : Prop :=
  (200 <= maxAvailableWidth mode containerW
   ∧ 200 * ratio <= maxAvailableHeight mode containerH)%Q.

(** [Math.round(x * 100) / 100]; [Math.round] rounds halves up. *)
Definition round2 (x : Q) : Q :=
  (inject_Z (Qfloor (x * 100 + (1 # 2))%Q) / 100)%Q.

(** *** Lazy page window *)

Definition initialPages (mode : ViewMode) : Z :=
  match mode with double => 2 | single => 1 end.

(** [shouldRenderPage(pageIndex)] of the current revision. *)
Definition shouldRenderPage (mode : ViewMode) (pageNumber pageIndex : Z) : bool :=
  let currentIndex := pageNumber - 1 in
  if pageIndex <? initialPages mode then true
  else
    let maxLoadedIndex := currentIndex + PRELOAD_AHEAD in
    pageIndex <=? maxLoadedIndex.

(** [shouldRenderPage(pageIndex)] of the earlier revision. *)
Definition shouldRenderPage_buffer (pageNumber pageIndex : Z) : bool :=
  let current := pageNumber - 1 in
  Z.abs (pageIndex - current) <=? RENDER_BUFFER.

(** The window of the specification: within [RENDER_BUFFER] pages of the
    current page, on either side. *)
Definition withinBuffer (pageNumber pageIndex : Z) : Prop :=
  Z.abs (pageIndex - (pageNumber - 1)) ≤ RENDER_BUFFER.

(** What the raw-document branch puts in each sheet. *)
Inductive Sheet := PdfPage (pageNumber : Z) | Placeholder (pageNumber : Z).

Definition pdfSheet (mode : ViewMode) (pageNumber : Z) (index : Z) : Sheet :=
  if shouldRenderPage mode pageNumber index
  then PdfPage (index + 1) else Placeholder (index + 1).

(** The lazy window as the specification words it. *)
Definition rendersExactlyBuffer (mode : ViewMode) (pageNumber pageIndex : Z) : Prop :=
  pdfSheet mode pageNumber pageIndex = PdfPage (pageIndex + 1)
  ↔ withinBuffer pageNumber pageIndex.

(** *** Double tap / double click zoom *)

Record Gesture := mkGesture {
  lastTapRef : Z;
  isTouchRef : bool;
  scale : Q
}.

Definition initialGesture : Gesture := mkGesture 0 false 1%Q.

Definition DOUBLE_TAP_DELAY : Z := 300.

(** [s => s === 1.0 ? 1.4 : 1.0] *)
Definition toggleScale (s : Q) : Q :=
  if Qeq_bool s 1%Q then 1.4%Q else 1%Q.

(** The part shared by both handlers. *)
Definition tap (now : Z) (isTouch : bool) (g : Gesture) : Gesture :=
  if now - lastTapRef g <? DOUBLE_TAP_DELAY
  then mkGesture 0 isTouch (toggleScale (scale g))
  else mkGesture now isTouch (scale g).

Definition handleTouchEnd (now : Z) (g : Gesture) : Gesture :=
  tap now true g.

Definition handleClick (now : Z) (g : Gesture) : Gesture :=
  if isTouchRef g
  then mkGesture (lastTapRef g) false (scale g)
  else tap now false g.

End Viewer.

(** ** Document store ([convex/documents.ts], [convex/schema.ts]) *)

Module Convex.

(** Identifiers of documents, categories and stored files. *)
Definition Id := nat.

Record Category := mkCategory {
  cat_id : Id;
  name : string;
  cat_active : bool;
  cat_order : Z
}.

Record Doc := mkDoc {
  _id : Id;
  title : string;
  categoryId : Id;
  date : string;
  storageId : Id;
  pageImages : option (list Id);
  active : bool;
  order : Z;
  createdAt : Z
}.

(** The two tables, rows in creation order, and the next fresh identifier. *)
Record Db := mkDb {
  documents : list Doc;
  categories : list Category;
  nextId : Id
}.

(** [ctx.db.get(id)] *)
Definition getDoc (db : Db) (id : Id) : option Doc :=
  List.find (λ d, Nat.eqb (_id d) id) (documents db).

Definition getCategory (db : Db) (id : Id) : option Category :=
  List.find (λ c, Nat.eqb (cat_id c) id) (categories db).

(** [withIndex("by_order")]: ascending [order], rows with the same key in
    creation order. *)
Fixpoint insertByOrder (d : Doc) (l : list Doc) : list Doc :=
  match l with
  | [] => [d]
  | x :: r => if order d <=? order x then d :: l else x :: insertByOrder d r
  end.

Definition byOrder (l : list Doc) : list Doc :=
  fold_right insertByOrder [] l.

(** [d.order || 0] *)
Definition orZero (x : Z) : Z := if x =? 0 then 0 else x.

(** [allDocs.reduce((max, d) => Math.max(max, d.order || 0), 0)] *)
Definition maxOrder (allDocs : list Doc) : Z :=
  fold_left (λ max d, Z.max max (orZero (order d))) allDocs 0.

(** [saveDocument]; [today] is [new Date().toISOString().split("T")[0]] and
    [now] is [Date.now()]. *)
Definition saveDocument (title : string) (categoryId storageId : Id)
           (pageImages : option (list Id)) (today : string) (now : Z)
           (db : Db) : Db * Id :=
  let allDocs := documents db in
  let documentId := nextId db in
  let doc := mkDoc documentId title categoryId today storageId pageImages
                   true (maxOrder allDocs + 1) now in
  (mkDb (documents db ++ [doc]) (categories db) (S (nextId db)), documentId).

(** [ctx.db.patch(id, fields)]: fails when the row does not exist. *)
Fixpoint patchDoc (id : Id) (f : Doc → Doc) (l : list Doc) : option (list Doc) :=
  match l with
  | [] => None
  | d :: r =>
      if Nat.eqb (_id d) id then Some (f d :: r)
      else option_map (cons d) (patchDoc id f r)
  end.

Definition withDocuments (db : Db) (docs : list Doc) : Db :=
  mkDb docs (categories db) (nextId db).

(** A mutation that throws leaves the database as it was. *)
Definition commit (db : Db) (r : option (list Doc)) : Db :=
  match r with
  | Some docs => withDocuments db docs
  | None => db
  end.

Definition setTitleCategory (t : string) (c : Id) (d : Doc) : Doc :=
  mkDoc (_id d) t c (date d) (storageId d) (pageImages d) (active d) (order d) (createdAt d).
Definition setActive (b : bool) (d : Doc) : Doc :=
  mkDoc (_id d) (title d) (categoryId d) (date d) (storageId d) (pageImages d) b (order d) (createdAt d).
Definition setOrder (o : Z) (d : Doc) : Doc :=
  mkDoc (_id d) (title d) (categoryId d) (date d) (storageId d) (pageImages d) (active d) o (createdAt d).

Definition updateDocument (id : Id) (t : string) (c : Id) (db : Db) : Db :=
  commit db (patchDoc id (setTitleCategory t c) (documents db)).

Definition toggleActive (id : Id) (db : Db) : Db :=
  match getDoc db id with
  | Some doc => commit db (patchDoc id (setActive (negb (active doc))) (documents db))
  | None => db
  end.

(** [args.ids.map((id, index) => ctx.db.patch(id, { order: index }))] *)
Fixpoint reorderFrom (index : Z) (ids : list Id) (docs : list Doc) : option (list Doc) :=
  match ids with
  | [] => Some docs
  | id :: rest =>
      match patchDoc id (setOrder index) docs with
      | Some docs1 => reorderFrom (index + 1) rest docs1
      | None => None
      end
  end.

Definition reorder (ids : list Id) (db : Db) : Db :=
  commit db (reorderFrom 0 ids (documents db)).

(** [deleteDocument]; the stored files it deletes as well are outside the
    two tables. *)
Definition deleteDocument (id : Id) (db : Db) : Db :=
  match getDoc db id with
  | Some _ => withDocuments db (List.filter (λ d, negb (Nat.eqb (_id d) id)) (documents db))
  | None => db
  end.

(** What the list queries return for a document. *)
Record DocView := mkView {
  doc : Doc;
  url : option string;
  pageImageUrls : option (list (option string));
  category : string
}.

Section Queries.

(** [ctx.storage.getUrl] *)
Variable getUrl : Id → option string.

Definition pageUrls (d : Doc) : option (list (option string)) :=
  option_map (map getUrl) (pageImages d).

(** The body of the [documents.map(async (doc) => ...)] of
    [listActiveDocuments]: [null] unless the category exists and is
    active. *)
Definition activeView (db : Db) (d : Doc) : option DocView :=
  match getCategory db (categoryId d) with
  | Some c =>
      if cat_active c
      then Some (mkView d (getUrl (storageId d)) (pageUrls d) (name c))
      else None
  | None => None
  end.

(** [listActiveDocuments] *)
Definition listActiveDocuments (db : Db) : list DocView :=
  let documents := List.filter active (byOrder (documents db)) in
  let docsWithDetails := map (activeView db) documents in
  omap id docsWithDetails.

(** [listDocuments] *)
Definition listDocuments (db : Db) : list DocView :=
  map (λ d,
         mkView d (getUrl (storageId d)) (pageUrls d)
                (match getCategory db (categoryId d) with
                 | Some c =>
                     if Js.truthy_string (name c) then name c
                     else "Không xác định"%string
                 | None => "Không xác định"%string
                 end))
      (byOrder (documents db)).

End Queries.

(** The mutations of [documents.ts]. *)
Inductive Mutation :=
| SaveDocument (title : string) (categoryId storageId : Id)
               (pageImages : option (list Id)) (today : string) (now : Z)
| UpdateDocument (id : Id) (title : string) (categoryId : Id)
| ToggleActive (id : Id)
| Reorder (ids : list Id)
| DeleteDocument (id : Id).

Definition applyMutation (m : Mutation) (db : Db) : Db :=
  match m with
  | SaveDocument t c s p today now => fst (saveDocument t c s p today now db)
  | UpdateDocument i t c => updateDocument i t c db
  | ToggleActive i => toggleActive i db
  | Reorder ids => reorder ids db
  | DeleteDocument i => deleteDocument i db
  end.

(** The maximum of a list of keys, if there is one. *)
Fixpoint maximum (l : list Z) : option Z :=
  match l with
  | [] => None
  | x :: r =>
      match maximum r with
      | None => Some x
      | Some m => Some (Z.max x m)
      end
  end.

(** The maximum order among the documents, or 0 if there is none. *)
Definition maximumOrderOrZero (docs : list Doc) : Z :=
  match maximum (map order docs) with
  | Some m => m
  | None => 0
  end.

(** Order keys as the mutations write them: never negative. *)
Definition ordersNonneg (db : Db) : Prop :=
  Forall (λ d, 0 ≤ order d) (documents db).

Definition emptyDb : Db := mkDb [] [] 0%nat.

(** The public visibility rule in the claim's words: the document is
    active and its category exists and is active. *)
Definition publiclyVisible (db : Db) (d : Doc) : bool :=
  active d &&
  match getCategory db (categoryId d) with
  | Some c => cat_active c
  | None => false
  end.

End Convex.

(** ** JavaScript number helpers *)

Module JsNum.

(** [Math.max(a, b)], [Math.min(a, b)] and [Math.round(x)] on numbers that
    are not NaN. *)
Definition max (a b : Q) : Q := if Qle_bool a b then b else a.
Definition min (a b : Q) : Q := if Qle_bool a b then a else b.
Definition round (x : Q) : Z := Qfloor (x + (1 # 2))%Q.

End JsNum.

(** ** The rest of the preloader hook ([useImagePreloader.ts]) *)

Module PreloaderApi.

Import Preloader.

(** [doc.pageImageUrls?.[0]] *)
Definition firstPage (pageImageUrls : option (list (option string))) : option string :=
  match pageImageUrls with
  | Some (u :: _) => u
  | _ => None
  end.

(** [preloadFirstPages(documents)] *)
Definition preloadFirstPages (h : Hook) (documents : list (option (list (option string))))
           (st : State) : Run :=
  let firstPageUrls := Js.filter_truthy (map firstPage documents) in
  match firstPageUrls with
  | [] => (st, [])
  | _ :: _ => preload h firstPageUrls critical st
  end.

(** [getCacheStats()] *)
Record CacheStats := mkStats {
  stat_loaded : nat;
  stat_pending : nat;
  stat_isIdleLoading : bool
}.

Definition getCacheStats (st : State) : CacheStats :=
  mkStats (size (loadedImages st)) (length (pendingTasks st)) (isIdleLoading st).

(** Callbacks that take tasks from the queue. *)
Definition isDrain (cb : Callback) : bool :=
  match cb with
  | CbProcessIdleTasks => false
  | CbIdleCallback | CbFallbackProcess => true
  end.

Definition drains (st : State) : nat :=
  length (List.filter isDrain (timers st)).

(** [isIdleLoading] says whether a drain callback is scheduled, there is at
    most one, and a non-empty queue always has some callback scheduled. *)
Definition scheduled (st : State) : Prop :=
  drains st = (if isIdleLoading st then 1 else 0)%nat
  ∧ (pendingTasks st ≠ [] → timers st ≠ []).

Definition taskOk (t : PreloadTask) : Prop :=
  status t = pending ∧ url t ≠ EmptyString.

Definition entryOk (e : string * Cont) : Prop :=
  fst e ≠ EmptyString
  ∧ match snd e with
    | KHigh h rest => Forall (λ u, u ≠ EmptyString) rest
    | KDone => True
    end.

(** Every queued task is pending, and no URL that waits in the queue, is in
    flight or is kept by a suspended loop is empty. *)
Definition wellFormed (st : State) : Prop :=
  Forall taskOk (pendingTasks st) ∧ Forall entryOk (inflight st).

(** [log] holds every URL that is cached or in flight. *)
Definition tracked (log : list string) (st : State) : Prop :=
  (∀ u, u ∈ loadedImages st → u ∈ log)
  ∧ (∀ e, e ∈ inflight st → fst e ∈ log).

(** A run that leaves the cache alone, keeps the queue in order, and adds
    one well-formed image in flight for each fetch it starts. *)
Definition grows (st : State) (r : Run) : Prop :=
  loadedImages (fst r) = loadedImages st
  ∧ Forall taskOk (pendingTasks (fst r))
  ∧ ∃ news, inflight (fst r) = inflight st ++ news
            ∧ map fst news = snd r
            ∧ Forall entryOk news.

(** Two states with the same queue, timers and idle flag. *)
Definition sameSchedule (st st' : State) : Prop :=
  timers st' = timers st
  ∧ isIdleLoading st' = isIdleLoading st
  ∧ pendingTasks st' = pendingTasks st
  ∧ hasRequestIdleCallback st' = hasRequestIdleCallback st.

(** The URLs of a list that are not in the cache of [st], in order. *)
Definition uncached (st : State) (urls : list string) : list string :=
  List.filter (λ u, negb (bool_decide (u ∈ loadedImages st))) urls.

Definition isHigh (e : string * Cont) : bool :=
  match snd e with
  | KHigh _ _ => true
  | KDone => false
  end.

(** Images the suspended high-tier loops wait for. *)
Definition highInFlight (st : State) : nat :=
  length (List.filter isHigh (inflight st)).

End PreloaderApi.

(** ** The rest of the sound hook *)

Module SoundApi.

Import Sound.

(** [setVolume(newVolume)] *)
Definition setVolume (newVolume : Q) (st : State) : State :=
  mkState
    (map (λ a, mkAudio (src a) (JsNum.max 0 (JsNum.min 1 newVolume))
                       (playbackRate a) (currentTime a) (plays a))
         (audioPool st))
    (loadedRef st) (lastSoundIndex st).

(** The state after a sequence of [playFlipSound()] calls; [None] when the
    selection loop of one of them does not finish. *)
Fixpoint runCalls (hasWindow : bool) (calls : list (Options * list Q))
         (st : State) : option State :=
  match calls with
  | [] => Some st
  | (o, draws) :: rest =>
      match playFlipSound hasWindow o draws st with
      | None => None
      | Some r => runCalls hasWindow rest (after r)
      end
  end.

(** The pool is not built yet, or it is the three clips of
    [PAGE_FLIP_SOUNDS]. *)
Definition poolBuiltOnce (st : State) : Prop :=
  (loadedRef st = false ∧ audioPool st = [])
  ∨ (loadedRef st = true ∧ map src (audioPool st) = PAGE_FLIP_SOUNDS).

End SoundApi.

(** ** Toolbar, wheel and progress of the viewer ([FlipbookViewer.tsx]) *)

Module ViewerUi.

Import Viewer.

(** The three zoom buttons. *)
Definition zoomOut (s : Q) : Q := JsNum.max 0.5 (s - 0.1)%Q.
Definition zoomIn (s : Q) : Q := JsNum.min 1.5 (s + 0.1)%Q.
Definition resetZoom (_ : Q) : Q := 1%Q.

(** Everything that writes [scale]. *)
Inductive ZoomAction := ZoomOutClick | ZoomInClick | ResetClick | DoubleTap.

Definition zoom (a : ZoomAction) (s : Q) : Q :=
  match a with
  | ZoomOutClick => zoomOut s
  | ZoomInClick => zoomIn s
  | ResetClick => resetZoom s
  | DoubleTap => toggleScale s
  end.

Definition inZoomRange (s : Q) : Prop := (0.5 <= s)%Q ∧ (s <= 1.5)%Q.

(** [handleWheel(e)] *)
Inductive Flip := FlipNext | FlipPrev.

Record WheelResult := mkWheel {
  lastWheelRef : Z;
  prevented : bool;         (* e.preventDefault() was called *)
  flip : option Flip
}.

Definition handleWheel (hasBook : bool) (windowW now : Z) (deltaY : Q)
           (lastWheel : Z) : WheelResult :=
  if windowW <? 1024 then mkWheel lastWheel false None
  else if now - lastWheel <? 300 then mkWheel lastWheel true None
  else
    mkWheel now true
      (if Qltb 0 deltaY then (if hasBook then Some FlipNext else None)
       else if Qltb deltaY 0 then (if hasBook then Some FlipPrev else None)
       else None).

Record WheelEvent := mkWheelEvent {
  ev_windowW : Z;           (* window.innerWidth when the event arrives *)
  ev_now : Z;               (* Date.now() *)
  ev_deltaY : Q
}.

(** The flips a sequence of wheel events causes, with their times. *)
Fixpoint wheelFlips (hasBook : bool) (evs : list WheelEvent) (lastWheel : Z)
  : list (Z * Flip) :=
  match evs with
  | [] => []
  | e :: rest =>
      let r := handleWheel hasBook (ev_windowW e) (ev_now e) (ev_deltaY e) lastWheel in
      match flip r with
      | Some f => (ev_now e, f) :: wheelFlips hasBook rest (lastWheelRef r)
      | None => wheelFlips hasBook rest (lastWheelRef r)
      end
  end.

(** Neighbouring times are at least [gap] apart. *)
Fixpoint spaced (gap : Z) (times : list Z) : Prop :=
  match times with
  | [] => True
  | t :: rest =>
      match rest with
      | [] => True
      | t' :: _ => gap ≤ t' - t ∧ spaced gap rest
      end
  end.

(** [expectedPages] and [loadProgress] *)
Definition expectedPages (numPages : Z) (mode : ViewMode) : Z :=
  Z.min numPages (initialPages mode + PRELOAD_AHEAD).

Definition loadProgress (numPages : Z) (mode : ViewMode) (loadedPages : gset Z) : Z :=
  if 0 <? numPages
  then JsNum.round (inject_Z (Z.of_nat (size loadedPages))
                    / inject_Z (expectedPages numPages mode) * 100)%Q
  else 0.

(** [onPageLoadSuccess(pageIndex)] *)
Definition onPageLoadSuccess (pageIndex : Z) (prev : gset Z) : gset Z :=
  prev ∪ {[pageIndex]}.

(** The condition under which the toolbar shows the progress bar. *)
Definition progressShown (hasPrerenderedImages : bool) (numPages : Z)
           (mode : ViewMode) (loadedPages : gset Z) : bool :=
  negb hasPrerenderedImages
  && (loadProgress numPages mode loadedPages <? 100)
  && (0 <? numPages).

(** [pageImageUrls && pageImageUrls.length > 0 && pageImageUrls.some(url => url)] *)
Definition hasPrerenderedImages (pageImageUrls : option (list (option string))) : bool :=
  match pageImageUrls with
  | None => false
  | Some l => (0 <? Z.of_nat (length l)) && existsb Js.truthy l
  end.

(** The effect that runs when the viewer opens a document with page images:
    [preloadForViewer(pageImageUrls, 1, initPages)] with
    [initPages = window.innerWidth >= 1024 ? 2 : 1]. *)
Definition openPreload (h : Preloader.Hook) (pageImageUrls : option (list (option string)))
           (innerWidth : Z) (st : Preloader.State) : Preloader.Run :=
  match pageImageUrls with
  | Some l =>
      if hasPrerenderedImages pageImageUrls
      then Preloader.preloadForViewer h l 1 (if 1024 <=? innerWidth then 2 else 1) st
      else (st, [])
  | None => (st, [])
  end.

End ViewerUi.

(** ** More of the document store *)

Module Store.

Import Convex.

(** Identifiers are unique and below the next fresh one. *)
Definition wellFormed (db : Db) : Prop :=
  NoDup (map _id (documents db))
  ∧ Forall (λ d, (_id d < nextId db)%nat) (documents db).

(** Identifiers in the order of the admin listing. *)
Definition listedIds (db : Db) : list Id := map _id (byOrder (documents db)).

(** [categories.toggleActive] *)
Fixpoint patchCategory (id : Id) (f : Category → Category) (l : list Category)
  : option (list Category) :=
  match l with
  | [] => None
  | c :: r =>
      if Nat.eqb (cat_id c) id then Some (f c :: r)
      else option_map (cons c) (patchCategory id f r)
  end.

Definition setCategoryActive (b : bool) (c : Category) : Category :=
  mkCategory (cat_id c) (name c) b (cat_order c).

Definition toggleCategoryActive (id : Id) (db : Db) : Db :=
  match getCategory db id with
  | Some cat =>
      match patchCategory id (setCategoryActive (negb (cat_active cat))) (categories db) with
      | Some cats => mkDb (documents db) cats (nextId db)
      | None => db
      end
  | None => db
  end.

(** [categories.remove]: throws, leaving the database as it was, when a
    document still refers to the category ([rejected]). *)
Definition documentsOf (id : Id) (db : Db) : list Doc :=
  List.filter (λ d, Nat.eqb (categoryId d) id) (documents db).

Definition removeRejected (id : Id) (db : Db) : bool :=
  (0 <? Z.of_nat (length (documentsOf id db))).

Definition removeCategory (id : Id) (db : Db) : Db :=
  if removeRejected id db then db
  else mkDb (documents db)
            (List.filter (λ c, negb (Nat.eqb (cat_id c) id)) (categories db))
            (nextId db).

(** Every document refers to a category that exists. *)
Definition referencesResolve (db : Db) : Prop :=
  Forall (λ d, is_Some (getCategory db (categoryId d))) (documents db).

End Store.

(** ** Admin screens ([DocumentManager.tsx], [Uploader.tsx]) *)

Module Admin.

Import Convex.

(** [arr.findIndex(d => d._id === id)]; [None] is -1. *)
Fixpoint findIndex (id : Id) (l : list Doc) : option nat :=
  match l with
  | [] => None
  | d :: r =>
      if Nat.eqb (_id d) id then Some 0%nat
      else option_map S (findIndex id r)
  end.

(** [const [removed] = newOrder.splice(draggedIndex, 1);
     newOrder.splice(targetIndex, 0, removed);] *)
Definition moveItem {A : Type} (draggedIndex targetIndex : nat) (l : list A) : list A :=
  match l !! draggedIndex with
  | None => l
  | Some removed =>
      let rest := take draggedIndex l ++ drop (S draggedIndex) l in
      take targetIndex rest ++ removed :: drop targetIndex rest
  end.

(** [handleDragOver]: the identifiers handed to [reorderDocuments], or
    [None] when the handler returns without calling it. *)
Definition handleDragOver (draggedId : option Id) (targetId : Id)
           (documents : option (list Doc)) : option (list Id) :=
  match draggedId, documents with
  | Some dragged, Some docs =>
      if Nat.eqb dragged targetId then None
      else
        match findIndex dragged docs, findIndex targetId docs with
        | Some draggedIndex, Some targetIndex =>
            Some (map _id (moveItem draggedIndex targetIndex docs))
        | _, _ => None
        end
  | _, _ => None
  end.

(** The mutation the drag sends, applied to the database. *)
Definition dragOver (draggedId : option Id) (targetId : Id) (db : Db) : Db :=
  match handleDragOver draggedId targetId (Some (byOrder (documents db))) with
  | Some ids => reorder ids db
  | None => db
  end.

(** *** Upload ([Uploader.tsx]) *)

(** A promise the handler awaits: it resolves with a value or rejects. *)
Inductive Outcome (A : Type) := Resolved (a : A) | Rejected.
Arguments Resolved {A} a.
Arguments Rejected {A}.

(** The response of a [fetch]: [ok], and the [storageId] that [json()]
    gives. *)
Record Response := mkResponse { ok : bool; json : Outcome Id }.

(** What pdf.js, the server and the network answer for one page:
    [renderPageToBlob], [generateUploadUrl], [fetch]. *)
Record PageRun := mkPageRun {
  blob : Outcome unit;
  imgUploadUrl : Outcome unit;
  imgResult : Outcome Response }.

(** The answers during one run of [handleUpload], in the order the handler
    awaits them; [page i] holds those for page [i].  [saved] tells whether
    the [saveDocument] mutation ran: a rejected mutation leaves the table
    as it was. *)
Record UploadRun := mkUploadRun {
  uploadUrl : Outcome unit;
  result : Outcome Response;
  arrayBuffer : Outcome unit;
  numPages : Outcome nat;
  page : nat → PageRun;
  saved : bool }.

(** The awaited calls of the [try] block. *)
Inductive Step :=
| GenerateUploadUrl | Fetch | Json | ArrayBuffer | GetDocument
| RenderPage (i : nat) | PageUploadUrl (i : nat) | PageFetch (i : nat)
| PageJson (i : nat) | SaveDocument.

Inductive UploadError :=
| MissingInput              (* the alert before anything is sent *)
| PdfUploadFailed           (* "Upload PDF that bai" *)
| PageUploadFailed (i : nat)
| Rejection (step : Step)   (* a rejected promise, caught by the same [catch] *).

(** The [try] block: the first error ends it. *)
Definition Try (A : Type) : Type := UploadError + A.

#[global] Instance Try_bind : MBind Try :=
  λ A B f m, match m with inl e => inl e | inr a => f a end.

Definition await {A : Type} (step : Step) (o : Outcome A) : Try A :=
  match o with
  | Resolved a => inr a
  | Rejected => inl (Rejection step)
  end.

(** The body of the page loop for page [i]. *)
Definition uploadPage (run : UploadRun) (i : nat) : Try Id :=
  _ ← await (RenderPage i) (blob (page run i));
  _ ← await (PageUploadUrl i) (imgUploadUrl (page run i));
  imgResult ← await (PageFetch i) (imgResult (page run i));
  if negb (ok imgResult) then inl (PageUploadFailed i)
  else await (PageJson i) (json imgResult).

(** [for (let i = 1; i <= numPages; i++)] with [remaining] pages to go
    from page [i]. *)
Fixpoint uploadPages (run : UploadRun) (remaining i : nat) (pageImageIds : list Id)
  : Try (list Id) :=
  match remaining with
  | O => inr pageImageIds
  | S n =>
      imgStorageId ← uploadPage run i;
      uploadPages run n (S i) (pageImageIds ++ [imgStorageId])
  end.

(** [setProgress(10 + Math.round((i / numPages) * 80))] *)
Definition pageProgress (i numPages : Z) : Double.Num :=
  Double.add (Double.Fin 10)
    (Double.round
       (Double.mul (Double.div (Double.ofZ i) (Double.ofZ numPages)) (Double.Fin 80))).

(** The [try] block of [handleUpload]; [title] is
    [docName || file.name.replace('.pdf', '')]. *)
Definition tryUpload (title : string) (categoryId : Id) (run : UploadRun)
           (today : string) (now : Z) (db : Db) : Try (Db * Id) :=
  _ ← await GenerateUploadUrl (uploadUrl run);
  result ← await Fetch (result run);
  if negb (ok result) then inl PdfUploadFailed
  else
    storageId ← await Json (json result);
    _ ← await ArrayBuffer (arrayBuffer run);
    numPages ← await GetDocument (numPages run);
    pageImageIds ← uploadPages run numPages 1 [];
    if saved run
    then inr (saveDocument title categoryId storageId (Some pageImageIds) today now db)
    else inl (Rejection SaveDocument).

(** [handleUpload]: the table afterwards and the error of the alert, if
    any.  [selectedCategoryId] is [None] for the empty string. *)
Definition handleUpload (hasFile : bool) (selectedCategoryId : option Id)
           (title : string) (run : UploadRun)
           (today : string) (now : Z) (db : Db) : Db * option UploadError :=
  match hasFile, selectedCategoryId with
  | true, Some categoryId =>
      match tryUpload title categoryId run today now db with
      | inr (db', _) => (db', None)
      | inl e => (db, Some e)
      end
  | _, _ => (db, Some MissingInput)
  end.

(** Page [p] went through: rendered, sent, answered ok with [img]. *)
Definition pageUploaded (p : PageRun) (img : Id) : Prop :=
  blob p = Resolved tt ∧ imgUploadUrl p = Resolved tt
  ∧ imgResult p = Resolved (mkResponse true (Resolved img)).

(** Everything before the page loop went through, with [storageId] for the
    file. *)
Definition fileUploaded (run : UploadRun) (storageId : Id) : Prop :=
  uploadUrl run = Resolved tt
  ∧ result run = Resolved (mkResponse true (Resolved storageId))
  ∧ arrayBuffer run = Resolved tt.

End Admin.

(** * Properties *)

(** ** Array slices *)

Section SliceFacts.

Context {A : Type}.
Implicit Types l : list A.

Lemma slice_nonneg l (a b : Z) :
  0 ≤ a → 0 ≤ b →
  Js.slice l a b =
    take (Z.to_nat (Z.min b (Z.of_nat (length l)))
          - Z.to_nat (Z.min a (Z.of_nat (length l))))%nat
         (drop (Z.to_nat (Z.min a (Z.of_nat (length l)))) l).
Proof.
  intros Ha Hb. unfold Js.slice, Js.relative_index.
  destruct (Z.ltb_spec a 0); [lia|]. destruct (Z.ltb_spec b 0); [lia|].
  f_equal. lia.
Qed.

Lemma slice_from_nonneg l (a : Z) :
  0 ≤ a → Js.slice_from l a = drop (Z.to_nat (Z.min a (Z.of_nat (length l)))) l.
Proof.
  intros Ha. unfold Js.slice_from. rewrite slice_nonneg by lia.
  apply take_ge. rewrite length_drop. lia.
Qed.

Lemma take_drop_chain l (a b c : nat) :
  (a ≤ b ≤ c)%nat →
  take (b - a) (drop a l) ++ take (c - b) (drop b l) = take (c - a) (drop a l).
Proof.
  intros H.
  replace (drop b l) with (drop (b - a) (drop a l))
    by (rewrite drop_drop; f_equal; lia).
  rewrite take_take_drop. f_equal. lia.
Qed.

Lemma take_drop_rest l (a b : nat) :
  (a ≤ b)%nat → take (b - a) (drop a l) ++ drop b l = drop a l.
Proof.
  intros H.
  replace (drop b l) with (drop (b - a) (drop a l))
    by (rewrite drop_drop; f_equal; lia).
  apply take_drop.
Qed.

End SliceFacts.

(** ** Truthy filter *)

Lemma truthy_string_spec (s : string) :
  Js.truthy_string s = true ↔ s ≠ EmptyString.
Proof.
  unfold Js.truthy_string. destruct (String.eqb_spec s EmptyString); simpl.
  - split; [discriminate | contradiction].
  - split; [intros _; assumption | reflexivity].
Qed.

Lemma filter_truthy_app (l1 l2 : list (option string)) :
  Js.filter_truthy (l1 ++ l2) = Js.filter_truthy l1 ++ Js.filter_truthy l2.
Proof.
  induction l1 as [|[s|] l1 IH]; simpl; [reflexivity | | exact IH].
  destruct (Js.truthy_string s); simpl; congruence.
Qed.

Lemma elem_of_filter_truthy (l : list (option string)) (u : string) :
  u ∈ Js.filter_truthy l ↔ Some u ∈ l ∧ u ≠ EmptyString.
Proof.
  induction l as [|[s|] l IH]; simpl.
  - split; [intros H; inversion H | intros [H _]; inversion H].
  - destruct (Js.truthy_string s) eqn:Hs.
    + apply truthy_string_spec in Hs.
      rewrite !elem_of_cons, IH. split.
      * intros [->|[? ?]]; [split; [left; reflexivity | assumption] | split; [right|]; assumption].
      * intros [[Heq|?] ?]; [left; congruence | right; split; assumption].
    + assert (s = EmptyString) as ->.
      { destruct (String.eqb_spec s EmptyString) as [|Hne]; [assumption|].
        apply truthy_string_spec in Hne. congruence. }
      rewrite elem_of_cons, IH. split.
      * intros [? ?]; split; [right|]; assumption.
      * intros [[Heq|?] ?]; [congruence | split; assumption].
  - rewrite elem_of_cons, IH. split.
    + intros [? ?]; split; [right|]; assumption.
    + intros [[Heq|?] ?]; [discriminate | split; assumption].
Qed.

Lemma filter_truthy_length_all (l : list (option string)) :
  Forall (λ u, Js.truthy u = true) l →
  length (Js.filter_truthy l) = length l.
Proof.
  induction 1 as [|[s|] l Hx _ IH]; simpl in *; [reflexivity | | discriminate].
  rewrite Hx. simpl. congruence.
Qed.

Lemma drop_filter_truthy (k : nat) (l : list (option string)) :
  Forall (λ u, Js.truthy u = true) (take k l) →
  drop k (Js.filter_truthy l) = Js.filter_truthy (drop k l).
Proof.
  intros Hall.
  rewrite <- (take_drop k l) at 1. rewrite filter_truthy_app.
  destruct (Nat.le_gt_cases k (length l)) as [Hk|Hk].
  - apply drop_app_length'.
    rewrite filter_truthy_length_all by assumption.
    rewrite length_take. lia.
  - rewrite (drop_ge l) by lia. rewrite app_nil_r. simpl.
    apply drop_ge. rewrite take_ge in * by lia.
    rewrite filter_truthy_length_all by assumption. lia.
Qed.

(** ** Tiers of [preloadForViewer] *)

Section TierFacts.

Import Preloader.

(** Whatever the nulls, the four tiers are consecutive pieces of the
    filtered list and together make up its tail from [currentPage - 1]. *)
Lemma viewerTiers_concat (l : list (option string)) (currentPage initialPages : Z) :
  0 ≤ initialPages →
  allTiers (viewerTiers l currentPage initialPages)
  = drop (Z.to_nat (Z.max 0 (currentPage - 1))) (Js.filter_truthy l).
Proof.
  intros Hn. unfold allTiers, viewerTiers; simpl.
  set (v := Js.filter_truthy l). set (len := Z.of_nat (length v)).
  set (cs := Z.max 0 (currentPage - 1)).
  set (ce := Z.min len (cs + initialPages)).
  set (he := Z.min len (ce + 2)).
  set (le := Z.min len (he + 4)).
  rewrite !slice_nonneg, slice_from_nonneg by lia.
  fold len.
  set (a := Z.to_nat (Z.min cs len)). set (b := Z.to_nat (Z.min ce len)).
  set (c := Z.to_nat (Z.min he len)). set (d := Z.to_nat (Z.min le len)).
  assert (a ≤ b ≤ c)%nat by lia. assert (c ≤ d)%nat by lia.
  rewrite (take_drop_rest v c d), (take_drop_rest v b c), (take_drop_rest v a b) by lia.
  destruct (Z.le_gt_cases cs len).
  - subst a. f_equal. lia.
  - rewrite !drop_ge; [reflexivity | lia | lia].
Qed.

Lemma viewerCalls_concat (l : list (option string)) (currentPage initialPages : Z) :
  concat (map snd (viewerCalls l currentPage initialPages))
  = allTiers (viewerTiers l currentPage initialPages).
Proof.
  unfold viewerCalls, allTiers.
  destruct (Js.filter_truthy l) as [|x v] eqn:Hv.
  - unfold viewerTiers. rewrite Hv. unfold Js.slice_from, Js.slice. simpl.
    rewrite !drop_nil, !take_nil. reflexivity.
  - cbv zeta.
    destruct (highUrls _), (lowUrls _), (idleUrls _); simpl;
      rewrite ?app_nil_r; reflexivity.
Qed.

Lemma disjoint_nil_r (l : list string) : disjoint l [].
Proof. intros u _ H. inversion H. Qed.

Lemma NoDup_app_disjoint (l1 l2 : list string) :
  NoDup (l1 ++ l2) → disjoint l1 l2.
Proof. intros H u H1 H2. apply NoDup_app in H as (_ & H & _). exact (H u H1 H2). Qed.

Lemma NoDup_app_l (l1 l2 : list string) : NoDup (l1 ++ l2) → NoDup l1.
Proof. intros H. apply NoDup_app in H as (H & _ & _). exact H. Qed.

Lemma NoDup_app_r (l1 l2 : list string) : NoDup (l1 ++ l2) → NoDup l2.
Proof. intros H. apply NoDup_app in H as (_ & _ & H). exact H. Qed.

Lemma NoDup_tiers_disjoint (t : Tiers) :
  NoDup (allTiers t) → pairwiseDisjoint t.
Proof.
  unfold allTiers, pairwiseDisjoint. intros H.
  pose proof (NoDup_app_r _ _ H) as Hh.
  pose proof (NoDup_app_r _ _ Hh) as Hl.
  repeat split.
  - rewrite app_assoc in H. apply NoDup_app_l in H. apply NoDup_app_disjoint, H.
  - rewrite (app_assoc (highUrls t)) in H.
    apply NoDup_app in H as (_ & H & _).
    intros u H1 H2. apply (H u H1). apply elem_of_app. left. apply elem_of_app. right. exact H2.
  - apply NoDup_app in H as (_ & H & _).
    intros u H1 H2. apply (H u H1). rewrite !elem_of_app. right. right. exact H2.
  - rewrite app_assoc in Hh. apply NoDup_app_l in Hh. apply NoDup_app_disjoint, Hh.
  - apply NoDup_app in Hh as (_ & Hh & _).
    intros u H1 H2. apply (Hh u H1). rewrite elem_of_app. right. exact H2.
  - apply NoDup_app_disjoint, Hl.
Qed.

End TierFacts.

(** X31.  Apart from the nulls: when no null (or empty) entry stands
    before position [currentPage - 1] and the URLs from there on are
    pairwise distinct, the four lists [preloadForViewer] hands to [preload] are
    pairwise disjoint, and a URL is in one of them exactly when it is a
    non-null, non-empty entry at a position from [currentPage - 1] on; these
    lists are lists of strings, so no null is ever among them. *)
Theorem viewer_tiers_partition
        (pageImageUrls : list (option string)) (currentPage initialPages : Z) :
  1 ≤ currentPage →
  0 ≤ initialPages →
  Forall (λ u, Js.truthy u = true) (take (Z.to_nat (currentPage - 1)) pageImageUrls) →
  NoDup (Js.filter_truthy (drop (Z.to_nat (currentPage - 1)) pageImageUrls)) →
  let t := Preloader.viewerTiers pageImageUrls currentPage initialPages in
  Preloader.pairwiseDisjoint t ∧
  (∀ u, u ∈ Preloader.allTiers t ↔
        Some u ∈ drop (Z.to_nat (currentPage - 1)) pageImageUrls ∧ u ≠ EmptyString) ∧
  concat (map snd (Preloader.viewerCalls pageImageUrls currentPage initialPages))
  = Preloader.allTiers t.
Proof.
  intros Hc Hn Hall Hnd t.
  assert (Hcat : Preloader.allTiers t
                 = Js.filter_truthy (drop (Z.to_nat (currentPage - 1)) pageImageUrls)).
  { subst t. rewrite viewerTiers_concat by assumption.
    rewrite Z.max_r by lia. apply drop_filter_truthy, Hall. }
  split; [|split].
  - apply NoDup_tiers_disjoint. rewrite Hcat. exact Hnd.
  - intros u. rewrite Hcat. apply elem_of_filter_truthy.
  - apply viewerCalls_concat.
Qed.

Lemma viewer_tiers_partition_witness :
  let l := [Some "p1.webp"; Some "p2.webp"; None; Some "p4.webp"; Some "p5.webp";
            Some "p6.webp"; Some "p7.webp"; Some "p8.webp"; Some "p9.webp";
            Some "p10.webp"; None; Some "p12.webp"]%string in
  Preloader.viewerTiers l 2 2
  = Preloader.mkTiers ["p2.webp"; "p4.webp"] ["p5.webp"; "p6.webp"]
                      ["p7.webp"; "p8.webp"; "p9.webp"; "p10.webp"] ["p12.webp"]%string
  ∧ Preloader.pairwiseDisjoint (Preloader.viewerTiers l 2 2).
Proof.
  intros l. split; [reflexivity|].
  apply (viewer_tiers_partition l 2 2); [lia | lia | |].
  - repeat constructor.
  - apply (bool_decide_unpack _). vm_compute. exact I.
Defined.

(** C1.  The claim fails on the code at [[null; a; b]], [currentPage = 2],
    [initialPages = 2]: the pages from the current one on are [a] and [b],
    and only [b] is dispatched.  The nulls are filtered out first and the
    slices are then taken at the page index of the unfiltered list, so a
    null before the current page shifts every tier by one page; the comment
    of the critical tier says it loads the pages displayed. *)
Theorem viewer_tiers_null_shift :
  Preloader.viewerTiers [None; Some "a"; Some "b"]%string 2 2
  = Preloader.mkTiers ["b"%string] [] [] []
  ∧ Preloader.dispatched
      (Preloader.initial true)
      (Preloader.preloadForViewer 0%nat [None; Some "a"; Some "b"]%string 2 2
                                  (Preloader.initial true))
    = ["b"%string]
  ∧ ¬ Preloader.tiersPartitionTail [None; Some "a"; Some "b"]%string 2 2.
Proof.
  split; [reflexivity|]. split; [vm_compute; reflexivity|].
  intros [_ H]. specialize (H "a"%string). destruct H as [_ H].
  assert (Hin : "a"%string ∈ ["b"%string]).
  { apply H. simpl. left. }
  apply list_elem_of_singleton in Hin. discriminate.
Qed.

(** Tiers are pieces by position, so a URL that occurs twice can land in
    two tiers. *)
Lemma viewer_tiers_duplicate_url :
  ¬ Preloader.pairwiseDisjoint
      (Preloader.viewerTiers [Some "a"; Some "b"; Some "a"]%string 1 2).
Proof.
  intros (H & _). apply (H "a"%string); simpl; [left | left].
Qed.

(** ** What [preload] dispatches *)

Section PreloadFacts.

Import Preloader.

Lemma elem_of_validUrls (st : State) (urls : list string) (u : string) :
  u ∈ validUrls st urls ↔ u ∈ urls ∧ u ≠ EmptyString ∧ u ∉ loadedImages st.
Proof.
  unfold validUrls.
  rewrite list_elem_of_In, filter_In, <- list_elem_of_In, andb_true_iff,
    truthy_string_spec, negb_true_iff, bool_decide_eq_false.
  tauto.
Qed.

Lemma validUrls_fresh (st : State) (urls : list string) :
  Forall (λ u, u ∉ loadedImages st) (validUrls st urls).
Proof.
  apply Forall_forall. intros u Hu. apply elem_of_validUrls in Hu. tauto.
Qed.

Lemma preloadImage_fresh (k : Cont) (u : string) (st : State) :
  u ∉ loadedImages st →
  preloadImage k u st = (set_inflight (λ l, l ++ [(u, k)]) st, [u]).
Proof. intros H. unfold preloadImage. destruct (decide _); [contradiction | reflexivity]. Qed.

Lemma preloadImage_cached (k : Cont) (u : string) (st : State) :
  u ∈ loadedImages st → preloadImage k u st = (st, []).
Proof. intros H. unfold preloadImage. destruct (decide _); [reflexivity | contradiction]. Qed.

Lemma preloadAll_fresh (urls : list string) (st : State) :
  Forall (λ u, u ∉ loadedImages st) urls →
  preloadAll urls st
  = (set_inflight (λ l, l ++ map (λ u, (u, KDone)) urls) st, urls).
Proof.
  revert st. induction urls as [|u rest IH]; intros st Hall; simpl.
  - destruct st; unfold set_inflight; simpl. rewrite app_nil_r. reflexivity.
  - inversion Hall as [|? ? Hu Hrest]; subst.
    rewrite preloadImage_fresh by assumption. unfold andThen.
    rewrite IH by exact Hrest.
    destruct st; unfold set_inflight; simpl. rewrite <- app_assoc. reflexivity.
Qed.

Lemma highLoop_fresh (h : Preloader.Hook) (v : string) (rest : list string) (st : State) :
  abortRef st h = false → v ∉ loadedImages st →
  highLoop h (v :: rest) st = (set_inflight (λ l, l ++ [(v, KHigh h rest)]) st, [v]).
Proof.
  intros Ha Hv. simpl. rewrite Ha.
  destruct (decide _); [contradiction|]. apply preloadImage_fresh, Hv.
Qed.

Lemma highLoop_aborted (h : Preloader.Hook) (urls : list string) (st : State) :
  abortRef st h = true → highLoop h urls st = (st, []).
Proof. intros Ha. destruct urls; simpl; [|rewrite Ha]; reflexivity. Qed.

Lemma awaitingOf_done (urls : list string) :
  awaitingOf (map (λ u, (u, KDone)) urls) = [].
Proof. induction urls; simpl; [reflexivity | assumption]. Qed.

Lemma awaitingOf_app (l1 l2 : list (string * Cont)) :
  awaitingOf (l1 ++ l2) = awaitingOf l1 ++ awaitingOf l2.
Proof. unfold awaitingOf. apply flat_map_app. Qed.

Lemma queued_new (q : list PreloadTask) (p : Priority) (urls : list string) :
  drop (length q) (map url (q ++ map (λ u, mkTask u p pending) urls)) = urls.
Proof.
  rewrite map_app. rewrite drop_app_length' by (symmetry; apply length_map).
  rewrite map_map. simpl. apply map_id.
Qed.

Lemma dispatched_nothing (st : State) : dispatched st (st, []) = [].
Proof.
  unfold dispatched, queued; simpl.
  rewrite !drop_ge; [reflexivity | rewrite length_map; lia | lia].
Qed.

(** [preload] dispatches exactly the URLs that pass its filter; the one
    exception is the high tier of an unmounted hook, which breaks out of
    its loop at once. *)
Lemma preload_dispatched (h : Preloader.Hook) (urls : list string) (p : Priority) (st : State) :
  dispatched st (preload h urls p st)
  = match p with
    | high => if abortRef st h then [] else validUrls st urls
    | _ => validUrls st urls
    end.
Proof.
  unfold preload. pose proof (validUrls_fresh st urls) as Hfresh.
  destruct (validUrls st urls) as [|v valid] eqn:Hv.
  - rewrite dispatched_nothing. destruct p; try reflexivity.
    destruct (abortRef st h); reflexivity.
  - destruct p.
    + rewrite preloadAll_fresh by assumption.
      unfold dispatched, queued; simpl.
      rewrite drop_app_length.
      change ((v, KDone) :: map (λ u, (u, KDone)) valid)
        with (map (λ u, (u, KDone)) (v :: valid)).
      rewrite awaitingOf_done. simpl.
      rewrite drop_ge by (rewrite length_map; lia).
      rewrite app_nil_r. reflexivity.
    + destruct (abortRef st h) eqn:Ha.
      * rewrite highLoop_aborted by assumption. apply dispatched_nothing.
      * inversion Hfresh; subst.
        rewrite highLoop_fresh by assumption.
        unfold dispatched, queued; simpl.
        rewrite drop_app_length. simpl.
        rewrite drop_ge by (rewrite length_map; lia).
        rewrite !app_nil_r. reflexivity.
    + unfold dispatched; simpl. rewrite drop_ge by lia. simpl.
      unfold queued; simpl. apply (queued_new _ low (v :: valid)).
    + unfold dispatched. 
      assert (Hi : ∀ s, inflight (processIdleTasks s) = inflight s).
      { intros s. unfold processIdleTasks.
        destruct (isIdleLoading s); [reflexivity|]. simpl.
        destruct (hasRequestIdleCallback s); reflexivity. }
      assert (Hq : ∀ s, pendingTasks (processIdleTasks s) = pendingTasks s).
      { intros s. unfold processIdleTasks.
        destruct (isIdleLoading s); [reflexivity|]. simpl.
        destruct (hasRequestIdleCallback s); reflexivity. }
      unfold queued. simpl. rewrite Hi, Hq. simpl.
      rewrite drop_ge by lia. simpl.
      apply (queued_new _ idle (v :: valid)).
Qed.

End PreloadFacts.

Section DispatchFacts.

Import Preloader.

Lemma extends_refl (st : State) : extends st st.
Proof.
  repeat split; [exists [] | exists []]; rewrite app_nil_r; reflexivity.
Qed.

Lemma extends_trans (st1 st2 st3 : State) :
  extends st1 st2 → extends st2 st3 → extends st1 st3.
Proof.
  intros (Hl1 & Ha1 & [n1 Hn1] & [t1 Ht1]) (Hl2 & Ha2 & [n2 Hn2] & [t2 Ht2]).
  repeat split; [congruence | congruence | exists (n1 ++ n2) | exists (t1 ++ t2)].
  - rewrite Hn2, Hn1, app_assoc. reflexivity.
  - rewrite Ht2, Ht1, app_assoc. reflexivity.
Qed.

Lemma processIdleTasks_extends (st : State) : extends st (processIdleTasks st).
Proof.
  unfold processIdleTasks. destruct (isIdleLoading st); [apply extends_refl|].
  simpl. destruct (hasRequestIdleCallback st);
    (repeat split; [exists [] | exists []]; simpl; rewrite app_nil_r; reflexivity).
Qed.

Lemma preload_extends (h : Preloader.Hook) (urls : list string) (p : Priority) (st : State) :
  extends st (fst (preload h urls p st)).
Proof.
  unfold preload. pose proof (validUrls_fresh st urls) as Hfresh.
  destruct (validUrls st urls) as [|v valid]; [apply extends_refl|].
  destruct p.
  - rewrite preloadAll_fresh by assumption. simpl.
    repeat split; [eexists; reflexivity | exists []; simpl; rewrite app_nil_r; reflexivity].
  - destruct (abortRef st h) eqn:Ha.
    + rewrite highLoop_aborted by assumption. apply extends_refl.
    + inversion Hfresh; subst. rewrite highLoop_fresh by assumption. simpl.
      repeat split; [eexists; reflexivity
                    | exists []; simpl; rewrite app_nil_r; reflexivity].
  - simpl. repeat split; [exists []; simpl; rewrite app_nil_r; reflexivity
                         | eexists; reflexivity].
  - simpl. eapply extends_trans; [|apply processIdleTasks_extends].
    repeat split; [exists []; simpl; rewrite app_nil_r; reflexivity
                  | eexists; reflexivity].
Qed.

Lemma dispatched_andThen (st : State) (r : Run) (f : State → Run) (u : string) :
  extends st (fst r) → extends (fst r) (fst (f (fst r))) →
  u ∈ dispatched st (andThen r f)
  ↔ u ∈ dispatched st r ∨ u ∈ dispatched (fst r) (f (fst r)).
Proof.
  destruct r as [st1 f1]. simpl. destruct (f st1) as [st2 f2] eqn:Hf. simpl.
  intros (_ & _ & [n1 Hn1] & [t1 Ht1]) (_ & _ & [n2 Hn2] & [t2 Ht2]).
  unfold dispatched, queued; simpl.
  rewrite Hn2, Ht2, Hn1, Ht1.
  assert (Q1 : drop (length (pendingTasks st)) (map url ((pendingTasks st ++ t1) ++ t2))
               = map url t1 ++ map url t2).
  { rewrite <- app_assoc, !map_app.
    apply drop_app_length'. symmetry. apply length_map. }
  assert (Q2 : drop (length (pendingTasks st)) (map url (pendingTasks st ++ t1))
               = map url t1).
  { rewrite map_app. apply drop_app_length'. symmetry. apply length_map. }
  assert (Q3 : drop (length (pendingTasks st ++ t1)) (map url ((pendingTasks st ++ t1) ++ t2))
               = map url t2).
  { rewrite map_app. apply drop_app_length'. symmetry. apply length_map. }
  rewrite Q1, Q2, Q3.
  rewrite (drop_app_length (inflight st ++ n1)).
  rewrite <- (app_assoc (inflight st)), !drop_app_length.
  rewrite awaitingOf_app, !elem_of_app. tauto.
Qed.

Lemma fst_andThen (r : Run) (f : State → Run) :
  fst (andThen r f) = fst (f (fst r)).
Proof. destruct r as [s1 f1]. simpl. destruct (f s1). reflexivity. Qed.

Lemma snd_andThen (r : Run) (f : State → Run) :
  snd (andThen r f) = snd r ++ snd (f (fst r)).
Proof. destruct r as [s1 f1]. simpl. destruct (f s1). reflexivity. Qed.

Lemma preloadIfAny_preload (h : Preloader.Hook) (urls : list string) (p : Priority) :
  preloadIfAny h urls p = preload h urls p.
Proof. destruct urls; reflexivity. Qed.

Lemma elem_of_slice {A : Type} (l : list A) (a b : Z) (x : A) :
  x ∈ Js.slice l a b → x ∈ l.
Proof.
  unfold Js.slice. intros H.
  apply (subseteq_drop (Z.to_nat (Js.relative_index (Z.of_nat (length l)) a)) l).
  eapply subseteq_take, H.
Qed.

Lemma elem_of_allTiers_truthy (l : list (option string)) (c n : Z) (u : string) :
  u ∈ allTiers (viewerTiers l c n) → Some u ∈ l ∧ u ≠ EmptyString.
Proof.
  unfold allTiers, viewerTiers; simpl. rewrite !elem_of_app.
  intros H. apply elem_of_filter_truthy.
  destruct H as [H|[H|[H|H]]]; eapply elem_of_slice, H.
Qed.

(** [preloadForViewer] of a mounted hook dispatches the members of its four
    tiers that are not cached. *)
Lemma preloadForViewer_dispatched (h : Preloader.Hook)
      (l : list (option string)) (c n : Z) (st : State) (u : string) :
  abortRef st h = false →
  u ∈ dispatched st (preloadForViewer h l c n st)
  ↔ u ∈ allTiers (viewerTiers l c n) ∧ u ∉ loadedImages st.
Proof.
  intros Ha. unfold preloadForViewer.
  destruct (Js.filter_truthy l) as [|x v] eqn:Hv.
  - rewrite dispatched_nothing. split; [intros H; inversion H|].
    intros [H _]. apply elem_of_allTiers_truthy in H as [H ?].
    assert (Hin : u ∈ Js.filter_truthy l) by (apply elem_of_filter_truthy; tauto).
    rewrite Hv in Hin. exact Hin.
  - set (t := viewerTiers l c n). rewrite !preloadIfAny_preload.
    set (r1 := preload h (criticalUrls t) critical st).
    set (r2 := andThen r1 (preload h (highUrls t) high)).
    set (r3 := andThen r2 (preload h (lowUrls t) low)).
    assert (E1 : extends st (fst r1)) by apply preload_extends.
    assert (E12 : extends (fst r1) (fst (preload h (highUrls t) high (fst r1))))
      by apply preload_extends.
    assert (F2 : fst r2 = fst (preload h (highUrls t) high (fst r1))).
    { apply fst_andThen. }
    assert (E2 : extends st (fst r2)).
    { rewrite F2. eapply extends_trans; eassumption. }
    assert (E23 : extends (fst r2) (fst (preload h (lowUrls t) low (fst r2))))
      by apply preload_extends.
    assert (F3 : fst r3 = fst (preload h (lowUrls t) low (fst r2))).
    { apply fst_andThen. }
    assert (E3 : extends st (fst r3)).
    { rewrite F3. eapply extends_trans; eassumption. }
    assert (E34 : extends (fst r3) (fst (preload h (idleUrls t) idle (fst r3))))
      by apply preload_extends.
    rewrite dispatched_andThen by assumption.
    unfold r3 at 1. rewrite dispatched_andThen by assumption.
    unfold r2 at 1. rewrite dispatched_andThen by assumption.
    unfold r1 at 1.
    rewrite !preload_dispatched.
    destruct E1 as (L1 & A1 & _), E2 as (L2 & A2 & _), E3 as (L3 & A3 & _).
    assert (Ha1 : abortRef (fst r1) h = false) by (unfold abortRef; rewrite A1; exact Ha).
    rewrite Ha1.
    rewrite !elem_of_validUrls, L1, L2, L3.
    unfold allTiers. rewrite !elem_of_app.
    split.
    + tauto.
    + intros [Hin Hnl].
      assert (u ≠ EmptyString).
      { eapply elem_of_allTiers_truthy. unfold allTiers. rewrite !elem_of_app. exact Hin. }
      tauto.
Qed.

End DispatchFacts.

(** ** The cache along the steps *)

Section CacheFacts.

Import Preloader.

Lemma cacheNeutral_ret (st : State) : cacheNeutral st (st, []).
Proof. split; [reflexivity | intros u H; inversion H]. Qed.

Lemma cacheNeutral_andThen (st : State) (r : Run) (f : State → Run) :
  cacheNeutral st r → cacheNeutral (fst r) (f (fst r)) →
  cacheNeutral st (andThen r f).
Proof.
  intros [L1 F1] [L2 F2]. split.
  - rewrite fst_andThen. congruence.
  - intros u. rewrite snd_andThen, elem_of_app. intros [H|H].
    + apply F1, H.
    + rewrite <- L1. apply F2, H.
Qed.

Lemma cacheNeutral_preloadImage (k : Cont) (u : string) (st : State) :
  cacheNeutral st (preloadImage k u st).
Proof.
  unfold preloadImage. destruct (decide _) as [|Hn]; [apply cacheNeutral_ret|].
  split; [reflexivity|]. simpl. intros v Hv.
  apply list_elem_of_singleton in Hv. subst. exact Hn.
Qed.

Lemma cacheNeutral_preloadAll (urls : list string) (st : State) :
  cacheNeutral st (preloadAll urls st).
Proof.
  revert st. induction urls as [|u rest IH]; intros st; simpl.
  - apply cacheNeutral_ret.
  - apply cacheNeutral_andThen; [apply cacheNeutral_preloadImage | apply IH].
Qed.

Lemma cacheNeutral_highLoop (h : Preloader.Hook) (urls : list string) (st : State) :
  cacheNeutral st (highLoop h urls st).
Proof.
  induction urls as [|u rest IH]; simpl; [apply cacheNeutral_ret|].
  destruct (abortRef st h); [apply cacheNeutral_ret|].
  destruct (decide _); [exact IH | apply cacheNeutral_preloadImage].
Qed.

Lemma cacheNeutral_runTask (st : State) : cacheNeutral st (runTask st).
Proof.
  unfold runTask. destruct (pendingTasks st) as [|t q]; [apply cacheNeutral_ret|].
  destruct (status t); try (split; [reflexivity | intros u H; inversion H]).
  apply (cacheNeutral_preloadImage KDone (url t) (set_pending (λ _, q) st)).
Qed.

Lemma cacheNeutral_idleLoop (budget : nat) (st : State) :
  cacheNeutral st (idleLoop budget st).
Proof.
  revert st. induction budget as [|b IH]; intros st; simpl; [apply cacheNeutral_ret|].
  destruct (pendingTasks st) eqn:Hq; [apply cacheNeutral_ret|].
  apply cacheNeutral_andThen; [apply cacheNeutral_runTask | apply IH].
Qed.

Lemma cacheNeutral_reschedule (cb : Callback) (st : State) :
  cacheNeutral st
    match pendingTasks st with
    | [] => (set_idle false st, [])
    | _ :: _ => (set_timers (λ l, l ++ [cb]) st, [])
    end.
Proof.
  destruct (pendingTasks st); (split; [reflexivity | intros u H; inversion H]).
Qed.

Lemma cacheNeutral_idleCallback (budget : nat) (st : State) :
  cacheNeutral st (idleCallback budget st).
Proof.
  unfold idleCallback.
  apply cacheNeutral_andThen; [apply cacheNeutral_idleLoop | apply cacheNeutral_reschedule].
Qed.

Lemma cacheNeutral_fallbackProcess (st : State) :
  cacheNeutral st (fallbackProcess st).
Proof.
  unfold fallbackProcess.
  apply cacheNeutral_andThen; [apply cacheNeutral_runTask | apply cacheNeutral_reschedule].
Qed.

Lemma processIdleTasks_loaded (st : State) :
  loadedImages (processIdleTasks st) = loadedImages st.
Proof. apply processIdleTasks_extends. Qed.

Lemma cacheNeutral_preload (h : Preloader.Hook) (urls : list string) (p : Priority) (st : State) :
  cacheNeutral st (preload h urls p st).
Proof.
  unfold preload. destruct (validUrls st urls) as [|v valid]; [apply cacheNeutral_ret|].
  destruct p.
  - apply cacheNeutral_preloadAll.
  - apply cacheNeutral_highLoop.
  - split; [reflexivity | intros u H; inversion H].
  - split; [simpl; rewrite processIdleTasks_loaded; reflexivity
           | intros u H; inversion H].
Qed.

Lemma cacheNeutral_preloadForViewer (h : Preloader.Hook)
      (l : list (option string)) (c n : Z) (st : State) :
  cacheNeutral st (preloadForViewer h l c n st).
Proof.
  unfold preloadForViewer. destruct (Js.filter_truthy l); [apply cacheNeutral_ret|].
  rewrite !preloadIfAny_preload.
  repeat (apply cacheNeutral_andThen); apply cacheNeutral_preload.
Qed.

Lemma cacheNeutral_fire (i budget : nat) (st : State) :
  cacheNeutral st (fire i budget st).
Proof.
  unfold fire. destruct (timers st !! i) as [cb|]; [|apply cacheNeutral_ret].
  set (st1 := set_timers _ st).
  assert (T : ∀ r, cacheNeutral st1 r → cacheNeutral st r) by (intros r H; exact H).
  apply T. destruct cb.
  - split; [apply processIdleTasks_loaded | intros u H; inversion H].
  - apply cacheNeutral_idleCallback.
  - apply cacheNeutral_fallbackProcess.
Qed.

(** An [onerror] leaves the cache as it was, also when it resumes a
    high-tier loop. *)
Lemma cacheNeutral_settle_error (i : nat) (st : State) :
  cacheNeutral st (settle i false st).
Proof.
  unfold settle. destruct (inflight st !! i) as [[u k]|]; [|apply cacheNeutral_ret].
  destruct k; [split; [reflexivity | intros v H; inversion H]|].
  set (st1 := set_inflight _ st).
  assert (T : ∀ r, cacheNeutral st1 r → cacheNeutral st r) by (intros r H; exact H).
  apply T, cacheNeutral_highLoop.
Qed.

(** An [onload] adds the URL of the image, and nothing else. *)
Lemma settle_load_cache (i : nat) (st : State) (u : string) (k : Cont) :
  inflight st !! i = Some (u, k) →
  loadedImages (fst (settle i true st)) = {[u]} ∪ loadedImages st
  ∧ ∀ v, v ∈ snd (settle i true st) → v ∉ loadedImages (fst (settle i true st)).
Proof.
  intros Hi. unfold settle. rewrite Hi.
  destruct k; [split; [reflexivity | intros v H; inversion H]|].
  set (st2 := set_loaded _ _).
  destruct (cacheNeutral_highLoop h rest st2) as [L F].
  split; [rewrite L; reflexivity | intros v Hv; rewrite L; apply F, Hv].
Qed.

(** No step ever starts a fetch for a URL that is in the cache. *)
Lemma step_fetches_uncached (ev : Event) (st : State) (u : string) :
  u ∈ snd (step ev st) → u ∉ loadedImages (fst (step ev st)).
Proof.
  assert (N : ∀ r, cacheNeutral st r → u ∈ snd r → u ∉ loadedImages (fst r)).
  { intros r [L F] H. rewrite L. apply F, H. }
  destruct ev as [h' urls p|h' l c n|i ok|i budget|h']; simpl.
  - apply N, cacheNeutral_preload.
  - apply N, cacheNeutral_preloadForViewer.
  - destruct ok; [|apply N, cacheNeutral_settle_error].
    destruct (inflight st !! i) as [[v k]|] eqn:Hi.
    + apply (settle_load_cache i st v k Hi).
    + unfold settle. rewrite Hi. intros H. inversion H.
  - apply N, cacheNeutral_fire.
  - intros H. inversion H.
Qed.

(** Only an [onload] changes the cache. *)
Lemma step_cache (ev : Event) (st : State) :
  loadedImages (fst (step ev st)) = loadedImages st
  ∨ ∃ i u k, ev = EvSettle i true ∧ inflight st !! i = Some (u, k)
             ∧ loadedImages (fst (step ev st)) = {[u]} ∪ loadedImages st.
Proof.
  destruct ev as [h' urls p|h' l c n|i ok|i budget|h']; simpl.
  - left. apply cacheNeutral_preload.
  - left. apply cacheNeutral_preloadForViewer.
  - destruct ok; [|left; apply cacheNeutral_settle_error].
    destruct (inflight st !! i) as [[v k]|] eqn:Hi.
    + right. exists i, v, k. repeat split; [assumption|].
      apply (settle_load_cache i st v k Hi).
    + left. unfold settle. rewrite Hi. reflexivity.
  - left. apply cacheNeutral_fire.
  - left. reflexivity.
Qed.

End CacheFacts.

(** ** Filtering in [preload] *)

Section RetryFacts.

Import Preloader.

Lemma preload_low_queue (h : Preloader.Hook) (u : string) (st : State) :
  u ≠ EmptyString → u ∉ loadedImages st →
  queued (fst (preload h [u] low st)) = queued st ++ [u]
  ∧ loadedImages (fst (preload h [u] low st)) = loadedImages st.
Proof.
  intros Hne Hnl. unfold preload, validUrls. simpl.
  apply truthy_string_spec in Hne. rewrite Hne.
  rewrite bool_decide_eq_false_2 by assumption. simpl.
  unfold queued; simpl. rewrite map_app. split; reflexivity.
Qed.

Lemma preload_critical_fetches (h : Preloader.Hook) (urls : list string) (st : State) :
  snd (preload h urls critical st) = validUrls st urls.
Proof.
  unfold preload. pose proof (validUrls_fresh st urls) as Hfresh.
  destruct (validUrls st urls) as [|v valid]; [reflexivity|].
  rewrite preloadAll_fresh by assumption. reflexivity.
Qed.

(** A pending task taken from the queue is fetched unless its URL got
    cached in the meantime. *)
Lemma runTask_fetches (u : string) (p : Priority) (q : list PreloadTask) (st : State) :
  pendingTasks st = mkTask u p pending :: q →
  u ∉ loadedImages st →
  snd (runTask st) = [u].
Proof.
  intros Hq Hnl. unfold runTask. rewrite Hq. simpl.
  rewrite preloadImage_fresh by assumption. reflexivity.
Qed.

(** A high-tier loop that runs on a mounted hook fetches a URL of its list
    that is not cached, or keeps it for later. *)
Lemma highLoop_reaches (h : Preloader.Hook) (u : string) (urls : list string) (st : State) :
  abortRef st h = false → u ∈ urls → u ∉ loadedImages st →
  u ∈ dispatched st (highLoop h urls st).
Proof.
  intros Ha Hin Hnl. induction urls as [|v rest IH]; [inversion Hin|].
  simpl. rewrite Ha.
  destruct (decide (v ∈ loadedImages st)) as [Hv|Hv].
  - apply IH. apply elem_of_cons in Hin as [->|Hin]; [contradiction | assumption].
  - rewrite preloadImage_fresh by assumption.
    unfold dispatched, queued; simpl.
    rewrite drop_app_length. simpl.
    rewrite drop_ge by (rewrite length_map; lia).
    rewrite !app_nil_r. exact Hin.
Qed.

Lemma highLoop_abort (h : Preloader.Hook) (urls : list string) (st : State) :
  aborted (fst (highLoop h urls st)) = aborted st.
Proof.
  induction urls as [|v rest IH]; simpl; [reflexivity|].
  destruct (abortRef st h) eqn:Ha; [reflexivity|].
  destruct (decide _); [exact IH|].
  unfold preloadImage. destruct (decide _); reflexivity.
Qed.

Lemma settle_abort (i : nat) (ok : bool) (st : State) :
  aborted (fst (settle i ok st)) = aborted st.
Proof.
  unfold settle. destruct (inflight st !! i) as [[u k]|]; [|reflexivity].
  destruct k; [destruct ok; reflexivity|].
  rewrite highLoop_abort. destruct ok; reflexivity.
Qed.

(** A URL whose fetches all fail never enters the cache. *)
Lemma run_failed_never_cached (u : string) (evs : list Event) (st : State) :
  u ∉ loadedImages st → neverLoads u evs st →
  u ∉ loadedImages (fst (run evs st)).
Proof.
  revert st. induction evs as [|ev rest IH]; intros st Hnl Hev; simpl; [exact Hnl|].
  rewrite fst_andThen. destruct Hev as [Hev Hrest]. apply IH; [|exact Hrest].
  destruct (step_cache ev st) as [L|(i & v & k & -> & Hi & L)]; rewrite L; [exact Hnl|].
  intros Hin. apply elem_of_union in Hin as [Hin|Hin]; [|contradiction].
  apply elem_of_singleton in Hin. subst v. exact (Hev k Hi).
Qed.

End RetryFacts.

(** C2, as amended.  [preload] dispatches (fetches, keeps for its
    sequential loop, or enqueues) only URLs of its argument that are
    non-empty and not in the loaded-URL cache, and no step of the preloader
    ever starts a fetch for a cached URL.  The pending queue is not
    consulted: two successive [preload([u], 'low')] calls with the same
    not-yet-loaded URL enqueue it twice. *)
Theorem preload_skips_loaded :
  (∀ h urls p st u,
      u ∈ Preloader.dispatched st (Preloader.preload h urls p st) →
      u ∈ urls ∧ u ≠ EmptyString ∧ u ∉ Preloader.loadedImages st)
  ∧ (∀ ev st u,
        u ∈ snd (Preloader.step ev st) →
        u ∉ Preloader.loadedImages (fst (Preloader.step ev st)))
  ∧ (∀ h u st,
        u ≠ EmptyString → u ∉ Preloader.loadedImages st →
        Preloader.queued
          (fst (Preloader.preload h [u] Preloader.low
                  (fst (Preloader.preload h [u] Preloader.low st))))
        = Preloader.queued st ++ [u; u]).
Proof.
  split; [|split].
  - intros h urls p st u. rewrite preload_dispatched.
    destruct p; try apply elem_of_validUrls.
    destruct (Preloader.abortRef st h); [intros H; inversion H | apply elem_of_validUrls].
  - apply step_fetches_uncached.
  - intros h u st Hne Hnl.
    destruct (preload_low_queue h u st Hne Hnl) as [Q1 L1].
    destruct (preload_low_queue h u (fst (Preloader.preload h [u] Preloader.low st)) Hne)
      as [Q2 _]; [rewrite L1; exact Hnl|].
    rewrite Q2, Q1, <- app_assoc. reflexivity.
Qed.

Lemma preload_skips_loaded_witness :
  Preloader.queued
    (fst (Preloader.preload 0%nat ["p7.webp"%string] Preloader.low
            (fst (Preloader.preload 0%nat ["p7.webp"%string] Preloader.low
                    (Preloader.initial true)))))
  = ["p7.webp"; "p7.webp"]%string.
Proof.
  apply (proj2 (proj2 preload_skips_loaded) 0%nat "p7.webp"%string
               (Preloader.initial true)).
  - discriminate.
  - simpl. apply not_elem_of_empty.
Defined.

(** C2 as stated fails: a URL that already waits in the queue passes the
    filter of [preload] and is enqueued again. *)
Lemma preload_enqueues_queued_url : ¬ Preloader.skipsLoadedAndQueued.
Proof.
  intros H.
  set (st1 := fst (Preloader.preload 0%nat ["p7.webp"%string] Preloader.low
                     (Preloader.initial true))).
  destruct (H 0%nat ["p7.webp"%string] Preloader.low st1 "p7.webp"%string) as [_ Hq].
  - rewrite preload_dispatched. apply elem_of_validUrls.
    repeat split; [left | discriminate | apply not_elem_of_empty].
  - apply Hq. left.
Qed.

Section ResumeFacts.

Import Preloader.

Lemma highLoop_pending (h : Preloader.Hook) (urls : list string) (st : State) :
  pendingTasks (fst (highLoop h urls st)) = pendingTasks st.
Proof.
  induction urls as [|v rest IH]; simpl; [reflexivity|].
  destruct (abortRef st h); [reflexivity|].
  destruct (decide _); [exact IH|].
  unfold preloadImage. destruct (decide _); reflexivity.
Qed.

Lemma awaitingOf_drop (n : nat) (l : list (string * Cont)) (u : string) :
  u ∈ awaitingOf (drop n l) → u ∈ awaitingOf l.
Proof.
  intros H. rewrite <- (take_drop n l), awaitingOf_app, elem_of_app. right. exact H.
Qed.

(** When the image a high-tier loop waits for settles, the loop goes on: a
    URL left in it that is still not cached is fetched now or stays in the
    loop, as long as the hook is mounted. *)
Lemma settle_resumes (h : Preloader.Hook) (i : nat) (ok : bool) (st : State)
      (v u : string) (rest : list string) :
  inflight st !! i = Some (v, KHigh h rest) →
  abortRef st h = false → u ∈ rest → u ∉ loadedImages st →
  (ok = true → u ≠ v) →
  u ∈ snd (settle i ok st) ∨ u ∈ awaitingOf (inflight (fst (settle i ok st))).
Proof.
  intros Hi Ha Hin Hnl Hok. unfold settle. rewrite Hi.
  set (st1 := set_inflight _ st).
  set (st2 := if ok then set_loaded _ st1 else st1).
  assert (Ha2 : abortRef st2 h = false) by (subst st2; destruct ok; exact Ha).
  assert (Hnl2 : u ∉ loadedImages st2).
  { subst st2. destruct ok; [|exact Hnl]. simpl.
    intros H. apply elem_of_union in H as [H|H]; [|contradiction].
    apply elem_of_singleton in H. exact (Hok eq_refl H). }
  pose proof (highLoop_reaches h u rest st2 Ha2 Hin Hnl2) as H.
  unfold dispatched in H. rewrite !elem_of_app in H.
  destruct H as [H|[H|H]].
  - left. exact H.
  - right. eapply awaitingOf_drop, H.
  - unfold queued in H. rewrite highLoop_pending in H.
    rewrite drop_ge in H by (rewrite length_map; lia). inversion H.
Qed.

End ResumeFacts.

(** ** Rounding to the nearest double *)

Section RoundFacts.

Import Double.
Local Open Scope Q_scope.

Lemma roundEven_bounds (x : Q) :
  (Qfloor x <= roundEven x <= Qfloor x + 1)%Z.
Proof.
  unfold roundEven. destruct (x - inject_Z (Qfloor x) ?= 1 # 2); [|lia|lia].
  destruct (Z.even (Qfloor x)); lia.
Qed.

Lemma roundEven_Z (z : Z) : roundEven (inject_Z z) = z.
Proof.
  unfold roundEven. rewrite Qfloor_Z.
  assert (E : inject_Z z - inject_Z z == 0) by ring.
  rewrite E. reflexivity.
Qed.

Lemma roundEven_mono (x y : Q) : x <= y → (roundEven x <= roundEven y)%Z.
Proof.
  intros H. pose proof (Qfloor_resp_le _ _ H) as Hf.
  pose proof (roundEven_bounds x). pose proof (roundEven_bounds y).
  destruct (Z.eq_dec (Qfloor x) (Qfloor y)) as [E|E]; [|lia].
  unfold roundEven. rewrite <- E.
  destruct (x - inject_Z (Qfloor x) ?= 1 # 2) eqn:Cx;
    destruct (y - inject_Z (Qfloor x) ?= 1 # 2) eqn:Cy;
    try (destruct (Z.even (Qfloor x)); lia); try lia.
  - apply Qeq_alt in Cx. rewrite <- Qlt_alt in Cy. lra.
  - rewrite <- Qgt_alt in Cx. apply Qeq_alt in Cy. lra.
  - rewrite <- Qgt_alt in Cx. rewrite <- Qlt_alt in Cy. lra.
Qed.

Lemma roundEven_le_Z (x : Q) (k : Z) : x <= inject_Z k → (roundEven x <= k)%Z.
Proof. intros H. rewrite <- (roundEven_Z k). apply roundEven_mono, H. Qed.

Lemma roundEven_ge_Z (x : Q) (k : Z) : inject_Z k <= x → (k <= roundEven x)%Z.
Proof. intros H. rewrite <- (roundEven_Z k). apply roundEven_mono, H. Qed.

Lemma pow2_pos (e : Z) : 0 < 2 ^ e.
Proof. apply Qpower_0_lt. reflexivity. Qed.

Lemma pow2_plus (a b : Z) : 2 ^ (a + b) == 2 ^ a * 2 ^ b.
Proof. apply Qpower_plus. discriminate. Qed.

Lemma pow2_le (a b : Z) : (a <= b)%Z → 2 ^ a <= 2 ^ b.
Proof. intros H. apply Qpower_le_compat_l; [exact H | discriminate]. Qed.

Lemma pow2_Z (n : Z) : (0 <= n)%Z → 2 ^ n == inject_Z (2 ^ n).
Proof. intros H. symmetry. apply (Zpower_Qpower 2 n H). Qed.

Lemma pow2_minus (a b : Z) : 2 ^ (a - b) == 2 ^ a / 2 ^ b.
Proof.
  unfold Z.sub. rewrite pow2_plus, Qpower_opp. reflexivity.
Qed.

Lemma Qnum_pos (x : Q) : 0 < x → (0 < Qnum x)%Z.
Proof. destruct x as [n d]. unfold Qlt. simpl. lia. Qed.

(** The numerator against the denominator's binade. *)
Lemma num_den_bounds (x : Q) :
  0 < x →
  x * inject_Z (2 ^ Z.log2 (Zpos (Qden x))) <= inject_Z (Qnum x)
  ∧ inject_Z (Qnum x) < x * inject_Z (2 ^ (Z.log2 (Zpos (Qden x)) + 1)).
Proof.
  intros Hx. pose proof (Qnum_pos x Hx) as Hn. destruct x as [n d].
  cbn [Qnum Qden] in *.
  destruct (Z.log2_spec (Zpos d) eq_refl) as [L U].
  replace (Z.succ (Z.log2 (Z.pos d))) with (Z.log2 (Z.pos d) + 1)%Z in U by lia.
  set (p := (2 ^ Z.log2 (Z.pos d))%Z) in *.
  set (p' := (2 ^ (Z.log2 (Z.pos d) + 1))%Z) in *.
  clearbody p p'.
  split.
  - unfold Qle, Qmult, inject_Z. cbn [Qnum Qden]. rewrite Pos.mul_1_r. nia.
  - unfold Qlt, Qmult, inject_Z. cbn [Qnum Qden]. rewrite Pos.mul_1_r. nia.
Qed.

Lemma ilog2_spec (x : Q) :
  0 < x → 2 ^ ilog2 x <= x ∧ x < 2 ^ (ilog2 x + 1).
Proof.
  intros Hx. pose proof (Qnum_pos x Hx) as Hn.
  destruct (num_den_bounds x Hx) as [Hd1 Hd2].
  destruct (Z.log2_spec (Qnum x) Hn) as [L U].
  replace (Z.succ (Z.log2 (Qnum x))) with (Z.log2 (Qnum x) + 1)%Z in U by lia.
  set (a := Z.log2 (Qnum x)) in *. set (b := Z.log2 (Zpos (Qden x))) in *.
  assert (Ha : (0 <= a)%Z) by apply Z.log2_nonneg.
  assert (Hb : (0 <= b)%Z) by apply Z.log2_nonneg.
  assert (Up : x < 2 ^ (a - b + 1)).
  { replace (a - b + 1)%Z with ((a + 1) - b)%Z by lia. rewrite pow2_minus.
    apply Qlt_shift_div_l; [apply pow2_pos|].
    rewrite (pow2_Z b), (pow2_Z (a + 1)) by lia.
    eapply Qle_lt_trans; [exact Hd1|]. rewrite <- Zlt_Qlt. exact U. }
  assert (Lo : 2 ^ (a - b - 1) < x).
  { replace (a - b - 1)%Z with (a - (b + 1))%Z by lia. rewrite pow2_minus.
    apply Qlt_shift_div_r; [apply pow2_pos|].
    rewrite (pow2_Z a), (pow2_Z (b + 1)) by lia.
    eapply Qle_lt_trans; [|exact Hd2]. rewrite <- Zle_Qle. exact L. }
  unfold ilog2. fold a b.
  destruct (Qle_bool (2 ^ (a - b)) x) eqn:E.
  - apply Qle_bool_iff in E. split; assumption.
  - split; [apply Qlt_le_weak, Lo|].
    replace (a - b - 1 + 1)%Z with (a - b)%Z by lia.
    apply Qnot_le_lt. intros H. apply Qle_bool_iff in H. congruence.
Qed.

Lemma pow2_lt_inv (a b : Z) : 2 ^ a < 2 ^ b → (a < b)%Z.
Proof.
  intros H. destruct (Z_lt_le_dec a b) as [L|L]; [exact L|].
  apply pow2_le in L. apply Qle_not_lt in L. contradiction.
Qed.

Lemma ilog2_mono (x y : Q) : 0 < x → x <= y → (ilog2 x <= ilog2 y)%Z.
Proof.
  intros Hx Hxy. assert (Hy : 0 < y) by (eapply Qlt_le_trans; eassumption).
  destruct (ilog2_spec x Hx) as [Lx _]. destruct (ilog2_spec y Hy) as [_ Uy].
  assert (H : 2 ^ ilog2 x < 2 ^ (ilog2 y + 1)).
  { eapply Qle_lt_trans; [exact Lx|]. eapply Qle_lt_trans; eassumption. }
  apply pow2_lt_inv in H. lia.
Qed.

Lemma ilog2_unique (x : Q) (k : Z) :
  0 < x → 2 ^ k <= x → x < 2 ^ (k + 1) → ilog2 x = k.
Proof.
  intros Hx L U. destruct (ilog2_spec x Hx) as [L' U'].
  assert (H1 : 2 ^ k < 2 ^ (ilog2 x + 1)) by (eapply Qle_lt_trans; eassumption).
  assert (H2 : 2 ^ ilog2 x < 2 ^ (k + 1)) by (eapply Qle_lt_trans; eassumption).
  apply pow2_lt_inv in H1, H2. lia.
Qed.

Lemma ilog2_compat (x y : Q) : 0 < x → x == y → ilog2 x = ilog2 y.
Proof.
  intros Hx E. assert (Hy : 0 < y) by (rewrite <- E; exact Hx).
  destruct (ilog2_spec y Hy) as [L U].
  apply ilog2_unique; [exact Hx | rewrite E; exact L | rewrite E; exact U].
Qed.

Lemma roundEven_compat (x y : Q) : x == y → roundEven x = roundEven y.
Proof.
  intros E. apply Z.le_antisymm; apply roundEven_mono; rewrite E; apply Qle_refl.
Qed.

Lemma ulpExp_mono (x y : Q) : 0 < x → x <= y → (ulpExp x <= ulpExp y)%Z.
Proof. intros Hx H. unfold ulpExp. pose proof (ilog2_mono x y Hx H). lia. Qed.

Lemma nearest_compat (x y : Q) : 0 < x → x == y → nearest x == nearest y.
Proof.
  intros Hx E. unfold nearest, ulpExp. rewrite (ilog2_compat x y Hx E).
  set (e := Z.max (ilog2 y - 52) (-1074)).
  rewrite (roundEven_compat (x / 2 ^ e) (y / 2 ^ e)); [reflexivity|].
  rewrite E. reflexivity.
Qed.

Lemma Qdiv_pow2_le (x y : Q) (e : Z) : x <= y → x / 2 ^ e <= y / 2 ^ e.
Proof.
  intros H. unfold Qdiv. apply Qmult_le_compat_r; [exact H|].
  apply Qlt_le_weak, Qinv_lt_0_compat, pow2_pos.
Qed.

Lemma nearest_nonneg (x : Q) : 0 < x → 0 <= nearest x.
Proof.
  intros Hx. unfold nearest. apply Qmult_le_0_compat; [|apply Qlt_le_weak, pow2_pos].
  change 0 with (inject_Z 0). rewrite <- Zle_Qle. apply roundEven_ge_Z.
  apply Qle_shift_div_l; [apply pow2_pos|]. rewrite Qmult_0_l. apply Qlt_le_weak, Hx.
Qed.

(** Rounding to 53 bits is monotone, also across binades. *)
Lemma nearest_mono (x y : Q) : 0 < x → x <= y → nearest x <= nearest y.
Proof.
  intros Hx Hxy. assert (Hy : 0 < y) by (eapply Qlt_le_trans; eassumption).
  pose proof (ulpExp_mono x y Hx Hxy) as HE.
  destruct (Z.eq_dec (ulpExp x) (ulpExp y)) as [E|E].
  - unfold nearest. rewrite E. apply Qmult_le_compat_r; [|apply Qlt_le_weak, pow2_pos].
    rewrite <- Zle_Qle. apply roundEven_mono, Qdiv_pow2_le, Hxy.
  - assert (Ey : ulpExp y = (ilog2 y - 52)%Z) by (unfold ulpExp in *; lia).
    assert (Ex : (ilog2 x - 52 <= ulpExp x)%Z) by (unfold ulpExp; lia).
    destruct (ilog2_spec x Hx) as [_ Ux]. destruct (ilog2_spec y Hy) as [Ly _].
    assert (Bx : nearest x <= 2 ^ (ulpExp x + 53)).
    { unfold nearest. rewrite Z.add_comm, pow2_plus.
      apply Qmult_le_compat_r; [|apply Qlt_le_weak, pow2_pos].
      rewrite (pow2_Z 53) by lia. rewrite <- Zle_Qle. apply roundEven_le_Z.
      apply Qle_shift_div_r; [apply pow2_pos|].
      rewrite <- (pow2_Z 53) by lia. rewrite <- pow2_plus.
      apply Qlt_le_weak. eapply Qlt_le_trans; [exact Ux|]. apply pow2_le. lia. }
    assert (By : 2 ^ (ulpExp y + 52) <= nearest y).
    { unfold nearest. rewrite Z.add_comm, pow2_plus.
      apply Qmult_le_compat_r; [|apply Qlt_le_weak, pow2_pos].
      rewrite (pow2_Z 52) by lia. rewrite <- Zle_Qle. apply roundEven_ge_Z.
      apply Qle_shift_div_l; [apply pow2_pos|].
      rewrite <- (pow2_Z 52) by lia. rewrite <- pow2_plus.
      eapply Qle_trans; [|exact Ly]. apply pow2_le. lia. }
    eapply Qle_trans; [exact Bx|]. eapply Qle_trans; [|exact By]. apply pow2_le. lia.
Qed.

(** A multiple of the unit in the last place is not changed. *)
Lemma nearest_exact (x : Q) (k : Z) :
  x == inject_Z k * 2 ^ ulpExp x → nearest x == x.
Proof.
  intros E. unfold nearest.
  assert (D : x / 2 ^ ulpExp x == inject_Z k).
  { rewrite E at 1. field. intros H. pose proof (pow2_pos (ulpExp x)) as P.
    rewrite H in P. discriminate. }
  rewrite (roundEven_compat _ _ D), roundEven_Z. symmetry. exact E.
Qed.

Lemma Qopp_pos (x : Q) : x < 0 → 0 < - x.
Proof. intros H. lra. Qed.

Lemma rnd_compat (x y : Q) : x == y → rnd x = rnd y.
Proof.
  intros E. unfold rnd. rewrite <- (Qcompare_comp x y E 0 0 (Qeq_refl 0)).
  destruct (x ?= 0) eqn:C; [reflexivity| |].
  - rewrite <- Qlt_alt in C. apply Qopp_pos in C.
    assert (E' : - x == - y) by (rewrite E; reflexivity).
    pose proof (nearest_compat _ _ C E') as N.
    rewrite (Qleb_comp _ _ (Qeq_refl (2 ^ 1024)) _ _ N).
    destruct (Qle_bool _ _); [reflexivity|]. f_equal. apply Qred_complete.
    rewrite N. reflexivity.
  - rewrite <- Qgt_alt in C.
    pose proof (nearest_compat _ _ C E) as N.
    rewrite (Qleb_comp _ _ (Qeq_refl (2 ^ 1024)) _ _ N).
    destruct (Qle_bool _ _); [reflexivity|]. f_equal. apply Qred_complete, N.
Qed.

Lemma Qle_bool_false (a b : Q) : Qle_bool a b = false → b < a.
Proof.
  intros H. apply Qnot_le_lt. intros L. apply Qle_bool_iff in L. congruence.
Qed.

(** Rounding is monotone. *)
Lemma rnd_mono (x y : Q) : x <= y → le (rnd x) (rnd y).
Proof.
  intros H. unfold rnd.
  destruct (x ?= 0) eqn:Cx; destruct (y ?= 0) eqn:Cy;
    try apply Qeq_alt in Cx; try apply Qeq_alt in Cy;
    try rewrite <- Qlt_alt in Cx; try rewrite <- Qlt_alt in Cy;
    try rewrite <- Qgt_alt in Cx; try rewrite <- Qgt_alt in Cy;
    try (exfalso; lra).
  - cbn [le]. apply Qle_refl.
  - pose proof (nearest_nonneg y Cy) as N.
    destruct (Qle_bool _ _); cbn [le]; [exact I|]. rewrite Qred_correct. exact N.
  - pose proof (nearest_nonneg (- x) (Qopp_pos x Cx)) as N.
    destruct (Qle_bool _ _); cbn [le]; [exact I|]. rewrite Qred_correct. lra.
  - assert (M : nearest (- y) <= nearest (- x)).
    { apply nearest_mono; [apply Qopp_pos, Cy | lra]. }
    destruct (Qle_bool (2 ^ 1024) (nearest (- x))) eqn:Ox; cbn [le];
      [destruct (Qle_bool (2 ^ 1024) (nearest (- y))); exact I|].
    apply Qle_bool_false in Ox.
    destruct (Qle_bool (2 ^ 1024) (nearest (- y))) eqn:Oy; cbn [le].
    + apply Qle_bool_iff in Oy. lra.
    + rewrite !Qred_correct. lra.
  - pose proof (nearest_nonneg (- x) (Qopp_pos x Cx)) as Nx.
    pose proof (nearest_nonneg y Cy) as Ny.
    destruct (Qle_bool (2 ^ 1024) (nearest (- x)));
      destruct (Qle_bool (2 ^ 1024) (nearest y)); cbn [le]; try exact I.
    rewrite !Qred_correct. lra.
  - assert (M : nearest x <= nearest y) by (apply nearest_mono; assumption).
    destruct (Qle_bool (2 ^ 1024) (nearest y)) eqn:Oy; cbn [le].
    + destruct (Qle_bool (2 ^ 1024) (nearest x)); exact I.
    + apply Qle_bool_false in Oy.
      destruct (Qle_bool (2 ^ 1024) (nearest x)) eqn:Ox; cbn [le].
      * apply Qle_bool_iff in Ox. lra.
      * rewrite !Qred_correct. exact M.
Qed.

Lemma rnd_not_NaN (x : Q) : rnd x ≠ NaN.
Proof.
  unfold rnd. destruct (x ?= 0); [discriminate| |];
    destruct (Qle_bool _ _); discriminate.
Qed.

(** Half-integers below [2^52] in size are doubles. *)
Lemma nearest_half (n : Z) :
  (0 < n < 2 ^ 53)%Z → nearest (n # 2) == n # 2.
Proof.
  intros Hn. set (x := n # 2).
  assert (Hx : 0 < x) by (unfold x, Qlt; simpl; lia).
  destruct (ilog2_spec x Hx) as [L _].
  assert (U : x < 2 ^ 52).
  { rewrite (pow2_Z 52) by lia. unfold x, Qlt, inject_Z. simpl. lia. }
  assert (Hl : (ilog2 x < 52)%Z).
  { apply pow2_lt_inv. eapply Qle_lt_trans; eassumption. }
  assert (HE : (-1074 <= ulpExp x <= -1)%Z) by (unfold ulpExp; lia).
  apply (nearest_exact x (n * 2 ^ (-1 - ulpExp x))).
  rewrite inject_Z_mult, <- (pow2_Z (-1 - ulpExp x)) by lia.
  rewrite <- Qmult_assoc, <- pow2_plus.
  replace (-1 - ulpExp x + ulpExp x)%Z with (-1)%Z by lia.
  unfold x. rewrite (Qmake_Qdiv n 2). reflexivity.
Qed.

Lemma rnd_half (n : Z) :
  (Z.abs n < 2 ^ 53)%Z → rnd (n # 2) = Fin (Qred (n # 2)).
Proof.
  intros Hn. unfold rnd.
  assert (B : 2 ^ 52 < 2 ^ 1024) by reflexivity.
  destruct ((n # 2) ?= 0) eqn:C.
  - apply Qeq_alt in C. f_equal. symmetry. apply (Qred_complete _ 0), C.
  - rewrite <- Qlt_alt in C.
    assert (Hneg : (n < 0)%Z) by (unfold Qlt in C; simpl in C; lia).
    assert (E : - (n # 2) == (- n) # 2) by reflexivity.
    assert (N : nearest (- (n # 2)) == (- n) # 2).
    { rewrite (nearest_compat _ _ (Qopp_pos _ C) E). apply nearest_half. lia. }
    assert (U : (- n) # 2 < 2 ^ 52).
    { rewrite (pow2_Z 52) by lia. unfold Qlt, inject_Z. simpl. lia. }
    rewrite (Qleb_comp _ _ (Qeq_refl (2 ^ 1024)) _ _ N).
    destruct (Qle_bool (2 ^ 1024) (- n # 2)) eqn:O.
    + apply Qle_bool_iff in O. lra.
    + f_equal. apply Qred_complete. rewrite N. unfold Qeq. simpl. lia.
  - rewrite <- Qgt_alt in C.
    assert (Hpos : (0 < n)%Z) by (unfold Qlt in C; simpl in C; lia).
    assert (N : nearest (n # 2) == n # 2) by (apply nearest_half; lia).
    assert (U : n # 2 < 2 ^ 52).
    { rewrite (pow2_Z 52) by lia. unfold Qlt, inject_Z. simpl. lia. }
    rewrite (Qleb_comp _ _ (Qeq_refl (2 ^ 1024)) _ _ N).
    destruct (Qle_bool (2 ^ 1024) (n # 2)) eqn:O.
    + apply Qle_bool_iff in O. lra.
    + f_equal. apply Qred_complete, N.
Qed.

Lemma Qred_Z (z : Z) : Qred (inject_Z z) = inject_Z z.
Proof.
  pose proof (Qred_correct (inject_Z z)) as H1.
  pose proof (gcd_Qred (inject_Z z)) as H2.
  destruct (Qred (inject_Z z)) as [a b]. unfold Qeq, inject_Z in *. simpl in *.
  assert (Ea : a = (z * Z.pos b)%Z) by lia.
  rewrite Ea, Z.gcd_comm, Z.mul_comm, Z.gcd_mul_diag_l in H2 by lia.
  injection H2 as ->. f_equal. lia.
Qed.

Lemma rnd_Z (z : Z) : (Z.abs z < 2 ^ 52)%Z → rnd (inject_Z z) = Fin (inject_Z z).
Proof.
  intros Hz. assert (E : inject_Z z == (2 * z) # 2).
  { unfold Qeq, inject_Z. simpl. lia. }
  rewrite (rnd_compat _ _ E), rnd_half by lia. f_equal.
  rewrite <- (Qred_complete _ _ E). apply Qred_Z.
Qed.

End RoundFacts.

(** ** Layout *)

Section NumOrder.

Import Double.
Local Open Scope Q_scope.

Lemma le_Fin_between (a b : Q) (x : Num) :
  le (Fin a) x → le x (Fin b) → ∃ q, x = Fin q ∧ a <= q <= b.
Proof. destruct x as [|[]|q]; simpl; try tauto. eauto. Qed.

Lemma ltb_false_le (a b : Num) : a ≠ NaN → b ≠ NaN → ltb a b = false → le b a.
Proof.
  destruct a as [|[]|x], b as [|[]|y]; simpl; try tauto; try discriminate.
  intros _ _ H. apply Qle_bool_iff. now destruct (Qle_bool y x).
Qed.

Lemma le_ltb_false (a b : Num) : le b a → ltb a b = false.
Proof.
  destruct a as [|[]|x], b as [|[]|y]; simpl; try tauto.
  intros H. apply Qle_bool_iff in H. now rewrite H.
Qed.

End NumOrder.

Section LayoutFacts.

Import Double Viewer.
Local Open Scope Q_scope.

(** An integer of at most 52 bits on each side pins the rounded value. *)
Lemma rnd_between (x : Q) (lo hi : Z) :
  (Z.abs lo < 2 ^ 52)%Z → (Z.abs hi < 2 ^ 52)%Z →
  inject_Z lo <= x → x <= inject_Z hi →
  ∃ q, rnd x = Fin q ∧ inject_Z lo <= q <= inject_Z hi.
Proof.
  intros Hlo Hhi L H.
  apply le_Fin_between.
  - rewrite <- (rnd_Z lo Hlo). now apply rnd_mono.
  - rewrite <- (rnd_Z hi Hhi). now apply rnd_mono.
Qed.

Lemma Qfloor_range (x : Q) (a b : Z) :
  inject_Z a <= x → x < inject_Z b → (a <= Qfloor x < b)%Z.
Proof.
  intros A B. split.
  - rewrite <- (Qfloor_Z a). now apply Qfloor_resp_le.
  - rewrite Zlt_Qlt. eapply Qle_lt_trans; [apply Qfloor_le|exact B].
Qed.

Lemma Qceiling_range (x : Q) (a b : Z) :
  inject_Z a < x → x <= inject_Z b → (a < Qceiling x <= b)%Z.
Proof.
  intros A B. split.
  - rewrite Zlt_Qlt. eapply Qlt_le_trans; [exact A|apply Qle_ceiling].
  - rewrite <- (Qceiling_Z b). now apply Qceiling_resp_le.
Qed.

(** The floor of a value between the two integers next to [x]. *)
Lemma Qfloor_between (x q : Q) :
  inject_Z (Qfloor x) <= q → q <= inject_Z (Qceiling x) →
  (Qfloor x <= Qfloor q <= Qceiling x)%Z.
Proof.
  intros A B. split.
  - rewrite <- (Qfloor_Z (Qfloor x)). now apply Qfloor_resp_le.
  - rewrite <- (Qfloor_Z (Qceiling x)). now apply Qfloor_resp_le.
Qed.

(** Rounding followed by [Math.floor], below 2^52. *)
Lemma floor_rnd (x : Q) :
  - inject_Z (2 ^ 51) <= x → x <= inject_Z (2 ^ 51) →
  ∃ q, rnd x = Fin q
       ∧ inject_Z (Qfloor x) <= q <= inject_Z (Qceiling x)
       ∧ (Qfloor x <= Qfloor q <= Qceiling x)%Z.
Proof.
  intros L H.
  assert (F : (- 2 ^ 51 <= Qfloor x < 2 ^ 51 + 1)%Z).
  { apply Qfloor_range.
    - now rewrite inject_Z_opp.
    - eapply Qle_lt_trans; [exact H|]. rewrite <- Zlt_Qlt. lia. }
  assert (C : (- 2 ^ 51 - 1 < Qceiling x <= 2 ^ 51)%Z).
  { apply Qceiling_range; [|exact H].
    eapply Qlt_le_trans; [|exact L]. rewrite <- inject_Z_opp, <- Zlt_Qlt. lia. }
  destruct (rnd_between x (Qfloor x) (Qceiling x)) as (q & E & B1 & B2);
    [lia|lia|apply Qfloor_le|apply Qle_ceiling|].
  exists q. split; [exact E|]. split; [now split|]. now apply Qfloor_between.
Qed.

Lemma inject_Z_minus (a b : Z) : inject_Z (a - b) == inject_Z a - inject_Z b.
Proof. unfold Qeq, Qminus, Qplus, Qopp, inject_Z. simpl. lia. Qed.

Lemma maxH_val (mode : ViewMode) (containerH : Z) :
  (0 <= containerH < 2 ^ 31)%Z →
  ∃ mh, maxH mode containerH = Fin mh
        ∧ mh == maxAvailableHeight mode containerH
        ∧ rnd mh = Fin mh.
Proof.
  intros H. unfold maxH, maxAvailableHeight, ofZ.
  rewrite rnd_Z by lia.
  destruct mode; simpl.
  - exists (inject_Z (containerH - 40)). split; [|split].
    + rewrite <- (rnd_Z (containerH - 40)) by lia. apply rnd_compat.
      rewrite inject_Z_minus. reflexivity.
    + rewrite inject_Z_minus. reflexivity.
    + apply rnd_Z. lia.
  - exists (inject_Z (containerH - 60)). split; [|split].
    + rewrite <- (rnd_Z (containerH - 60)) by lia. apply rnd_compat.
      rewrite inject_Z_minus. reflexivity.
    + rewrite inject_Z_minus. reflexivity.
    + apply rnd_Z. lia.
Qed.

Lemma maxW_val (mode : ViewMode) (containerW : Z) :
  (0 <= containerW < 2 ^ 31)%Z →
  ∃ mw, maxW mode containerW = Fin mw
        ∧ mw == maxAvailableWidth mode containerW
        ∧ rnd mw = Fin mw.
Proof.
  intros H. unfold maxW, maxAvailableWidth, ofZ.
  rewrite rnd_Z by lia.
  destruct mode; simpl.
  - exists (inject_Z (containerW - 40)). split; [|split].
    + rewrite <- (rnd_Z (containerW - 40)) by lia. apply rnd_compat.
      rewrite inject_Z_minus. reflexivity.
    + rewrite inject_Z_minus. reflexivity.
    + apply rnd_Z. lia.
  - assert (E : rnd (inject_Z containerW - 80) = Fin (inject_Z (containerW - 80))).
    { rewrite <- (rnd_Z (containerW - 80)) by lia. apply rnd_compat.
      rewrite inject_Z_minus. reflexivity. }
    rewrite E. simpl.
    assert (Q2 : inject_Z (containerW - 80) / 2 == (containerW - 80) # 2).
    { unfold Qeq, Qdiv, Qmult, Qinv, inject_Z. simpl. lia. }
    exists (Qred ((containerW - 80) # 2)). split; [|split].
    + rewrite <- rnd_half by lia. now apply rnd_compat.
    + rewrite Qred_correct, <- Q2, inject_Z_minus. reflexivity.
    + rewrite <- (rnd_half (containerW - 80)) by lia. apply rnd_compat, Qred_correct.
Qed.

Lemma rnd_le_Fin (x b : Q) : rnd b = Fin b → x <= b → le (rnd x) (Fin b).
Proof. intros E H. rewrite <- E. now apply rnd_mono. Qed.

Lemma rnd_ge_Fin (x b : Q) : rnd b = Fin b → b <= x → le (Fin b) (rnd x).
Proof. intros E H. rewrite <- E. now apply rnd_mono. Qed.

Lemma rnd_200 : rnd 200 = Fin 200.
Proof. apply (rnd_Z 200). reflexivity. Qed.

Lemma div_Fin (a r : Q) : 0 < r → div (Fin a) (Fin r) = rnd (a / r).
Proof.
  intros R. unfold div. destruct (Qeq_bool r 0) eqn:Z0; [|reflexivity].
  apply Qeq_bool_iff in Z0. lra.
Qed.

(** The two dimensions as they reach [Math.floor], by the room the box
    leaves: clamped to the minimum sheet, fitted to the height, or fitted
    to the width. *)
Lemma target_cases (mw mh r : Q) :
  rnd mw = Fin mw → rnd mh = Fin mh →
  0 < r → r <= inject_Z (2 ^ 40) →
  mw < inject_Z (2 ^ 31) → mh < inject_Z (2 ^ 31) →
  ∃ qw qh : Q,
    (let (w, h) :=
       if ltb (Fin mw) (div (Fin mh) (Fin r))
       then (Fin mw, mul (Fin mw) (Fin r))
       else (div (Fin mh) (Fin r), Fin mh) in
     (clampWidth w, clampHeight (Fin r) h)) = (Fin qw, Fin qh)
    ∧ ((¬ (200 <= mw ∧ 200 * r <= mh)
        ∧ qw == 200
        ∧ inject_Z (Qfloor (200 * r)) <= qh <= inject_Z (Qceiling (200 * r)))
       ∨ ((200 <= mw ∧ 200 * r <= mh)
          ∧ qh == mh
          ∧ inject_Z (Qfloor (mh / r)) <= qw <= inject_Z (Qceiling (mh / r))
          ∧ qw <= mw
          ∧ (mw < mh / r → qw == mw))
       ∨ ((200 <= mw ∧ 200 * r <= mh)
          ∧ mw < mh / r
          ∧ qw == mw
          ∧ inject_Z (Qfloor (mw * r)) <= qh <= inject_Z (Qceiling (mw * r))
          ∧ qh <= mh)).
Proof.
  intros Ew Eh R R40 Bw Bh.
  assert (P40 : inject_Z (2 ^ 40) == 1099511627776) by reflexivity.
  assert (P31 : inject_Z (2 ^ 31) == 2147483648) by reflexivity.
  assert (P51 : inject_Z (2 ^ 51) == 2251799813685248) by reflexivity.
  rewrite P40 in R40. rewrite P31 in Bw, Bh.
  rewrite (div_Fin mh r R).
  set (x := mh / r).
  assert (Hx : x * r == mh) by (unfold x; field; lra).
  assert (Emul : ∀ a, mul (Fin a) (Fin r) = rnd (a * r)) by reflexivity.
  destruct (floor_rnd (200 * r)) as (c & Ec & Bc & _);
    [rewrite P51; lra|rewrite P51; lra|].
  unfold clampWidth, clampHeight. rewrite !Emul, Ec.
  destruct (ltb (Fin mw) (rnd x)) eqn:E1.
  - (* the derived width overflows: width first *)
    assert (L1 : mw < x).
    { destruct (Qlt_le_dec mw x) as [|G]; [assumption|]. exfalso.
      pose proof (le_ltb_false _ _ (rnd_le_Fin x mw Ew G)). congruence. }
    assert (L2 : mw * r < mh) by (rewrite <- Hx; nra).
    assert (N : rnd (mw * r) ≠ NaN) by apply rnd_not_NaN.
    change (ltb (Fin mw) (Fin 200)) with (negb (Qle_bool 200 mw)).
    destruct (Qle_bool 200 mw) eqn:E2; cbn [negb].
    + apply Qle_bool_iff in E2.
      destruct (floor_rnd (mw * r)) as (t & Et & Bt & _);
        [rewrite P51; nra|rewrite P51; nra|].
      assert (Lc : le (Fin c) (Fin t)).
      { rewrite <- Ec, <- Et. apply rnd_mono. nra. }
      assert (Lh : le (Fin t) (Fin mh)).
      { rewrite <- Et. apply rnd_le_Fin; [exact Eh|lra]. }
      rewrite Et, (le_ltb_false _ _ Lc).
      exists mw, t. split; [reflexivity|]. right; right.
      split; [split; [exact E2|nra]|].
      split; [exact L1|]. split; [reflexivity|]. split; [exact Bt|exact Lh].
    + assert (E2' : mw < 200).
      { apply Qnot_le_lt. intros G. apply Qle_bool_iff in G. congruence. }
      assert (Lc : le (rnd (mw * r)) (Fin c)).
      { rewrite <- Ec. apply rnd_mono. nra. }
      destruct (ltb (rnd (mw * r)) (Fin c)) eqn:E3.
      * exists 200, c. split; [reflexivity|]. left.
        split; [lra|]. split; [reflexivity|exact Bc].
      * apply ltb_false_le in E3; [|exact N|discriminate].
        destruct (le_Fin_between _ _ _ E3 Lc) as (t & Et & Bt).
        rewrite Et. exists 200, t. split; [reflexivity|]. left.
        split; [lra|]. split; [reflexivity|]. lra.
  - (* height first *)
    assert (N : rnd x ≠ NaN) by apply rnd_not_NaN.
    assert (L1 : le (rnd x) (Fin mw)).
    { apply ltb_false_le; [discriminate|exact N|exact E1]. }
    destruct (ltb (rnd x) (Fin 200)) eqn:E2.
    + assert (X : x < 200).
      { destruct (Qlt_le_dec x 200) as [|G]; [assumption|]. exfalso.
        pose proof (le_ltb_false _ _ (rnd_ge_Fin x 200 rnd_200 G)). congruence. }
      assert (M : mh < 200 * r) by (rewrite <- Hx; nra).
      assert (Lc : le (Fin mh) (Fin c)).
      { rewrite <- Ec. rewrite <- Eh at 1. apply rnd_mono. lra. }
      destruct (ltb (Fin mh) (Fin c)) eqn:E3.
      * exists 200, c. split; [reflexivity|]. left.
        split; [lra|]. split; [reflexivity|exact Bc].
      * apply ltb_false_le in E3; [|discriminate|discriminate].
        simpl in Lc, E3.
        exists 200, mh. split; [reflexivity|]. left.
        split; [lra|]. split; [reflexivity|]. lra.
    + apply ltb_false_le in E2; [|exact N|discriminate].
      destruct (le_Fin_between _ _ _ E2 L1) as (t & Et & Bt).
      rewrite Et in *.
      destruct (ltb (Fin mh) (Fin c)) eqn:E3.
      * assert (M : mh < 200 * r).
        { destruct (Qlt_le_dec mh (200 * r)) as [|G]; [assumption|]. exfalso.
          assert (Lc : le (Fin c) (Fin mh)).
          { rewrite <- Ec. apply rnd_le_Fin; assumption. }
          pose proof (le_ltb_false _ _ Lc). congruence. }
        assert (X : x <= 200) by (unfold x; apply Qle_shift_div_r; lra).
        pose proof (rnd_le_Fin x 200 rnd_200 X) as T. rewrite Et in T. simpl in T.
        exists t, c. split; [reflexivity|]. left.
        split; [lra|]. split; [lra|exact Bc].
      * apply ltb_false_le in E3; [|discriminate|discriminate]. simpl in E3.
        destruct (Qlt_le_dec mh (200 * r)) as [M|M].
        -- assert (X : x <= 200) by (unfold x; apply Qle_shift_div_r; lra).
           pose proof (rnd_le_Fin x 200 rnd_200 X) as T. rewrite Et in T. simpl in T.
           assert (Lc : le (Fin mh) (Fin c)).
           { rewrite <- Ec. rewrite <- Eh at 1. apply rnd_mono. lra. }
           simpl in Lc.
           exists t, mh. split; [reflexivity|]. left.
           split; [lra|]. split; [lra|]. lra.
        -- assert (X : 200 <= x) by (unfold x; apply Qle_shift_div_l; lra).
           assert (X2 : x < 2147483648).
           { destruct (Qlt_le_dec x 2147483648) as [|G]; [assumption|]. exfalso.
             assert (T : le (Fin (inject_Z (2 ^ 31))) (rnd x)).
             { apply rnd_ge_Fin; [apply rnd_Z; reflexivity|rewrite P31; exact G]. }
             rewrite Et in T. simpl in T. rewrite P31 in T. lra. }
           destruct (floor_rnd x) as (t' & Et' & Bt' & _);
             [rewrite P51; lra|rewrite P51; lra|].
           rewrite Et in Et'. injection Et' as <-.
           exists t, mh. split; [reflexivity|]. right; left.
           split; [split; lra|]. split; [reflexivity|].
           split; [exact Bt'|]. split; [lra|].
           intros G. pose proof (rnd_ge_Fin x mw Ew (Qlt_le_weak _ _ G)) as T.
           rewrite Et in T. simpl in T. lra.
Qed.

Lemma maxAvailableHeight_Z (mode : ViewMode) (containerH : Z) :
  ∃ k, maxAvailableHeight mode containerH == inject_Z k.
Proof.
  destruct mode; [exists (containerH - 40)%Z|exists (containerH - 60)%Z];
    unfold maxAvailableHeight; rewrite inject_Z_minus; reflexivity.
Qed.

Lemma Qfloor_eq_Z (q : Q) (k : Z) : q == inject_Z k → Qfloor q = k.
Proof. intros E. rewrite E. apply Qfloor_Z. Qed.

Lemma maxAvailableWidth_lt (mode : ViewMode) (containerW : Z) :
  (0 <= containerW < 2 ^ 31)%Z → maxAvailableWidth mode containerW < inject_Z (2 ^ 31).
Proof.
  intros H.
  assert (A : inject_Z containerW < inject_Z (2 ^ 31)) by (rewrite <- Zlt_Qlt; lia).
  assert (B : 0 <= inject_Z containerW) by (change 0 with (inject_Z 0); rewrite <- Zle_Qle; lia).
  set (c := inject_Z containerW) in *. set (p := inject_Z (2 ^ 31)) in *.
  destruct mode; unfold maxAvailableWidth, Qdiv; change (/ 2) with (1 # 2); fold c; lra.
Qed.

Lemma maxAvailableHeight_lt (mode : ViewMode) (containerH : Z) :
  (0 <= containerH < 2 ^ 31)%Z → maxAvailableHeight mode containerH < inject_Z (2 ^ 31).
Proof.
  intros H.
  assert (A : inject_Z containerH < inject_Z (2 ^ 31)) by (rewrite <- Zlt_Qlt; lia).
  set (c := inject_Z containerH) in *. set (p := inject_Z (2 ^ 31)) in *.
  destruct mode; unfold maxAvailableHeight; fold c; lra.
Qed.

(** The stored dimensions, by the room the box leaves. *)
Lemma layout_cases (containerW containerH windowW : Z) (r : Q) :
  (0 <= containerW < 2 ^ 31)%Z → (0 <= containerH < 2 ^ 31)%Z →
  0 < r → r <= inject_Z (2 ^ 40) →
  let mode := modeOf windowW in
  let mW := maxAvailableWidth mode containerW in
  let mH := maxAvailableHeight mode containerH in
  ∃ w h : Z,
    layoutOf containerW containerH windowW (Fin r)
    = mkDim (Fin (inject_Z w)) (Fin (inject_Z h))
    ∧ ((¬ hasRoom mode containerW containerH r
        ∧ w = 200%Z
        ∧ (Qfloor (200 * r) <= h <= Qceiling (200 * r))%Z)
       ∨ (hasRoom mode containerW containerH r
          ∧ inject_Z h == mH
          ∧ (Qfloor (mH / r) <= w <= Qceiling (mH / r))%Z
          ∧ inject_Z w <= mW
          ∧ (mW < mH / r → w = Qfloor mW))
       ∨ (hasRoom mode containerW containerH r
          ∧ mW < mH / r
          ∧ w = Qfloor mW
          ∧ (Qfloor (mW * r) <= h <= Qceiling (mW * r))%Z
          ∧ inject_Z h <= mH)).
Proof.
  intros Hw Hh R R40 mode mW mH.
  destruct (maxW_val mode containerW Hw) as (mw & Emw & Qw & Rw).
  destruct (maxH_val mode containerH Hh) as (mh & Emh & Qh & Rh).
  fold mW in Qw. fold mH in Qh.
  assert (Bw : mw < inject_Z (2 ^ 31)).
  { rewrite Qw. now apply maxAvailableWidth_lt. }
  assert (Bh : mh < inject_Z (2 ^ 31)).
  { rewrite Qh. now apply maxAvailableHeight_lt. }
  destruct (target_cases mw mh r Rw Rh R R40 Bw Bh) as (qw & qh & E & Cs).
  exists (Qfloor qw), (Qfloor qh). split.
  - unfold layoutOf, calculateLayout, target, fit. cbv zeta. fold mode.
    rewrite Emw, Emh, E. reflexivity.
  - unfold hasRoom. fold mW mH. rewrite <- Qw, <- Qh.
    destruct (maxAvailableHeight_Z mode containerH) as (k & Ek). fold mH in Ek.
    destruct Cs as [(NR & W & H1 & H2)|[(Rm & H & (W1 & W2) & W3 & W4)|(Rm & X & W & (H1 & H2) & H3)]].
    + left. split; [exact NR|]. split.
      * apply (Qfloor_eq_Z qw 200). exact W.
      * now apply Qfloor_between.
    + right; left. split; [exact Rm|]. split; [|split; [|split]].
      * rewrite (Qfloor_eq_Z qh k); [|rewrite H, Qh; exact Ek]. rewrite Qh, Ek. reflexivity.
      * now apply Qfloor_between.
      * eapply Qle_trans; [apply Qfloor_le|exact W3].
      * intros G. rewrite (W4 G). reflexivity.
    + right; right. split; [exact Rm|]. split; [exact X|]. split; [|split].
      * rewrite W. reflexivity.
      * now apply Qfloor_between.
      * eapply Qle_trans; [apply Qfloor_le|exact H3].
Qed.

End LayoutFacts.

Section LayoutClaims.

Import Double Viewer.
Local Open Scope Q_scope.

Lemma div_not_NaN (x : Q) (b : Num) : ¬ x == 0 → b ≠ NaN → div (Fin x) b ≠ NaN.
Proof.
  intros X B. destruct b as [|s|y]; [tauto|discriminate|].
  unfold div. destruct (Qeq_bool y 0).
  - destruct (Qeq_bool x 0) eqn:E; [|discriminate].
    apply Qeq_bool_iff in E. tauto.
  - apply rnd_not_NaN.
Qed.

(** A box narrower than the minimum always ends at the minimum width. *)
Lemma clampWidth_small (mw : Q) (n h1 h2 : Num) :
  n ≠ NaN → mw < 200 →
  clampWidth (fst (if ltb (Fin mw) n then (Fin mw, h1) else (n, h2))) = Fin 200.
Proof.
  intros N M. unfold clampWidth.
  assert (S : ltb (Fin mw) (Fin 200) = true).
  { simpl. destruct (Qle_bool 200 mw) eqn:E; [|reflexivity].
    apply Qle_bool_iff in E. lra. }
  destruct (ltb (Fin mw) n) eqn:E; cbn [fst].
  - now rewrite S.
  - apply ltb_false_le in E; [|discriminate|exact N].
    destruct n as [|[]|q]; simpl in E; try tauto; try reflexivity.
    simpl. destruct (Qle_bool 200 q) eqn:E'; [|reflexivity].
    apply Qle_bool_iff in E'. lra.
Qed.

Lemma tiny_container (windowW : Z) (ratio : Num) :
  ratio ≠ NaN → width (layoutOf 100 100 windowW ratio) = Fin 200.
Proof.
  intros N. unfold layoutOf, calculateLayout, target, fit. cbv zeta.
  destruct (modeOf windowW).
  - assert (EW : maxW single 100 = Fin 60) by (vm_compute; reflexivity).
    assert (EH : maxH single 100 = Fin 60) by (vm_compute; reflexivity).
    rewrite EW, EH.
    pose proof (clampWidth_small 60 (div (Fin 60) ratio) (mul (Fin 60) ratio) (Fin 60)
                  (div_not_NaN 60 ratio ltac:(discriminate) N) ltac:(reflexivity)) as C.
    destruct (ltb (Fin 60) (div (Fin 60) ratio)); cbn [fst] in C; cbn [width baseDim];
      rewrite C; reflexivity.
  - assert (EW : maxW double 100 = Fin 10) by (vm_compute; reflexivity).
    assert (EH : maxH double 100 = Fin 40) by (vm_compute; reflexivity).
    rewrite EW, EH.
    pose proof (clampWidth_small 10 (div (Fin 40) ratio) (mul (Fin 10) ratio) (Fin 40)
                  (div_not_NaN 40 ratio ltac:(discriminate) N) ltac:(reflexivity)) as C.
    destruct (ltb (Fin 10) (div (Fin 40) ratio)); cbn [fst] in C; cbn [width baseDim];
      rewrite C; reflexivity.
Qed.



(** C4, amended.  For container sizes below 2^31 and a ratio
    [0 < r <= 2^40] the stored base dimensions are integers [w >= 200]
    and [h] whose ratio is the intrinsic one up to the two [Math.floor]s
    and the rounding of the one quotient or product that feeds them:
    [- (r + 1) < h - r * w < r + 1]. *)
Theorem layout_ratio_up_to_floor (containerW containerH windowW : Z) (r : Q) :
  (0 <= containerW < 2 ^ 31)%Z → (0 <= containerH < 2 ^ 31)%Z →
  0 < r → r <= inject_Z (2 ^ 40) →
  ∃ w h : Z,
    layoutOf containerW containerH windowW (Fin r)
    = mkDim (Fin (inject_Z w)) (Fin (inject_Z h))
    ∧ (200 <= w)%Z
    ∧ - (r + 1) < inject_Z h - r * inject_Z w
    ∧ inject_Z h - r * inject_Z w < r + 1.
Proof.
  intros Hw Hh R R40.
  destruct (layout_cases containerW containerH windowW r Hw Hh R R40)
    as (w & h & E & Cs).
  set (mode := modeOf windowW) in *.
  set (mW := maxAvailableWidth mode containerW) in *.
  set (mH := maxAvailableHeight mode containerH) in *.
  exists w, h. split; [exact E|].
  destruct Cs as [(_ & W & H1 & H2)|[((Rw & Rh) & H & (W1 & W2) & W3 & W4)|((Rw & Rh) & L & W & (H1 & H2) & H3)]].
  - subst w. split; [lia|].
    pose proof (Qfloor_le (200 * r)) as F1. pose proof (Qlt_floor (200 * r)) as F2.
    pose proof (Qle_ceiling (200 * r)) as C1. pose proof (Qceiling_lt (200 * r)) as C2.
    rewrite Zle_Qle in H1, H2.
    rewrite inject_Z_plus in F2. rewrite inject_Z_minus in C2.
    change (inject_Z 1) with 1 in *. change (inject_Z 200) with 200.
    split; lra.
  - fold mW mH in Rw, Rh.
    assert (X : mH / r * r == mH) by (field; lra).
    assert (X200 : 200 <= mH / r) by (apply Qle_shift_div_l; lra).
    set (x := mH / r) in *.
    assert (F : (200 <= Qfloor x)%Z).
    { rewrite <- (Qfloor_Z 200). now apply Qfloor_resp_le. }
    split; [lia|].
    pose proof (Qlt_floor x) as F2. pose proof (Qceiling_lt x) as C2.
    rewrite Zle_Qle in W1, W2.
    rewrite inject_Z_plus in F2. rewrite inject_Z_minus in C2.
    change (inject_Z 1) with 1 in *.
    rewrite H. split; nra.
  - fold mW mH in Rw, Rh.
    assert (F : (200 <= Qfloor mW)%Z).
    { rewrite <- (Qfloor_Z 200). now apply Qfloor_resp_le. }
    split; [lia|].
    pose proof (Qfloor_le mW) as F1. pose proof (Qlt_floor mW) as F2.
    pose proof (Qlt_floor (mW * r)) as G2. pose proof (Qceiling_lt (mW * r)) as C2.
    rewrite Zle_Qle in H1, H2.
    rewrite inject_Z_plus in F2, G2. rewrite inject_Z_minus in C2.
    change (inject_Z 1) with 1 in *.
    rewrite <- W in F1, F2.
    set (p := mW * r) in *.
    assert (P : p == mW * r) by reflexivity. clearbody p.
    split; nra.
Qed.

Lemma layout_ratio_up_to_floor_witness :
  ∃ w h : Z,
    layoutOf 370 700 800 (Fin 0.7)
    = mkDim (Fin (inject_Z w)) (Fin (inject_Z h))
    ∧ (200 <= w)%Z
    ∧ - (0.7 + 1) < inject_Z h - 0.7 * inject_Z w
    ∧ inject_Z h - 0.7 * inject_Z w < 0.7 + 1.
Proof.
  apply (layout_ratio_up_to_floor 370 700 800 0.7).
  - lia.
  - lia.
  - reflexivity.
  - unfold Qle. simpl. lia.
Defined.

(** The ratio is not kept exactly: on the vector of the specification no
    clamp fires, the stored sheet is 523 x 740, and 740 / 523 is not the
    ratio 1.414. *)
Lemma layout_ratio_not_exact : ¬ ratioExact 1200 800 1400 DEFAULT_RATIO.
Proof.
  unfold ratioExact.
  assert (F : fit (modeOf 1400) 1200 800 DEFAULT_RATIO
              = (Fin (4603330153065007 # 8796093022208), Fin 740))
    by (vm_compute; reflexivity).
  rewrite F. intros H.
  assert (E : eqb (div (height (layoutOf 1200 800 1400 DEFAULT_RATIO))
                       (width (layoutOf 1200 800 1400 DEFAULT_RATIO)))
                  DEFAULT_RATIO = false) by (vm_compute; reflexivity).
  rewrite H in E; [discriminate| |]; vm_compute; reflexivity.
Qed.

End LayoutClaims.

(** ** Lazy page window *)

Section WindowFacts.

Import Viewer.

Lemma pdfSheet_page (mode : ViewMode) (pageNumber pageIndex : Z) :
  pdfSheet mode pageNumber pageIndex = PdfPage (pageIndex + 1)
  ↔ shouldRenderPage mode pageNumber pageIndex = true.
Proof.
  unfold pdfSheet. destruct (shouldRenderPage mode pageNumber pageIndex).
  - split; reflexivity.
  - split; discriminate.
Qed.

(** The earlier revision of the viewer did render the symmetric window. *)
Lemma shouldRenderPage_buffer_spec (pageNumber pageIndex : Z) :
  shouldRenderPage_buffer pageNumber pageIndex = true
  ↔ withinBuffer pageNumber pageIndex.
Proof. unfold shouldRenderPage_buffer, withinBuffer. apply Z.leb_le. Qed.

End WindowFacts.

(** C5, as amended.  In raw-document mode the page at index [i] is handed
    to the rendering library exactly when [i] is among the first pages shown
    (2 in double mode, 1 in single mode) or [i <= (p - 1) + 2]; every other
    page gets the placeholder.  Pages behind the current page are never
    dropped, and the look-ahead is 2 pages. *)
Theorem render_window (mode : Viewer.ViewMode) (p i : Z) :
  (Viewer.pdfSheet mode p i = Viewer.PdfPage (i + 1)
   ↔ i < Viewer.initialPages mode ∨ i ≤ (p - 1) + 2)
  ∧ (Viewer.pdfSheet mode p i = Viewer.Placeholder (i + 1)
     ↔ ¬ (i < Viewer.initialPages mode ∨ i ≤ (p - 1) + 2)).
Proof.
  unfold Viewer.pdfSheet, Viewer.shouldRenderPage, Viewer.PRELOAD_AHEAD.
  destruct (Z.ltb_spec i (Viewer.initialPages mode)).
  - split; split; try reflexivity; try discriminate; [left; assumption | tauto].
  - destruct (Z.leb_spec i (p - 1 + 2)).
    + split; split; try reflexivity; try discriminate; [right; assumption | tauto].
    + split; split; try reflexivity; try discriminate; lia.
Qed.

(** C5 as stated fails on the current revision: on page 1 the page at
    index 3 is within 4 pages and is not rendered. *)
Lemma render_window_not_symmetric :
  ¬ Viewer.rendersExactlyBuffer Viewer.double 1 3.
Proof.
  unfold Viewer.rendersExactlyBuffer, Viewer.withinBuffer. intros [_ H].
  assert (E : Viewer.pdfSheet Viewer.double 1 3 = Viewer.PdfPage (3 + 1))
    by (apply H; vm_compute; discriminate).
  vm_compute in E. discriminate.
Qed.

(** On page 10 the page at index 0 is more than 4 pages behind and is
    still rendered. *)
Lemma render_window_keeps_first_pages :
  ¬ Viewer.rendersExactlyBuffer Viewer.single 10 0.
Proof.
  unfold Viewer.rendersExactlyBuffer, Viewer.withinBuffer. intros [H _].
  assert (E : Z.abs (0 - (10 - 1)) ≤ Viewer.RENDER_BUFFER) by (apply H; reflexivity).
  vm_compute in E. apply E. reflexivity.
Qed.

(** ** Double tap *)

Section GestureFacts.

Import Viewer.

Lemma tap_first (now : Z) (b : bool) (g : Gesture) :
  DOUBLE_TAP_DELAY ≤ now - lastTapRef g →
  tap now b g = mkGesture now b (scale g).
Proof.
  intros H. unfold tap. destruct (Z.ltb_spec (now - lastTapRef g) DOUBLE_TAP_DELAY);
    [lia | reflexivity].
Qed.

Lemma tap_second (now : Z) (b : bool) (g : Gesture) :
  now - lastTapRef g < DOUBLE_TAP_DELAY →
  tap now b g = mkGesture 0 b (toggleScale (scale g)).
Proof.
  intros H. unfold tap. destruct (Z.ltb_spec (now - lastTapRef g) DOUBLE_TAP_DELAY);
    [reflexivity | lia].
Qed.

(** A tap looks at the last tap time and at the scale only. *)
Lemma tap_ext (now : Z) (b : bool) (g g' : Gesture) :
  lastTapRef g = lastTapRef g' → scale g = scale g' →
  tap now b g = tap now b g'.
Proof. intros Hl Hs. unfold tap. rewrite Hl, Hs. reflexivity. Qed.

End GestureFacts.

(** C7.  With time stamps as [Date.now()] gives them (not below 300, not
    decreasing): two [handleClick] calls, or two [handleTouchEnd] calls,
    less than 300 ms apart toggle the zoom once, 1.0 becoming 1.4 and 1.4
    becoming 1.0; started at rest (no tap in the last 300 ms), two calls
    300 ms or more apart (301 in particular) leave it unchanged.  The click
    that follows a touch is swallowed, so a double tap on a touch screen,
    with its two synthesized clicks, toggles exactly once. *)
Theorem double_tap_toggles (g : Viewer.Gesture) (t1 t2 : Z) :
  Viewer.DOUBLE_TAP_DELAY ≤ t1 →
  t1 ≤ t2 →
  (Viewer.toggleScale 1 = 1.4%Q ∧ Viewer.toggleScale 1.4 = 1%Q)
  ∧ (t2 - t1 < 300 →
     (Viewer.isTouchRef g = false →
      Viewer.scale (Viewer.handleClick t2 (Viewer.handleClick t1 g))
      = Viewer.toggleScale (Viewer.scale g))
     ∧ Viewer.scale (Viewer.handleTouchEnd t2 (Viewer.handleTouchEnd t1 g))
       = Viewer.toggleScale (Viewer.scale g)
     ∧ ∀ c1 c2,
         Viewer.scale
           (Viewer.handleClick c2 (Viewer.handleTouchEnd t2
              (Viewer.handleClick c1 (Viewer.handleTouchEnd t1 g))))
         = Viewer.toggleScale (Viewer.scale g))
  ∧ (300 ≤ t2 - t1 →
     Viewer.DOUBLE_TAP_DELAY ≤ t1 - Viewer.lastTapRef g →
     (Viewer.isTouchRef g = false →
      Viewer.scale (Viewer.handleClick t2 (Viewer.handleClick t1 g))
      = Viewer.scale g)
     ∧ Viewer.scale (Viewer.handleTouchEnd t2 (Viewer.handleTouchEnd t1 g))
       = Viewer.scale g)
  ∧ (∀ c, Viewer.handleClick c (Viewer.handleTouchEnd t1 g)
          = Viewer.mkGesture (Viewer.lastTapRef (Viewer.handleTouchEnd t1 g)) false
                             (Viewer.scale (Viewer.handleTouchEnd t1 g))).
Proof.
  intros H1 H12. unfold Viewer.DOUBLE_TAP_DELAY in *.
  assert (T : ∀ b b',
             t2 - t1 < 300 →
             Viewer.scale (Viewer.tap t2 b' (Viewer.tap t1 b g))
             = Viewer.toggleScale (Viewer.scale g)).
  { intros b b' Hlt.
    destruct (Z.lt_ge_cases (t1 - Viewer.lastTapRef g) 300) as [Hs|Hf].
    - rewrite (tap_second t1 b g) by exact Hs.
      rewrite tap_first by (simpl; unfold Viewer.DOUBLE_TAP_DELAY; lia). reflexivity.
    - rewrite (tap_first t1 b g) by exact Hf.
      rewrite tap_second by (simpl; unfold Viewer.DOUBLE_TAP_DELAY; lia). reflexivity. }
  assert (U : ∀ b b',
             300 ≤ t2 - t1 → 300 ≤ t1 - Viewer.lastTapRef g →
             Viewer.scale (Viewer.tap t2 b' (Viewer.tap t1 b g)) = Viewer.scale g).
  { intros b b' Hge Hrest. rewrite (tap_first t1 b g) by exact Hrest.
    rewrite tap_first by (simpl; unfold Viewer.DOUBLE_TAP_DELAY; lia). reflexivity. }
  assert (S : ∀ c g', Viewer.isTouchRef g' = true →
                      Viewer.handleClick c g'
                      = Viewer.mkGesture (Viewer.lastTapRef g') false (Viewer.scale g')).
  { intros c g' Hg. unfold Viewer.handleClick. rewrite Hg. reflexivity. }
  assert (I : ∀ t g', Viewer.isTouchRef (Viewer.handleTouchEnd t g') = true).
  { intros t g'. unfold Viewer.handleTouchEnd, Viewer.tap.
    destruct (_ <? _); reflexivity. }
  split; [split; reflexivity|]. split; [|split].
  - intros Hlt. split; [|split].
    + intros Hm. unfold Viewer.handleClick at 2. rewrite Hm.
      unfold Viewer.handleClick.
      replace (Viewer.isTouchRef (Viewer.tap t1 false g)) with false
        by (unfold Viewer.tap; destruct (_ <? _); reflexivity).
      apply T, Hlt.
    + apply T, Hlt.
    + intros c1 c2. rewrite (S c2) by apply I. cbn [Viewer.scale].
      rewrite (S c1) by apply I.
      unfold Viewer.handleTouchEnd.
      rewrite (tap_ext t2 true _ (Viewer.tap t1 true g)) by reflexivity.
      apply T, Hlt.
  - intros Hge Hrest. split.
    + intros Hm. unfold Viewer.handleClick at 2. rewrite Hm.
      unfold Viewer.handleClick.
      replace (Viewer.isTouchRef (Viewer.tap t1 false g)) with false
        by (unfold Viewer.tap; destruct (_ <? _); reflexivity).
      apply U; assumption.
    + apply U; assumption.
  - intros c. apply S, I.
Qed.

Lemma double_tap_toggles_witness :
  Viewer.scale (Viewer.handleClick 1700000000200
                  (Viewer.handleClick 1700000000000 Viewer.initialGesture))
  = 1.4%Q
  ∧ Viewer.scale (Viewer.handleClick 1700000000301
                    (Viewer.handleClick 1700000000000 Viewer.initialGesture))
    = 1%Q.
Proof.
  split.
  - destruct (double_tap_toggles Viewer.initialGesture 1700000000000 1700000000200)
      as (_ & H & _); [vm_compute; discriminate | vm_compute; discriminate |].
    destruct H as (H & _); [reflexivity|]. apply H. reflexivity.
  - destruct (double_tap_toggles Viewer.initialGesture 1700000000000 1700000000301)
      as (_ & _ & H & _); [vm_compute; discriminate | vm_compute; discriminate |].
    destruct H as (H & _); [vm_compute; discriminate | vm_compute; discriminate |].
    apply H. reflexivity.
Defined.

(** ** Sound player *)

Section SoundFacts.

Import Sound.

(** With more than one clip the loop only leaves with an index other than
    the last one. *)
Lemma pickIndex_differs (draws rest : list Q) (len last i : Z) :
  1 < len → pickIndex draws len last = Some (i, rest) → i ≠ last.
Proof.
  intros Hlen. induction draws as [|r draws IH]; cbn [pickIndex]; [discriminate|].
  destruct (Z.eqb_spec (Qfloor (r * inject_Z len)) last) as [E|E]; cbn [andb].
  - destruct (Z.ltb_spec 1 len); [exact IH | lia].
  - intros H. inversion H; subst. exact E.
Qed.

(** The loop ends as soon as a draw gives another index. *)
Lemma pickIndex_returns (draws : list Q) (len last : Z) :
  Exists (λ r, Qfloor (r * inject_Z len) ≠ last) draws →
  is_Some (pickIndex draws len last).
Proof.
  induction 1 as [r draws Hr|r draws _ IH]; cbn [pickIndex].
  - destruct (Z.eqb_spec (Qfloor (r * inject_Z len)) last); [contradiction|].
    cbn [andb]. eexists; reflexivity.
  - destruct (_ && _); [exact IH | eexists; reflexivity].
Qed.

(** A draw in [0, 1) gives an index of the pool. *)
Lemma draw_in_range (r : Q) (len : Z) :
  (0 <= r)%Q → (r < 1)%Q → 0 < len →
  0 ≤ Qfloor (r * inject_Z len) < len.
Proof.
  intros H0 H1 Hlen. split.
  - change 0 with (Qfloor (inject_Z 0)). apply Qfloor_resp_le.
    apply Qmult_le_0_compat; [exact H0|].
    change 0%Q with (inject_Z 0). rewrite <- Zle_Qle. lia.
  - apply Z.lt_nge. intros Hge.
    assert (Hq : (inject_Z len <= r * inject_Z len)%Q).
    { eapply Qle_trans; [|apply Qfloor_le]. rewrite <- Zle_Qle. exact Hge. }
    assert (Hl : (0 < inject_Z len)%Q)
      by (change 0%Q with (inject_Z 0); rewrite <- Zlt_Qlt; exact Hlen).
    assert (Hlt : (r * inject_Z len < 1 * inject_Z len)%Q)
      by (apply Qmult_lt_compat_r; assumption).
    rewrite Qmult_1_l in Hlt. exact (Qlt_not_le _ _ Hlt Hq).
Qed.

Lemma pickIndex_in_range (draws rest : list Q) (len last i : Z) :
  Forall (λ r, (0 <= r)%Q ∧ (r < 1)%Q) draws → 0 < len →
  pickIndex draws len last = Some (i, rest) → 0 ≤ i < len.
Proof.
  intros Hall Hlen.
  induction Hall as [|r draws [H0 H1] _ IH]; cbn [pickIndex]; [discriminate|].
  destruct (_ && _); [exact IH|].
  intros H. assert (i = Qfloor (r * inject_Z len)) as -> by congruence.
  apply draw_in_range; assumption.
Qed.

Lemma playClip_length (o : Options) (i : Z) (pool : list Audio) :
  length (playClip o i pool) = length pool.
Proof.
  unfold playClip. destruct (i <? 0); [reflexivity|].
  destruct (pool !! Z.to_nat i); [apply length_insert | reflexivity].
Qed.

Lemma initAudioPool_ready (hasWindow : bool) (o : Options) (st : State) :
  poolReady st → poolReady (initAudioPool hasWindow o st).
Proof.
  intros H. unfold initAudioPool. destruct (_ || _); [exact H|].
  right. simpl. rewrite length_app. simpl. lia.
Qed.

(** A call that selects a clip selects another one than the call before,
    records it, and keeps the pool ready. *)
Lemma playFlipSound_step (hasWindow : bool) (o : Options) (draws : list Q)
      (st : State) (r : Result) :
  poolReady st → playFlipSound hasWindow o draws st = Some r →
  poolReady (after r)
  ∧ match selected r with
    | Some i => i ≠ lastSoundIndex st ∧ lastSoundIndex (after r) = i
    | None => lastSoundIndex (after r) = lastSoundIndex st
    end.
Proof.
  intros Hready. unfold playFlipSound.
  destruct (enabled o); simpl.
  2:{ intros H. inversion H; subst. simpl. split; [exact Hready | reflexivity]. }
  set (st1 := if negb (loadedRef st) then initAudioPool hasWindow o st else st).
  assert (Hr1 : poolReady st1).
  { subst st1. destruct (negb _); [apply initAudioPool_ready|]; exact Hready. }
  assert (Hl1 : lastSoundIndex st1 = lastSoundIndex st).
  { subst st1. destruct (negb _); [|reflexivity].
    unfold initAudioPool. destruct (_ || _); reflexivity. }
  destruct (audioPool st1) as [|a pool] eqn:Hp.
  - intros H. inversion H; subst. simpl. split; [exact Hr1 | exact Hl1].
  - destruct (pickIndex draws _ _) as [[i rest]|] eqn:Hpick; [|discriminate].
    intros H. inversion H; subst. simpl.
    destruct Hr1 as [Hr1|Hr1]; [rewrite Hp in Hr1; discriminate|].
    rewrite Hp in Hr1.
    split; [right; simpl; rewrite playClip_length; exact Hr1|].
    split; [|reflexivity].
    rewrite <- Hl1. eapply pickIndex_differs; [|exact Hpick].
    simpl in Hr1. simpl length. lia.
Qed.

Lemma playMany_noRepeat (hasWindow : bool) (calls : list (Options * list Q))
      (st : State) :
  poolReady st →
  noRepeat (playMany hasWindow calls st)
  ∧ ∀ i rest, playMany hasWindow calls st = i :: rest → i ≠ lastSoundIndex st.
Proof.
  revert st. induction calls as [|[o draws] calls IH]; intros st Hready; simpl.
  - split; [exact I | discriminate].
  - destruct (playFlipSound hasWindow o draws st) as [r|] eqn:Hplay.
    2:{ split; [exact I | discriminate]. }
    destruct (playFlipSound_step hasWindow o draws st r Hready Hplay) as [Hr Hsel].
    destruct (IH (after r) Hr) as [Hnr Hhd].
    destruct (selected r) as [i|].
    + destruct Hsel as [Hne Hlast]. split.
      * simpl. destruct (playMany hasWindow calls (after r)) as [|j rest] eqn:Hm;
          [exact I|].
        split; [|exact Hnr].
        intros ->. apply (Hhd j rest eq_refl). symmetry. exact Hlast.
      * intros j rest H. inversion H; subst. exact Hne.
    + split; [exact Hnr|]. intros i rest H. rewrite <- Hsel. exact (Hhd i rest H).
Qed.

End SoundFacts.

(** C8.  With a pool that holds more than one clip (the pool of the three
    shipped clips is built by the first call), whatever values
    [Math.random()] returns, the clip index selected by a call differs from
    the index selected by the call before it, along every sequence of
    calls.  A call does return as soon as one of its draws gives an index
    other than the previous one. *)
Theorem flip_sound_never_repeats
        (hasWindow : bool) (calls : list (Sound.Options * list Q)) (st : Sound.State) :
  Sound.poolReady st →
  Sound.noRepeat (Sound.playMany hasWindow calls st)
  ∧ (∀ o draws,
        Exists (λ r, Qfloor (r * inject_Z (Z.of_nat (length (Sound.audioPool st))))
                     ≠ Sound.lastSoundIndex st) draws →
        Sound.loadedRef st = true →
        is_Some (Sound.playFlipSound hasWindow o draws st)).
Proof.
  intros Hready. split; [apply playMany_noRepeat, Hready|].
  intros o draws Hex Hl. unfold Sound.playFlipSound.
  destruct (negb (Sound.enabled o)); [eexists; reflexivity|].
  rewrite Hl. simpl.
  destruct (Sound.audioPool st) as [|a pool] eqn:Hp; [eexists; reflexivity|].
  destruct (pickIndex_returns draws _ _ Hex) as [[i rest] Hpick].
  rewrite Hpick. eexists; reflexivity.
Qed.

Lemma flip_sound_never_repeats_witness :
  let o := Sound.mkOptions 0.2 true in
  Sound.playMany true
    [(o, [0.1]); (o, [0.2; 0.5]); (o, [0.4; 0.6; 0.9]); (o, [0.7; 0.05])]%Q
    Sound.initial
  = [0; 1; 2; 0]
  ∧ Sound.noRepeat
      (Sound.playMany true
         [(o, [0.1]); (o, [0.2; 0.5]); (o, [0.4; 0.6; 0.9]); (o, [0.7; 0.05])]%Q
         Sound.initial).
Proof.
  intros o. split; [reflexivity|].
  apply (flip_sound_never_repeats true). left. reflexivity.
Defined.

(** ** Document store *)

Section StoreFacts.

Import Convex.

Lemma maximum_spec (l : list Z) (m : Z) :
  maximum l = Some m → m ∈ l ∧ ∀ x, x ∈ l → x ≤ m.
Proof.
  revert m. induction l as [|x r IH]; intros m; simpl; [discriminate|].
  destruct (maximum r) as [m'|] eqn:Hr.
  - intros [= <-]. destruct (IH m' eq_refl) as [Hin Hle]. split.
    + destruct (Z.max_spec x m') as [[_ ->]|[_ ->]]; [right; exact Hin | left].
    + intros y Hy. apply elem_of_cons in Hy as [->|Hy]; [lia|].
      specialize (Hle y Hy). lia.
  - intros [= <-]. destruct r; [|simpl in Hr; destruct (maximum r); discriminate].
    split; [left|]. intros y Hy. apply list_elem_of_singleton in Hy. lia.
Qed.

Lemma orZero_id (x : Z) : orZero x = x.
Proof. unfold orZero. destruct (Z.eqb_spec x 0); congruence. Qed.

Lemma fold_max_ge (docs : list Doc) (acc : Z) :
  acc ≤ fold_left (λ max d, Z.max max (orZero (order d))) docs acc
  ∧ Forall (λ d, order d ≤ fold_left (λ max d, Z.max max (orZero (order d))) docs acc) docs.
Proof.
  revert acc. induction docs as [|d docs IH]; intros acc; simpl.
  - split; [lia | constructor].
  - destruct (IH (Z.max acc (orZero (order d)))) as [Hacc Hall].
    rewrite orZero_id in *. split; [lia|]. constructor; [lia | exact Hall].
Qed.

Lemma fold_max_maximum (docs : list Doc) (acc : Z) :
  fold_left (λ max d, Z.max max (orZero (order d))) docs acc
  = match maximum (map order docs) with
    | Some m => Z.max acc m
    | None => acc
    end.
Proof.
  revert acc. induction docs as [|d docs IH]; intros acc; simpl; [reflexivity|].
  rewrite IH, orZero_id. destruct (maximum (map order docs)); lia.
Qed.

(** The key computed by [saveDocument] is above every key stored. *)
Lemma maxOrder_above (docs : list Doc) :
  0 ≤ maxOrder docs ∧ Forall (λ d, order d ≤ maxOrder docs) docs.
Proof. apply fold_max_ge. Qed.

(** With keys that are not negative it is the maximum stored key, or 0. *)
Lemma maxOrder_maximum (docs : list Doc) :
  Forall (λ d, 0 ≤ order d) docs → maxOrder docs = maximumOrderOrZero docs.
Proof.
  intros Hnn. unfold maxOrder, maximumOrderOrZero. rewrite fold_max_maximum.
  destruct (maximum (map order docs)) as [m|] eqn:Hm; [|reflexivity].
  apply maximum_spec in Hm as [Hin _].
  apply list_elem_of_In, in_map_iff in Hin as (d & <- & Hd).
  rewrite Forall_forall in Hnn. specialize (Hnn d (proj2 (list_elem_of_In _ _) Hd)). lia.
Qed.

(** *** The [by_order] index *)

Lemma elem_of_insertByOrder (d x : Doc) (l : list Doc) :
  x ∈ insertByOrder d l ↔ x = d ∨ x ∈ l.
Proof.
  induction l as [|y r IH]; simpl.
  - rewrite list_elem_of_singleton. split; [tauto|]. intros [H|H]; [exact H | inversion H].
  - destruct (order d <=? order y).
    + rewrite !elem_of_cons. tauto.
    + rewrite !elem_of_cons, IH. tauto.
Qed.

Lemma elem_of_byOrder (x : Doc) (l : list Doc) : x ∈ byOrder l ↔ x ∈ l.
Proof.
  unfold byOrder. induction l as [|d r IH]; simpl; [reflexivity|].
  rewrite elem_of_insertByOrder, IH, elem_of_cons. tauto.
Qed.

Lemma insertByOrder_snoc (x d : Doc) (l : list Doc) :
  order x ≤ order d →
  insertByOrder x (l ++ [d]) = insertByOrder x l ++ [d].
Proof.
  intros Hle. induction l as [|y r IH]; simpl.
  - destruct (Z.leb_spec (order x) (order d)); [reflexivity | lia].
  - destruct (order x <=? order y); [reflexivity|]. rewrite IH. reflexivity.
Qed.

(** A row whose key is not below any other key comes last in the index. *)
Lemma byOrder_snoc (l : list Doc) (d : Doc) :
  Forall (λ x, order x ≤ order d) l →
  byOrder (l ++ [d]) = byOrder l ++ [d].
Proof.
  unfold byOrder. induction 1 as [|x l Hx _ IH]; simpl; [reflexivity|].
  rewrite IH. apply insertByOrder_snoc, Hx.
Qed.

(** *** Order keys stay non-negative *)

Lemma patchDoc_Forall (P : Doc → Prop) (id : Id) (f : Doc → Doc)
      (l l' : list Doc) :
  (∀ d, P d → P (f d)) → Forall P l → patchDoc id f l = Some l' → Forall P l'.
Proof.
  intros Hf Hall. revert l'. induction Hall as [|d r Hd Hr IH]; intros l'; simpl;
    [discriminate|].
  destruct (Nat.eqb (_id d) id).
  - intros [= <-]. constructor; [apply Hf, Hd | assumption].
  - destruct (patchDoc id f r) as [r'|]; [|discriminate].
    intros [= <-]. constructor; [exact Hd | apply IH; reflexivity].
Qed.

Lemma patchDoc_setOrder_Forall (id : Id) (o : Z) (l l' : list Doc) :
  0 ≤ o → Forall (λ d, 0 ≤ order d) l →
  patchDoc id (setOrder o) l = Some l' → Forall (λ d, 0 ≤ order d) l'.
Proof.
  intros Ho Hall. revert l'. induction Hall as [|d r Hd Hr IH]; intros l'; simpl;
    [discriminate|].
  destruct (Nat.eqb (_id d) id).
  - intros [= <-]. constructor; [exact Ho | assumption].
  - destruct (patchDoc id (setOrder o) r) as [r'|]; [|discriminate].
    intros [= <-]. constructor; [exact Hd | apply IH; reflexivity].
Qed.

Lemma reorderFrom_Forall (ids : list Id) (index : Z) (l l' : list Doc) :
  0 ≤ index → Forall (λ d, 0 ≤ order d) l →
  reorderFrom index ids l = Some l' → Forall (λ d, 0 ≤ order d) l'.
Proof.
  revert index l. induction ids as [|id ids IH]; intros index l Hi Hall; simpl.
  - intros [= <-]. exact Hall.
  - destruct (patchDoc id (setOrder index) l) as [l1|] eqn:Hp; [|discriminate].
    apply IH; [lia|]. eapply patchDoc_setOrder_Forall; eassumption.
Qed.

(** Every mutation of [documents.ts] keeps the order keys non-negative, so
    they are non-negative in every database built by these mutations. *)
Lemma applyMutation_ordersNonneg (m : Mutation) (db : Db) :
  ordersNonneg db → ordersNonneg (applyMutation m db).
Proof.
  unfold ordersNonneg. intros H. destruct m as [t c s p today now|i t c|i|ids|i]; simpl.
  - apply Forall_app. split; [exact H|]. constructor; [|constructor]. simpl.
    pose proof (maxOrder_above (documents db)) as [? _]. lia.
  - unfold updateDocument, commit.
    destruct (patchDoc _ _ _) as [l'|] eqn:Hp; [|exact H]. simpl.
    eapply (patchDoc_Forall (λ d, 0 ≤ order d)); [|exact H|exact Hp].
    intros x Hx. exact Hx.
  - unfold toggleActive, commit. destruct (getDoc db i); [|exact H].
    destruct (patchDoc _ _ _) as [l'|] eqn:Hp; [|exact H]. simpl.
    eapply (patchDoc_Forall (λ d, 0 ≤ order d)); [|exact H|exact Hp].
    intros x Hx. exact Hx.
  - unfold reorder, commit.
    destruct (reorderFrom _ _ _) as [l'|] eqn:Hp; [|exact H]. simpl.
    eapply reorderFrom_Forall; [|exact H|exact Hp]. lia.
  - unfold deleteDocument. destruct (getDoc db i); [|exact H]. simpl.
    apply Forall_forall. intros x Hx.
    apply list_elem_of_In, filter_In in Hx as [Hx _].
    rewrite Forall_forall in H. apply H, list_elem_of_In, Hx.
Qed.

Lemma reachable_ordersNonneg (ms : list Mutation) :
  ordersNonneg (fold_left (λ db m, applyMutation m db) ms emptyDb).
Proof.
  assert (G : ∀ db, ordersNonneg db →
                    ordersNonneg (fold_left (λ db m, applyMutation m db) ms db)).
  { induction ms as [|m ms IH]; intros db H; simpl; [exact H|].
    apply IH, applyMutation_ordersNonneg, H. }
  apply G. constructor.
Qed.

End StoreFacts.

(** C9.  In a database whose order keys are not negative (every database
    built by the mutations of [documents.ts] is one), the record created by
    [saveDocument] has [active = true] and [order] equal to the maximum
    order among the documents already stored, or 0 if there is none, plus
    1.  Its key is above every stored key, so it is the last row of the
    [by_order] index and of the admin listing. *)
Theorem saveDocument_order
        (getUrl : Convex.Id → option string)
        (title : string) (categoryId storageId : Convex.Id)
        (pageImages : option (list Convex.Id)) (today : string) (now : Z)
        (db : Convex.Db) :
  Convex.ordersNonneg db →
  let r := Convex.saveDocument title categoryId storageId pageImages today now db in
  ∃ d,
    Convex.documents (fst r) = Convex.documents db ++ [d]
    ∧ Convex._id d = snd r
    ∧ Convex.active d = true
    ∧ Convex.order d = Convex.maximumOrderOrZero (Convex.documents db) + 1
    ∧ Forall (λ x, Convex.order x < Convex.order d) (Convex.documents db)
    ∧ Convex.byOrder (Convex.documents (fst r))
      = Convex.byOrder (Convex.documents db) ++ [d]
    ∧ map Convex.doc (Convex.listDocuments getUrl (fst r))
      = map Convex.doc (Convex.listDocuments getUrl db) ++ [d].
Proof.
  intros Hnn r. unfold Convex.saveDocument in r.
  set (d := Convex.mkDoc (Convex.nextId db) title categoryId today storageId
                         pageImages true
                         (Convex.maxOrder (Convex.documents db) + 1) now) in *.
  exists d. subst r. simpl.
  destruct (maxOrder_above (Convex.documents db)) as [_ Habove].
  assert (Hlt : Forall (λ x, Convex.order x < Convex.order d) (Convex.documents db)).
  { eapply Forall_impl; [exact Habove|]. simpl. intros x Hx. lia. }
  assert (Hsort : Convex.byOrder (Convex.documents db ++ [d])
                  = Convex.byOrder (Convex.documents db) ++ [d]).
  { apply byOrder_snoc. eapply Forall_impl; [exact Hlt|]. simpl. intros x Hx. lia. }
  repeat split; try reflexivity.
  - rewrite <- (maxOrder_maximum _ Hnn). reflexivity.
  - exact Hlt.
  - exact Hsort.
  - unfold Convex.listDocuments. simpl. rewrite !map_map. simpl.
    rewrite !map_id. exact Hsort.
Qed.

Lemma saveDocument_order_witness :
  let db := fold_left (λ db m, Convex.applyMutation m db)
              [Convex.SaveDocument "Quy che" 7%nat 11%nat None "2025-01-02" 1735800000000;
               Convex.SaveDocument "Bao cao" 7%nat 12%nat (Some [13; 14]%nat)
                                   "2025-01-03" 1735900000000;
               Convex.Reorder [1; 0]%nat]%string
              Convex.emptyDb in
  ∃ d,
    Convex.documents
      (fst (Convex.saveDocument "Ke hoach" 7%nat 15%nat None "2025-01-04"
                                1736000000000 db))
    = Convex.documents db ++ [d]
    ∧ Convex.active d = true
    ∧ Convex.order d = 2.
Proof.
  intros db.
  destruct (saveDocument_order (λ _, None) "Ke hoach"%string 7%nat 15%nat None
                               "2025-01-04"%string 1736000000000 db)
    as (d & Hdocs & _ & Hact & Hord & _).
  - apply reachable_ordersNonneg.
  - exists d. split; [exact Hdocs|]. split; [exact Hact|]. rewrite Hord. reflexivity.
Defined.

Section QueryFacts.

Import Convex.
Variable getUrl : Id → option string.

Lemma activeView_doc (db : Db) (d : Doc) (v : DocView) :
  activeView getUrl db d = Some v →
  doc v = d
  ∧ url v = getUrl (storageId d)
  ∧ ∃ c, getCategory db (categoryId d) = Some c ∧ cat_active c = true
         ∧ category v = name c.
Proof.
  unfold activeView. destruct (getCategory db (categoryId d)) as [c|]; [|discriminate].
  destruct (cat_active c) eqn:Hc; [|discriminate].
  intros [= <-]. simpl. repeat split. exists c. repeat split. exact Hc.
Qed.

Lemma activeView_visible (db : Db) (d : Doc) :
  active d = true →
  publiclyVisible db d = match activeView getUrl db d with Some _ => true | None => false end.
Proof.
  intros Ha. unfold publiclyVisible, activeView. rewrite Ha. simpl.
  destruct (getCategory db (categoryId d)) as [c|]; [|reflexivity].
  destruct (cat_active c); reflexivity.
Qed.

Lemma activeViews_filter (db : Db) (l : list Doc) :
  map doc (omap id (map (activeView getUrl db) (List.filter active l)))
  = List.filter (publiclyVisible db) l.
Proof.
  induction l as [|d l IH]; simpl; [reflexivity|].
  destruct (active d) eqn:Ha.
  - simpl. rewrite (activeView_visible db d Ha).
    destruct (activeView getUrl db d) as [v|] eqn:Hv; simpl.
    + apply activeView_doc in Hv as [-> _]. f_equal. exact IH.
    + exact IH.
  - unfold publiclyVisible at 1. rewrite Ha. simpl. exact IH.
Qed.

Lemma publiclyVisible_spec (db : Db) (d : Doc) :
  publiclyVisible db d = true
  ↔ active d = true
    ∧ ∃ c, getCategory db (categoryId d) = Some c ∧ cat_active c = true.
Proof.
  unfold publiclyVisible. rewrite andb_true_iff.
  destruct (getCategory db (categoryId d)) as [c|].
  - split.
    + intros [? ?]. split; [assumption|]. exists c. split; [reflexivity | assumption].
    + intros [? (c' & [= <-] & ?)]. split; assumption.
  - split; [intros [_ ?]; discriminate | intros [_ (c' & ? & _)]; discriminate].
Qed.

End QueryFacts.

(** C10.  [listActiveDocuments] returns, in [by_order] order, exactly the
    documents whose own [active] flag is true and whose category exists and
    is itself active; an active document whose category is missing or
    inactive is not in the public list.  Each entry carries the URL of the
    stored file and the name of its category. *)
Theorem listActiveDocuments_exact
        (getUrl : Convex.Id → option string) (db : Convex.Db) :
  map Convex.doc (Convex.listActiveDocuments getUrl db)
  = List.filter (Convex.publiclyVisible db) (Convex.byOrder (Convex.documents db))
  ∧ (∀ d, d ∈ map Convex.doc (Convex.listActiveDocuments getUrl db)
          ↔ d ∈ Convex.documents db
            ∧ Convex.active d = true
            ∧ ∃ c, Convex.getCategory db (Convex.categoryId d) = Some c
                   ∧ Convex.cat_active c = true)
  ∧ (∀ d, Convex.active d = true →
          match Convex.getCategory db (Convex.categoryId d) with
          | Some c => Convex.cat_active c = false
          | None => True
          end →
          d ∉ map Convex.doc (Convex.listActiveDocuments getUrl db))
  ∧ (∀ v, v ∈ Convex.listActiveDocuments getUrl db →
          Convex.url v = getUrl (Convex.storageId (Convex.doc v))
          ∧ ∃ c, Convex.getCategory db (Convex.categoryId (Convex.doc v)) = Some c
                 ∧ Convex.category v = Convex.name c).
Proof.
  assert (E : map Convex.doc (Convex.listActiveDocuments getUrl db)
              = List.filter (Convex.publiclyVisible db)
                            (Convex.byOrder (Convex.documents db)))
    by apply activeViews_filter.
  assert (M : ∀ d, d ∈ map Convex.doc (Convex.listActiveDocuments getUrl db)
                   ↔ d ∈ Convex.documents db
                     ∧ Convex.active d = true
                     ∧ ∃ c, Convex.getCategory db (Convex.categoryId d) = Some c
                            ∧ Convex.cat_active c = true).
  { intros d. rewrite E, list_elem_of_In, filter_In, <- list_elem_of_In,
      elem_of_byOrder, publiclyVisible_spec. tauto. }
  split; [exact E|]. split; [exact M|]. split.
  - intros d Ha Hc Hin. apply M in Hin as (_ & _ & c & Hg & Hca).
    rewrite Hg in Hc. congruence.
  - intros v Hv. unfold Convex.listActiveDocuments in Hv.
    apply list_elem_of_omap in Hv as (o & Ho & Hid). simpl in Hid. subst o.
    apply list_elem_of_In, in_map_iff in Ho as (d & Hd & _).
    apply activeView_doc in Hd as (-> & Hu & c & Hg & _ & Hn).
    split; [exact Hu|]. exists c. split; assumption.
Qed.

(** * Further properties *)

(** ** Preloader: what every run keeps *)

Section GrowFacts.

Import Preloader PreloaderApi.

Lemma grows_ret (st : State) :
  Forall taskOk (pendingTasks st) → grows st (st, []).
Proof.
  intros H. split; [reflexivity|]. split; [exact H|].
  exists []. simpl. rewrite app_nil_r. repeat split. constructor.
Qed.

Lemma grows_andThen (st : State) (r : Run) (f : State → Run) :
  grows st r → grows (fst r) (f (fst r)) → grows st (andThen r f).
Proof.
  intros (L1 & _ & n1 & I1 & F1 & O1) (L2 & Q2 & n2 & I2 & F2 & O2).
  split; [rewrite fst_andThen; congruence|].
  split; [rewrite fst_andThen; exact Q2|].
  exists (n1 ++ n2). rewrite fst_andThen, snd_andThen.
  split; [rewrite I2, I1, app_assoc; reflexivity|].
  split; [rewrite map_app; congruence|].
  apply Forall_app. split; assumption.
Qed.

Lemma grows_preloadImage (k : Cont) (u : string) (st : State) :
  Forall taskOk (pendingTasks st) → entryOk (u, k) →
  grows st (preloadImage k u st).
Proof.
  intros Hq Hk. unfold preloadImage. destruct (decide _); [apply grows_ret, Hq|].
  split; [reflexivity|]. split; [exact Hq|].
  exists [(u, k)]. repeat split. constructor; [exact Hk | constructor].
Qed.

Lemma grows_preloadAll (urls : list string) (st : State) :
  Forall taskOk (pendingTasks st) → Forall (λ u, u ≠ EmptyString) urls →
  grows st (preloadAll urls st).
Proof.
  intros Hq Hu. revert st Hq.
  induction Hu as [|u rest Hne _ IH]; intros st Hq; simpl; [apply grows_ret, Hq|].
  apply grows_andThen.
  - apply grows_preloadImage; [exact Hq | split; [exact Hne | exact I]].
  - apply IH.
    apply (grows_preloadImage KDone u st Hq). split; [exact Hne | exact I].
Qed.

Lemma grows_highLoop (h : Preloader.Hook) (urls : list string) (st : State) :
  Forall taskOk (pendingTasks st) → Forall (λ u, u ≠ EmptyString) urls →
  grows st (highLoop h urls st).
Proof.
  intros Hq Hu. induction Hu as [|u rest Hne Hrest IH]; simpl; [apply grows_ret, Hq|].
  destruct (abortRef st h); [apply grows_ret, Hq|].
  destruct (decide _); [exact IH|].
  apply grows_preloadImage; [exact Hq | split; [exact Hne | exact Hrest]].
Qed.

Lemma grows_runTask (st : State) :
  Forall taskOk (pendingTasks st) → grows st (runTask st).
Proof.
  intros Hq. unfold runTask.
  destruct (pendingTasks st) as [|t q] eqn:E; [apply grows_ret; rewrite E; exact Hq|].
  inversion Hq as [|? ? [Hs Hne] Hrest]; subst. rewrite Hs.
  assert (G : grows (set_pending (λ _, q) st)
                    (preloadImage KDone (url t) (set_pending (λ _, q) st))).
  { apply grows_preloadImage; [exact Hrest | split; [exact Hne | exact I]]. }
  exact G.
Qed.

Lemma grows_idleLoop (budget : nat) (st : State) :
  Forall taskOk (pendingTasks st) → grows st (idleLoop budget st).
Proof.
  revert st. induction budget as [|b IH]; intros st Hq; simpl; [apply grows_ret, Hq|].
  destruct (pendingTasks st) eqn:E; [apply grows_ret; rewrite E; exact Hq|].
  rewrite <- E in Hq.
  apply grows_andThen; [apply grows_runTask, Hq|].
  apply IH. apply (grows_runTask st Hq).
Qed.

Lemma grows_reschedule (cb : Callback) (st : State) :
  Forall taskOk (pendingTasks st) →
  grows st
    match pendingTasks st with
    | [] => (set_idle false st, [])
    | _ :: _ => (set_timers (λ l, l ++ [cb]) st, [])
    end.
Proof.
  intros Hq.
  destruct (pendingTasks st) eqn:E;
    (split; [reflexivity|]; split; [simpl; rewrite E; exact Hq|];
     exists []; simpl; rewrite app_nil_r; repeat split; constructor).
Qed.

Lemma grows_idleCallback (budget : nat) (st : State) :
  Forall taskOk (pendingTasks st) → grows st (idleCallback budget st).
Proof.
  intros Hq. unfold idleCallback. apply grows_andThen; [apply grows_idleLoop, Hq|].
  apply grows_reschedule. apply (grows_idleLoop budget st Hq).
Qed.

Lemma grows_fallbackProcess (st : State) :
  Forall taskOk (pendingTasks st) → grows st (fallbackProcess st).
Proof.
  intros Hq. unfold fallbackProcess. apply grows_andThen; [apply grows_runTask, Hq|].
  apply grows_reschedule. apply (grows_runTask st Hq).
Qed.

Lemma processIdleTasks_fields (st : State) :
  loadedImages (processIdleTasks st) = loadedImages st
  ∧ pendingTasks (processIdleTasks st) = pendingTasks st
  ∧ inflight (processIdleTasks st) = inflight st
  ∧ aborted (processIdleTasks st) = aborted st.
Proof.
  unfold processIdleTasks. destruct (isIdleLoading st); [repeat split|].
  simpl. destruct (hasRequestIdleCallback st); repeat split.
Qed.

Lemma validUrls_nonempty (st : State) (urls : list string) :
  Forall (λ u, u ≠ EmptyString) (validUrls st urls).
Proof.
  apply Forall_forall. intros u Hu. apply elem_of_validUrls in Hu. tauto.
Qed.

Lemma new_tasks_ok (p : Priority) (urls : list string) :
  Forall (λ u, u ≠ EmptyString) urls →
  Forall taskOk (map (λ u, mkTask u p pending) urls).
Proof.
  induction 1; simpl; constructor; [split; [reflexivity | assumption] | assumption].
Qed.

Lemma grows_preload (h : Preloader.Hook) (urls : list string) (p : Priority) (st : State) :
  Forall taskOk (pendingTasks st) → grows st (preload h urls p st).
Proof.
  intros Hq. unfold preload. pose proof (validUrls_nonempty st urls) as Hne.
  destruct (validUrls st urls) as [|v valid]; [apply grows_ret, Hq|].
  destruct p.
  - apply grows_preloadAll; assumption.
  - apply grows_highLoop; assumption.
  - split; [reflexivity|].
    split; [simpl; apply Forall_app; split; [exact Hq | apply (new_tasks_ok low _ Hne)]|].
    exists []. simpl. rewrite app_nil_r. repeat split. constructor.
  - set (st1 := set_pending (λ q, q ++ map (λ u, mkTask u idle pending) (v :: valid)) st).
    destruct (processIdleTasks_fields st1) as (L & Q & Fl & _).
    split; [exact L|].
    split; [cbn [fst]; rewrite Q; apply Forall_app; split;
            [exact Hq | apply (new_tasks_ok idle _ Hne)]|].
    exists []. cbn [fst snd]. rewrite Fl, app_nil_r. repeat split. constructor.
Qed.

Lemma grows_preloadForViewer (h : Preloader.Hook) (l : list (option string)) (c n : Z) (st : State) :
  Forall taskOk (pendingTasks st) → grows st (preloadForViewer h l c n st).
Proof.
  intros Hq. unfold preloadForViewer.
  destruct (Js.filter_truthy l); [apply grows_ret, Hq|].
  rewrite !preloadIfAny_preload.
  assert (G1 := grows_preload h (criticalUrls (viewerTiers l c n)) critical st Hq).
  assert (G2 := grows_andThen _ _ (preload h (highUrls (viewerTiers l c n)) high) G1
                  (grows_preload _ _ _ _ (proj1 (proj2 G1)))).
  assert (G3 := grows_andThen _ _ (preload h (lowUrls (viewerTiers l c n)) low) G2
                  (grows_preload _ _ _ _ (proj1 (proj2 G2)))).
  apply grows_andThen; [exact G3|]. apply grows_preload. apply G3.
Qed.

Lemma grows_fire (i budget : nat) (st : State) :
  Forall taskOk (pendingTasks st) → grows st (fire i budget st).
Proof.
  intros Hq. unfold fire. destruct (timers st !! i) as [cb|]; [|apply grows_ret, Hq].
  set (st1 := set_timers _ st).
  assert (T : ∀ r, grows st1 r → grows st r) by (intros r H; exact H).
  apply T. destruct cb.
  - destruct (processIdleTasks_fields st1) as (L & Q & Fl & _).
    split; [exact L|]. split; [simpl; rewrite Q; exact Hq|].
    exists []. simpl. rewrite Fl, app_nil_r. repeat split. constructor.
  - apply grows_idleCallback, Hq.
  - apply grows_fallbackProcess, Hq.
Qed.

End GrowFacts.

Section ReachFacts.

Import Preloader PreloaderApi.

Lemma entryOk_fst (news : list (string * Cont)) :
  Forall entryOk news → Forall (λ u, u ≠ EmptyString) (map fst news).
Proof. induction 1 as [|e l [He _] _ IH]; simpl; constructor; assumption. Qed.

Lemma grows_wellFormed (st : State) (r : Run) :
  Forall entryOk (inflight st) → grows st r →
  wellFormed (fst r) ∧ Forall (λ u, u ≠ EmptyString) (snd r).
Proof.
  intros Hi (_ & Hq & news & I & F & O). split; [split; [exact Hq|]|].
  - rewrite I. apply Forall_app. split; assumption.
  - rewrite <- F. apply entryOk_fst, O.
Qed.

Lemma grows_tracked (log : list string) (st : State) (r : Run) :
  tracked log st → grows st r → tracked (log ++ snd r) (fst r).
Proof.
  intros [Hl Hi] (L & _ & news & I & F & _). split.
  - intros u Hu. rewrite L in Hu. apply elem_of_app. left. apply Hl, Hu.
  - intros e He. rewrite I in He. apply elem_of_app in He as [He|He]; apply elem_of_app.
    + left. apply Hi, He.
    + right. rewrite <- F. apply list_elem_of_In, in_map, list_elem_of_In, He.
Qed.

Lemma removed_sublist {A : Type} (i : nat) (l : list A) (x : A) :
  x ∈ take i l ++ drop (S i) l → x ∈ l.
Proof.
  intros H. apply elem_of_app in H as [H|H].
  - eapply subseteq_take, H.
  - eapply subseteq_drop, H.
Qed.

Lemma Forall_removed {A : Type} (P : A → Prop) (i : nat) (l : list A) :
  Forall P l → Forall P (take i l ++ drop (S i) l).
Proof.
  intros H. apply Forall_forall. intros x Hx.
  rewrite Forall_forall in H. eapply H, removed_sublist, Hx.
Qed.

(** What [settle] does to an image that is in flight. *)
Lemma settle_found (i : nat) (ok : bool) (st : State) (u : string) (k : Cont) :
  inflight st !! i = Some (u, k) →
  settle i ok st
  = let st1 := set_inflight (λ l, take i l ++ drop (S i) l) st in
    let st2 := if ok then set_loaded (λ s, {[u]} ∪ s) st1 else st1 in
    match k with
    | KDone => (st2, [])
    | KHigh h rest => highLoop h rest st2
    end.
Proof. intros H. unfold settle. rewrite H. reflexivity. Qed.

Lemma settle_missing (i : nat) (ok : bool) (st : State) :
  inflight st !! i = None → settle i ok st = (st, []).
Proof. intros H. unfold settle. rewrite H. reflexivity. Qed.

Lemma settle_wellFormed (i : nat) (ok : bool) (st : State) :
  wellFormed st →
  wellFormed (fst (settle i ok st))
  ∧ Forall (λ u, u ≠ EmptyString) (snd (settle i ok st)).
Proof.
  intros [Hq Hi].
  destruct (inflight st !! i) as [[u k]|] eqn:E.
  2:{ rewrite settle_missing by exact E. split; [split; assumption | constructor]. }
  rewrite (settle_found i ok st u k E). cbv zeta.
  set (st1 := set_inflight _ st).
  set (st2 := if ok then set_loaded _ st1 else st1).
  assert (Hq2 : Forall taskOk (pendingTasks st2)) by (subst st2; destruct ok; exact Hq).
  assert (Hi2 : Forall entryOk (inflight st2)).
  { subst st2. destruct ok; simpl; apply Forall_removed, Hi. }
  destruct k as [|h rest]; [split; [split; assumption | constructor]|].
  apply (grows_wellFormed st2); [exact Hi2|]. apply grows_highLoop; [exact Hq2|].
  rewrite Forall_forall in Hi.
  apply (Hi (u, KHigh h rest)). eapply list_elem_of_lookup_2, E.
Qed.

Lemma step_wellFormed (ev : Event) (st : State) :
  wellFormed st →
  wellFormed (fst (step ev st))
  ∧ Forall (λ u, u ≠ EmptyString) (snd (step ev st)).
Proof.
  intros W. pose proof W as [Hq Hi].
  destruct ev as [h' urls p|h' l c n|i ok|i budget|h']; simpl.
  - apply (grows_wellFormed st); [exact Hi | apply grows_preload, Hq].
  - apply (grows_wellFormed st); [exact Hi | apply grows_preloadForViewer, Hq].
  - apply settle_wellFormed, W.
  - apply (grows_wellFormed st); [exact Hi | apply grows_fire, Hq].
  - split; [exact W | constructor].
Qed.

Lemma run_wellFormed (evs : list Event) (st : State) :
  wellFormed st →
  wellFormed (fst (run evs st))
  ∧ Forall (λ u, u ≠ EmptyString) (snd (run evs st)).
Proof.
  revert st. induction evs as [|ev rest IH]; intros st W; simpl.
  - split; [exact W | constructor].
  - destruct (step_wellFormed ev st W) as [W1 F1].
    destruct (IH _ W1) as [W2 F2].
    rewrite fst_andThen, snd_andThen. split; [exact W2|].
    apply Forall_app. split; assumption.
Qed.

Lemma settle_tracked (log : list string) (i : nat) (ok : bool) (st : State) :
  wellFormed st → tracked log st →
  tracked (log ++ snd (settle i ok st)) (fst (settle i ok st)).
Proof.
  intros [Hq Hi] [Tl Ti].
  destruct (inflight st !! i) as [[u k]|] eqn:E.
  2:{ rewrite settle_missing by exact E. simpl. rewrite app_nil_r. split; assumption. }
  rewrite (settle_found i ok st u k E). cbv zeta.
  set (st1 := set_inflight _ st).
  set (st2 := if ok then set_loaded _ st1 else st1).
  assert (Hu : u ∈ log).
  { apply (Ti (u, k)). eapply list_elem_of_lookup_2, E. }
  assert (T2 : tracked log st2).
  { split.
    - intros v Hv. subst st2. destruct ok; [|apply Tl, Hv].
      simpl in Hv. apply elem_of_union in Hv as [Hv|Hv]; [|apply Tl, Hv].
      apply elem_of_singleton in Hv. subst v. exact Hu.
    - intros e He. apply Ti. subst st2.
      destruct ok; simpl in He; eapply removed_sublist, He. }
  destruct k as [|h rest]; [simpl; rewrite app_nil_r; exact T2|].
  apply (grows_tracked log st2); [exact T2|]. apply grows_highLoop.
  - subst st2. destruct ok; exact Hq.
  - rewrite Forall_forall in Hi.
    apply (Hi (u, KHigh h rest)). eapply list_elem_of_lookup_2, E.
Qed.

Lemma step_tracked (log : list string) (ev : Event) (st : State) :
  wellFormed st → tracked log st →
  tracked (log ++ snd (step ev st)) (fst (step ev st)).
Proof.
  intros W T. pose proof W as [Hq Hi].
  destruct ev as [h' urls p|h' l c n|i ok|i budget|h']; simpl.
  - apply (grows_tracked log st); [exact T | apply grows_preload, Hq].
  - apply (grows_tracked log st); [exact T | apply grows_preloadForViewer, Hq].
  - apply settle_tracked; assumption.
  - apply (grows_tracked log st); [exact T | apply grows_fire, Hq].
  - rewrite app_nil_r. exact T.
Qed.

Lemma run_tracked (log : list string) (evs : list Event) (st : State) :
  wellFormed st → tracked log st →
  tracked (log ++ snd (run evs st)) (fst (run evs st)).
Proof.
  revert log st. induction evs as [|ev rest IH]; intros log st W T; simpl.
  - rewrite app_nil_r. exact T.
  - rewrite fst_andThen, snd_andThen, app_assoc.
    apply IH; [apply step_wellFormed, W | apply step_tracked; assumption].
Qed.

Lemma initial_wellFormed (ric : bool) : wellFormed (initial ric).
Proof. split; constructor. Qed.

End ReachFacts.

(** X1.  From the initial state, whatever is called and whatever the
    browser does, the preloader never starts a fetch for an empty URL, every
    task that waits in the queue is pending, and no URL kept for later (in
    the queue, in flight, or in a suspended high-tier loop) is empty. *)
Theorem preloader_never_fetches_empty_url (ric : bool) (evs : list Preloader.Event) :
  Forall (λ u, u ≠ EmptyString) (snd (Preloader.run evs (Preloader.initial ric)))
  ∧ PreloaderApi.wellFormed (fst (Preloader.run evs (Preloader.initial ric))).
Proof.
  destruct (run_wellFormed evs _ (initial_wellFormed ric)) as [W F].
  split; assumption.
Qed.

(** X2.  From the initial state, a URL is in the loaded-URL cache only if a
    fetch for it was started earlier in the run: nothing is marked loaded
    without having been fetched. *)
Theorem preloader_cache_only_holds_fetched
        (ric : bool) (evs : list Preloader.Event) (u : string) :
  u ∈ Preloader.loadedImages (fst (Preloader.run evs (Preloader.initial ric))) →
  u ∈ snd (Preloader.run evs (Preloader.initial ric)).
Proof.
  intros Hu.
  assert (T0 : PreloaderApi.tracked [] (Preloader.initial ric)).
  { split; [intros v Hv; simpl in Hv; exfalso; exact (not_elem_of_empty v Hv)
           | intros e He; inversion He]. }
  destruct (run_tracked [] evs _ (initial_wellFormed ric) T0) as [Tl _].
  apply (Tl u Hu).
Qed.

Lemma preloader_cache_only_holds_fetched_witness :
  let evs := [Preloader.EvPreload 0%nat ["a.webp"; "b.webp"]%string Preloader.critical;
              Preloader.EvSettle 1 true] in
  "b.webp"%string ∈ snd (Preloader.run evs (Preloader.initial true)).
Proof.
  intros evs. apply (preloader_cache_only_holds_fetched true evs).
  vm_compute. set_solver.
Defined.

Section MonotoneFacts.

Import Preloader PreloaderApi.

Lemma step_cache_grows (ev : Event) (st : State) :
  loadedImages st ⊆ loadedImages (fst (step ev st)).
Proof.
  destruct (step_cache ev st) as [L|(i & u & k & _ & _ & L)]; rewrite L;
    [reflexivity | apply union_subseteq_r].
Qed.

Lemma run_cache_grows (evs : list Event) (st : State) :
  loadedImages st ⊆ loadedImages (fst (run evs st)).
Proof.
  revert st. induction evs as [|ev rest IH]; intros st; simpl; [reflexivity|].
  rewrite fst_andThen. etransitivity; [apply step_cache_grows | apply IH].
Qed.

Lemma run_no_refetch (u : string) (evs : list Event) (st : State) :
  u ∈ loadedImages st → u ∉ snd (run evs st).
Proof.
  revert st. induction evs as [|ev rest IH]; intros st Hu; simpl.
  - intros H. inversion H.
  - rewrite snd_andThen. intros H. apply elem_of_app in H as [H|H].
    + apply (step_fetches_uncached ev st u H). apply step_cache_grows, Hu.
    + apply (IH (fst (step ev st))); [apply step_cache_grows, Hu | exact H].
Qed.

End MonotoneFacts.

(** X3.  The loaded-URL cache is append-only: along every run, from every
    state, each URL that was in the cache is still in it, and the [loaded]
    count reported by [getCacheStats] never goes down. *)
Theorem preloader_cache_append_only (evs : list Preloader.Event) (st : Preloader.State) :
  Preloader.loadedImages st ⊆ Preloader.loadedImages (fst (Preloader.run evs st))
  ∧ (PreloaderApi.stat_loaded (PreloaderApi.getCacheStats st)
     ≤ PreloaderApi.stat_loaded
         (PreloaderApi.getCacheStats (fst (Preloader.run evs st))))%nat.
Proof.
  split; [apply run_cache_grows|]. simpl. apply subseteq_size, run_cache_grows.
Qed.

(** X4.  Once a URL is in the cache, no later call or callback ever starts
    a fetch for it again, and [isLoaded] keeps answering true for it. *)
Theorem preloader_loaded_never_refetched
        (u : string) (evs : list Preloader.Event) (st : Preloader.State) :
  u ∈ Preloader.loadedImages st →
  (u ∉ snd (Preloader.run evs st))
  ∧ Preloader.isLoaded u (fst (Preloader.run evs st)) = true.
Proof.
  intros Hu. split; [apply run_no_refetch, Hu|].
  apply bool_decide_eq_true_2. apply run_cache_grows, Hu.
Qed.

Lemma preloader_loaded_never_refetched_witness :
  let st := fst (Preloader.run
                   [Preloader.EvPreload 0%nat ["a.webp"]%string Preloader.critical;
                    Preloader.EvSettle 0 true]
                   (Preloader.initial true)) in
  let evs := [Preloader.EvPreload 0%nat ["a.webp"; "b.webp"]%string Preloader.high;
              Preloader.EvPreloadForViewer 0%nat [Some "a.webp"; Some "c.webp"]%string 1 2;
              Preloader.EvFire 0 3] in
  "a.webp"%string ∉ snd (Preloader.run evs st).
Proof.
  intros st evs. apply (preloader_loaded_never_refetched "a.webp"%string evs st).
  vm_compute. set_solver.
Defined.

(** ** Preloader: the queue and its callbacks *)

Section ScheduleFacts.

Import Preloader PreloaderApi.

Lemma sameSchedule_refl (st : State) : sameSchedule st st.
Proof. repeat split. Qed.

Lemma sameSchedule_trans (a b c : State) :
  sameSchedule a b → sameSchedule b c → sameSchedule a c.
Proof.
  intros (T1 & I1 & Q1 & R1) (T2 & I2 & Q2 & R2). repeat split; congruence.
Qed.

Lemma sameSchedule_preloadImage (k : Cont) (u : string) (st : State) :
  sameSchedule st (fst (preloadImage k u st)).
Proof. unfold preloadImage. destruct (decide _); repeat split. Qed.

Lemma sameSchedule_preloadAll (urls : list string) (st : State) :
  sameSchedule st (fst (preloadAll urls st)).
Proof.
  revert st. induction urls as [|u rest IH]; intros st; simpl; [apply sameSchedule_refl|].
  rewrite fst_andThen.
  eapply sameSchedule_trans; [apply sameSchedule_preloadImage | apply IH].
Qed.

Lemma sameSchedule_highLoop (h : Preloader.Hook) (urls : list string) (st : State) :
  sameSchedule st (fst (highLoop h urls st)).
Proof.
  induction urls as [|u rest IH]; simpl; [apply sameSchedule_refl|].
  destruct (abortRef st h); [apply sameSchedule_refl|].
  destruct (decide _); [exact IH | apply sameSchedule_preloadImage].
Qed.

Lemma sameSchedule_settle (i : nat) (ok : bool) (st : State) :
  sameSchedule st (fst (settle i ok st)).
Proof.
  destruct (inflight st !! i) as [[u k]|] eqn:E.
  2:{ rewrite settle_missing by exact E. apply sameSchedule_refl. }
  rewrite (settle_found i ok st u k E). cbv zeta.
  set (st2 := if ok then _ else _).
  assert (S2 : sameSchedule st st2) by (subst st2; destruct ok; repeat split).
  destruct k; [exact S2|].
  eapply sameSchedule_trans; [exact S2 | apply sameSchedule_highLoop].
Qed.

Lemma sameSchedule_scheduled (st st' : State) :
  sameSchedule st st' → scheduled st → scheduled st'.
Proof.
  intros (T & I & Q & _) [D N]. unfold scheduled, drains in *.
  rewrite T, I, Q. split; assumption.
Qed.

Lemma drains_app (l : list Callback) (cb : Callback) :
  length (List.filter isDrain (l ++ [cb]))
  = (length (List.filter isDrain l) + (if isDrain cb then 1 else 0))%nat.
Proof.
  rewrite List.filter_app, length_app. simpl. destruct (isDrain cb); reflexivity.
Qed.

Lemma drains_removed (l : list Callback) (i : nat) (cb : Callback) :
  l !! i = Some cb →
  length (List.filter isDrain l)
  = (length (List.filter isDrain (take i l ++ drop (S i) l))
     + (if isDrain cb then 1 else 0))%nat.
Proof.
  intros H. rewrite <- (take_drop_middle l i cb H) at 1.
  rewrite !List.filter_app, !length_app. simpl.
  destruct (isDrain cb); simpl; lia.
Qed.

(** [processIdleTasks] needs only the first half of the invariant, and
    gives back both. *)
Lemma processIdleTasks_scheduled (st : State) :
  drains st = (if isIdleLoading st then 1 else 0)%nat →
  scheduled (processIdleTasks st).
Proof.
  intros D. unfold processIdleTasks, scheduled, drains in *.
  destruct (isIdleLoading st) eqn:I.
  - rewrite I. split; [exact D|]. intros _ E. rewrite E in D. discriminate.
  - simpl. destruct (hasRequestIdleCallback st); simpl;
      rewrite drains_app, D; simpl;
      (split; [reflexivity | intros _ E; destruct (timers st); discriminate]).
Qed.

Lemma runTask_schedule (st : State) :
  timers (fst (runTask st)) = timers st
  ∧ isIdleLoading (fst (runTask st)) = isIdleLoading st.
Proof.
  unfold runTask. destruct (pendingTasks st) as [|t q]; [split; reflexivity|].
  destruct (status t); try (split; reflexivity).
  unfold preloadImage. destruct (decide _); split; reflexivity.
Qed.

Lemma idleLoop_schedule (budget : nat) (st : State) :
  timers (fst (idleLoop budget st)) = timers st
  ∧ isIdleLoading (fst (idleLoop budget st)) = isIdleLoading st.
Proof.
  revert st. induction budget as [|b IH]; intros st; simpl; [split; reflexivity|].
  destruct (pendingTasks st); [split; reflexivity|].
  rewrite fst_andThen.
  destruct (IH (fst (runTask st))) as [T I], (runTask_schedule st) as [T' I'].
  split; congruence.
Qed.

(** After the loop of a drain callback: rescheduled if tasks are left,
    switched off otherwise. *)
Lemma reschedule_scheduled (cb : Callback) (st : State) :
  isDrain cb = true → drains st = 0%nat → isIdleLoading st = true →
  scheduled
    (fst (match pendingTasks st with
          | [] => (set_idle false st, [])
          | _ :: _ => (set_timers (λ l, l ++ [cb]) st, [])
          end : Run)).
Proof.
  intros Hcb D I. unfold scheduled, drains in *.
  destruct (pendingTasks st) eqn:E; simpl.
  - rewrite E. split; [exact D | intros H; contradiction].
  - rewrite I, drains_app, D, Hcb. split; [reflexivity|].
    intros _ H. destruct (timers st); discriminate.
Qed.

Lemma preload_scheduled (h : Preloader.Hook) (urls : list string) (p : Priority) (st : State) :
  scheduled st → scheduled (fst (preload h urls p st)).
Proof.
  intros S. unfold preload. destruct (validUrls st urls) as [|v valid]; [exact S|].
  destruct p.
  - eapply sameSchedule_scheduled; [apply sameSchedule_preloadAll | exact S].
  - eapply sameSchedule_scheduled; [apply sameSchedule_highLoop | exact S].
  - destruct S as [D _]. unfold scheduled, drains in *. simpl.
    rewrite drains_app. simpl. rewrite D. split; [lia|].
    intros _ H. destruct (timers st); discriminate.
  - apply processIdleTasks_scheduled. apply S.
Qed.

Lemma preloadForViewer_scheduled (h : Preloader.Hook) (l : list (option string)) (c n : Z) (st : State) :
  scheduled st → scheduled (fst (preloadForViewer h l c n st)).
Proof.
  intros S. unfold preloadForViewer. destruct (Js.filter_truthy l); [exact S|].
  rewrite !preloadIfAny_preload, !fst_andThen.
  repeat apply preload_scheduled. exact S.
Qed.

Lemma fire_scheduled (i budget : nat) (st : State) :
  scheduled st → scheduled (fst (fire i budget st)).
Proof.
  intros Hs. unfold fire. destruct (timers st !! i) as [cb|] eqn:E; [|exact Hs].
  set (st1 := set_timers (λ l, take i l ++ drop (S i) l) st).
  pose proof (drains_removed (timers st) i cb E) as R.
  destruct Hs as [D _]. unfold drains in D.
  destruct cb; simpl in R.
  - apply processIdleTasks_scheduled. unfold drains. simpl. lia.
  - assert (I : isIdleLoading st = true) by (destruct (isIdleLoading st); [reflexivity | lia]).
    rewrite I in D.
    unfold idleCallback. rewrite fst_andThen.
    destruct (idleLoop_schedule budget st1) as [T I'].
    apply (reschedule_scheduled CbIdleCallback); [reflexivity | |].
    + unfold drains. rewrite T. simpl. lia.
    + rewrite I'. exact I.
  - assert (I : isIdleLoading st = true) by (destruct (isIdleLoading st); [reflexivity | lia]).
    rewrite I in D.
    unfold fallbackProcess. rewrite fst_andThen.
    destruct (runTask_schedule st1) as [T I'].
    apply (reschedule_scheduled CbFallbackProcess); [reflexivity | |].
    + unfold drains. rewrite T. simpl. lia.
    + rewrite I'. exact I.
Qed.

Lemma step_scheduled (ev : Event) (st : State) :
  scheduled st → scheduled (fst (step ev st)).
Proof.
  intros S. destruct ev as [h' urls p|h' l c n|i ok|i budget|h']; simpl.
  - apply preload_scheduled, S.
  - apply preloadForViewer_scheduled, S.
  - eapply sameSchedule_scheduled; [apply sameSchedule_settle | exact S].
  - apply fire_scheduled, S.
  - exact S.
Qed.

Lemma run_scheduled (evs : list Event) (st : State) :
  scheduled st → scheduled (fst (run evs st)).
Proof.
  revert st. induction evs as [|ev rest IH]; intros st S; simpl; [exact S|].
  rewrite fst_andThen. apply IH, step_scheduled, S.
Qed.

End ScheduleFacts.

(** X5.  From the initial state, whatever is called and whatever the
    browser does: [isIdleLoading] is true exactly when one callback that
    drains the queue is scheduled (there are never two), and whenever tasks
    wait in the queue some callback that will get to them is scheduled, so
    no task is left stranded. *)
Theorem preloader_queue_always_scheduled (ric : bool) (evs : list Preloader.Event) :
  let st := fst (Preloader.run evs (Preloader.initial ric)) in
  PreloaderApi.drains st = (if Preloader.isIdleLoading st then 1 else 0)%nat
  ∧ (Preloader.pendingTasks st ≠ [] → Preloader.timers st ≠ []).
Proof.
  apply (run_scheduled evs (Preloader.initial ric)).
  split; [reflexivity | intros H; contradiction].
Qed.

Section DrainFacts.

Import Preloader PreloaderApi.

Lemma uncached_same (st st' : State) (urls : list string) :
  loadedImages st' = loadedImages st → uncached st' urls = uncached st urls.
Proof. intros L. unfold uncached. rewrite L. reflexivity. Qed.

Lemma runTask_pending (t : PreloadTask) (q : list PreloadTask) (st : State) :
  pendingTasks st = t :: q → status t = pending →
  pendingTasks (fst (runTask st)) = q
  ∧ loadedImages (fst (runTask st)) = loadedImages st
  ∧ snd (runTask st) = uncached st [url t].
Proof.
  intros E Hs. unfold runTask, uncached. rewrite E, Hs. unfold preloadImage. simpl.
  destruct (decide (url t ∈ loadedImages st)) as [H|H]; simpl.
  - rewrite bool_decide_eq_true_2 by exact H. repeat split.
  - rewrite bool_decide_eq_false_2 by exact H. repeat split.
Qed.

(** The loop of a drain callback takes tasks from the front of the queue,
    in order, and fetches those whose URL is not cached. *)
Lemma idleLoop_fifo (budget : nat) (st : State) :
  Forall (λ t, status t = pending) (pendingTasks st) →
  pendingTasks (fst (idleLoop budget st)) = drop budget (pendingTasks st)
  ∧ snd (idleLoop budget st) = uncached st (take budget (queued st)).
Proof.
  revert st. induction budget as [|b IH]; intros st Hq; simpl.
  - rewrite drop_0. split; reflexivity.
  - unfold queued. destruct (pendingTasks st) as [|t q] eqn:E;
      [simpl; rewrite E; split; reflexivity|].
    inversion Hq as [|? ? Hs Hrest]; subst.
    destruct (runTask_pending t q st E Hs) as (Q1 & L1 & F1).
    rewrite fst_andThen, snd_andThen.
    destruct (IH (fst (runTask st))) as [Q2 F2]; [rewrite Q1; exact Hrest|].
    rewrite Q2, F2, F1.
    rewrite (uncached_same st (fst (runTask st)) _ L1).
    unfold queued. rewrite Q1. split; [reflexivity|].
    unfold uncached. simpl. destruct (negb _); reflexivity.
Qed.

Lemma filter_removed_length {A : Type} (f : A → bool) (l : list A) (i : nat) (x : A) :
  l !! i = Some x →
  length (List.filter f l)
  = (length (List.filter f (take i l ++ drop (S i) l)) + (if f x then 1 else 0))%nat.
Proof.
  intros H. rewrite <- (take_drop_middle l i x H) at 1.
  rewrite !List.filter_app, !length_app. simpl.
  destruct (f x); simpl; lia.
Qed.

(** On a mounted hook the high-tier loop fetches the first URL of its list
    that is not cached, and nothing else. *)
Lemma highLoop_first (h : Preloader.Hook) (urls : list string) (st : State) :
  abortRef st h = false →
  snd (highLoop h urls st) = take 1 (uncached st urls)
  ∧ (highInFlight (fst (highLoop h urls st)) ≤ highInFlight st + 1)%nat.
Proof.
  intros Ha. induction urls as [|u rest IH]; simpl; [split; [reflexivity | lia]|].
  rewrite Ha. unfold uncached in *. simpl.
  destruct (decide (u ∈ loadedImages st)) as [H|H].
  - rewrite bool_decide_eq_true_2 by exact H. simpl. exact IH.
  - rewrite bool_decide_eq_false_2 by exact H. simpl.
    rewrite preloadImage_fresh by exact H. simpl. split; [reflexivity|].
    unfold highInFlight. simpl. rewrite List.filter_app, length_app. simpl. lia.
Qed.

Lemma highLoop_highInFlight (h : Preloader.Hook) (urls : list string) (st : State) :
  (highInFlight (fst (highLoop h urls st)) ≤ highInFlight st + 1)%nat
  ∧ (length (snd (highLoop h urls st)) ≤ 1)%nat.
Proof.
  destruct (abortRef st h) eqn:Ha.
  - rewrite highLoop_aborted by exact Ha. simpl. lia.
  - destruct (highLoop_first h urls st Ha) as [F H]. split; [exact H|].
    rewrite F. rewrite length_take. lia.
Qed.

Lemma runTask_abort (st : State) : aborted (fst (runTask st)) = aborted st.
Proof.
  unfold runTask. destruct (pendingTasks st) as [|t q]; [reflexivity|].
  destruct (status t); try reflexivity.
  unfold preloadImage. destruct (decide _); reflexivity.
Qed.

Lemma idleLoop_abort (budget : nat) (st : State) :
  aborted (fst (idleLoop budget st)) = aborted st.
Proof.
  revert st. induction budget as [|b IH]; intros st; simpl; [reflexivity|].
  destruct (pendingTasks st); [reflexivity|].
  rewrite fst_andThen, IH. apply runTask_abort.
Qed.

Lemma fire_abort (i budget : nat) (st : State) :
  aborted (fst (fire i budget st)) = aborted st.
Proof.
  unfold fire. destruct (timers st !! i) as [cb|]; [|reflexivity].
  set (st1 := set_timers _ st).
  assert (A1 : aborted st1 = aborted st) by reflexivity.
  rewrite <- A1. clearbody st1.
  destruct cb.
  - apply (processIdleTasks_fields st1).
  - unfold idleCallback. rewrite fst_andThen.
    transitivity (aborted (fst (idleLoop budget st1))); [|apply idleLoop_abort].
    destruct (pendingTasks (fst (idleLoop budget st1))); reflexivity.
  - unfold fallbackProcess. rewrite fst_andThen.
    transitivity (aborted (fst (runTask st1))); [|apply runTask_abort].
    destruct (pendingTasks (fst (runTask st1))); reflexivity.
Qed.

Lemma preloadForViewer_abort (h : Preloader.Hook) (l : list (option string)) (c n : Z) (st : State) :
  aborted (fst (preloadForViewer h l c n st)) = aborted st.
Proof.
  unfold preloadForViewer. destruct (Js.filter_truthy l); [reflexivity|].
  rewrite !preloadIfAny_preload, !fst_andThen.
  repeat (etransitivity; [apply preload_extends|]). reflexivity.
Qed.

(** Only the unmount of an instance touches an abort flag, and only the
    flag of that instance. *)
Lemma step_aborted (ev : Event) (st : State) :
  aborted (fst (step ev st))
  = match ev with
    | EvUnmount h => {[h]} ∪ aborted st
    | _ => aborted st
    end.
Proof.
  destruct ev as [h' urls p|h' l c n|i ok|i budget|h']; simpl.
  - apply preload_extends.
  - apply preloadForViewer_abort.
  - apply settle_abort.
  - apply fire_abort.
  - reflexivity.
Qed.

Lemma step_abort_stays (h : Preloader.Hook) (ev : Event) (st : State) :
  abortRef st h = true → abortRef (fst (step ev st)) h = true.
Proof.
  unfold abortRef. rewrite step_aborted. intros Ha.
  apply bool_decide_eq_true in Ha. apply bool_decide_eq_true.
  destruct ev; try exact Ha. apply elem_of_union. right. exact Ha.
Qed.

Lemma run_abort_stays (h : Preloader.Hook) (evs : list Event) (st : State) :
  abortRef st h = true → abortRef (fst (run evs st)) h = true.
Proof.
  revert st. induction evs as [|ev rest IH]; intros st Ha; simpl; [exact Ha|].
  rewrite fst_andThen. apply IH, step_abort_stays, Ha.
Qed.

End DrainFacts.

(** X6.  A drain callback works through the queue first in, first out: when
    every queued task is pending (as it always is, see X1), a callback that
    has idle time for [budget] tasks takes exactly the first [budget] tasks
    off the queue and starts fetches, in queue order, for those whose URL is
    not cached.  If that empties the queue the idle-loading flag is cleared
    and nothing is rescheduled; otherwise one more idle callback is
    requested. *)
Theorem drain_is_first_in_first_out (budget : nat) (st : Preloader.State) :
  Forall (λ t, Preloader.status t = Preloader.pending) (Preloader.pendingTasks st) →
  let r := Preloader.idleCallback budget st in
  Preloader.pendingTasks (fst r) = drop budget (Preloader.pendingTasks st)
  ∧ snd r = PreloaderApi.uncached st (take budget (Preloader.queued st))
  ∧ ((length (Preloader.pendingTasks st) ≤ budget)%nat →
     Preloader.isIdleLoading (fst r) = false
     ∧ Preloader.timers (fst r) = Preloader.timers st)
  ∧ ((budget < length (Preloader.pendingTasks st))%nat →
     Preloader.timers (fst r) = Preloader.timers st ++ [Preloader.CbIdleCallback]).
Proof.
  intros Hq r. subst r. unfold Preloader.idleCallback.
  destruct (idleLoop_fifo budget st Hq) as [Q F].
  destruct (idleLoop_schedule budget st) as [T I].
  rewrite fst_andThen, snd_andThen, F.
  set (st1 := fst (Preloader.idleLoop budget st)) in *.
  destruct (Preloader.pendingTasks st1) as [|t q] eqn:Eq;
    cbn [fst snd]; rewrite app_nil_r.
  - split; [simpl; rewrite Eq; exact Q|]. split; [reflexivity|].
    split; [intros _; split; [reflexivity | exact T]|].
    intros Hlt. exfalso. apply (f_equal length) in Q.
    rewrite length_drop in Q. simpl in Q. lia.
  - split; [simpl; rewrite Eq; exact Q|]. split; [reflexivity|].
    split.
    + intros Hle. rewrite drop_ge in Q by exact Hle. discriminate.
    + intros _. simpl. rewrite T. reflexivity.
Qed.

Lemma drain_is_first_in_first_out_witness :
  let st := fst (Preloader.run
                   [Preloader.EvPreload 0%nat ["a.webp"]%string Preloader.critical;
                    Preloader.EvSettle 0 true;
                    Preloader.EvPreload 0%nat ["p5.webp"; "a.webp"; "p6.webp"; "p7.webp"]%string
                                        Preloader.low]
                   (Preloader.initial true)) in
  snd (Preloader.idleCallback 2 st) = ["p5.webp"; "p6.webp"]%string
  ∧ Preloader.queued (fst (Preloader.idleCallback 2 st)) = ["p7.webp"]%string.
Proof.
  intros st.
  destruct (drain_is_first_in_first_out 2 st) as (Q & F & _).
  - repeat constructor.
  - split; [rewrite F; reflexivity|].
    unfold Preloader.queued. rewrite Q. reflexivity.
Defined.

Section HighTierFacts.

Import Preloader PreloaderApi.

Lemma filter_all {A : Type} (f : A → bool) (l : list A) :
  Forall (λ x, f x = true) l → List.filter f l = l.
Proof. induction 1 as [|x l Hx _ IH]; simpl; [reflexivity|]. rewrite Hx, IH. reflexivity. Qed.

Lemma uncached_validUrls (st : State) (urls : list string) :
  uncached st (validUrls st urls) = validUrls st urls.
Proof.
  apply filter_all. eapply Forall_impl; [apply validUrls_fresh|].
  intros u Hu. simpl. rewrite bool_decide_eq_false_2 by exact Hu. reflexivity.
Qed.

Lemma preload_high_first (h : Preloader.Hook) (urls : list string) (st : State) :
  abortRef st h = false →
  snd (preload h urls high st) = take 1 (validUrls st urls)
  ∧ (highInFlight (fst (preload h urls high st)) ≤ highInFlight st + 1)%nat.
Proof.
  intros Ha. unfold preload.
  pose proof (uncached_validUrls st urls) as U.
  destruct (validUrls st urls) as [|v valid] eqn:E; [simpl; split; [reflexivity | lia]|].
  destruct (highLoop_first h (v :: valid) st Ha) as [F H].
  rewrite F, U. split; [reflexivity | exact H].
Qed.

Lemma settle_highInFlight (i : nat) (ok : bool) (st : State) :
  (highInFlight (fst (settle i ok st)) ≤ highInFlight st)%nat
  ∧ (length (snd (settle i ok st)) ≤ 1)%nat.
Proof.
  destruct (inflight st !! i) as [[u k]|] eqn:E.
  2:{ rewrite settle_missing by exact E. simpl. lia. }
  rewrite (settle_found i ok st u k E). cbv zeta.
  pose proof (filter_removed_length isHigh (inflight st) i (u, k) E) as R.
  set (st1 := set_inflight _ st).
  set (st2 := if ok then set_loaded _ st1 else st1).
  assert (HS : highInFlight st
               = (highInFlight st2 + (if isHigh (u, k) then 1 else 0))%nat).
  { unfold highInFlight at 1. rewrite R. subst st2. destruct ok; reflexivity. }
  clearbody st2. clear R.
  destruct k as [|h rest]; unfold isHigh in HS; simpl in HS.
  - simpl. lia.
  - destruct (highLoop_highInFlight h rest st2). lia.
Qed.

Lemma settle_error_resumes (h : Preloader.Hook) (i : nat) (st : State) (v : string) (rest : list string) :
  abortRef st h = false → inflight st !! i = Some (v, KHigh h rest) →
  snd (settle i false st) = take 1 (uncached st rest).
Proof.
  intros Ha E. rewrite (settle_found i false st v _ E). cbv zeta.
  set (st1 := set_inflight _ st).
  destruct (highLoop_first h rest st1 Ha) as [F _]. exact F.
Qed.

End HighTierFacts.

(** ** A URL that waits is fetched *)

Section RetryReach.

Import Preloader PreloaderApi.

Lemma run_app (evs1 evs2 : list Event) (st : State) :
  run (evs1 ++ evs2) st = andThen (run evs1 st) (run evs2).
Proof.
  revert st. induction evs1 as [|ev evs1 IH]; intros st; simpl.
  - destruct (run evs2 st). reflexivity.
  - unfold andThen at 1 3. destruct (step ev st) as [st1 f1]. rewrite IH.
    unfold andThen. destruct (run evs1 st1) as [st2 f2].
    destruct (run evs2 st2) as [st3 f3]. rewrite app_assoc. reflexivity.
Qed.

Lemma run_cons_fetches (ev : Event) (evs : list Event) (st : State) (u : string) :
  u ∈ snd (step ev st) ∨ u ∈ snd (run evs (fst (step ev st))) →
  u ∈ snd (run (ev :: evs) st).
Proof. simpl. rewrite snd_andThen, elem_of_app. tauto. Qed.

Lemma runTask_idleLoading (st : State) :
  isIdleLoading (fst (runTask st)) = isIdleLoading st.
Proof.
  unfold runTask. destruct (pendingTasks st) as [|t q]; [reflexivity|].
  destruct (status t); try reflexivity.
  unfold preloadImage. destruct (decide _); reflexivity.
Qed.

(** One run of a drain callback with time for one task. *)
Lemma fire_drain_once (d : nat) (cb : Callback) (t : PreloadTask)
      (q : list PreloadTask) (st : State) :
  timers st !! d = Some cb → isDrain cb = true →
  pendingTasks st = t :: q → status t = pending →
  pendingTasks (fst (fire d 1 st)) = q
  ∧ loadedImages (fst (fire d 1 st)) = loadedImages st
  ∧ snd (fire d 1 st) = uncached st [url t]
  ∧ (q ≠ [] → isIdleLoading (fst (fire d 1 st)) = isIdleLoading st).
Proof.
  intros Hd Hcb Hq Ht. unfold fire. rewrite Hd.
  set (st1 := set_timers _ st).
  assert (Q1 : pendingTasks st1 = t :: q) by exact Hq.
  destruct (runTask_pending t q st1 Q1 Ht) as (P & L & F).
  pose proof (runTask_idleLoading st1) as I.
  assert (U : uncached st1 [url t] = uncached st [url t]) by reflexivity.
  assert (G : ∀ cb', let r := andThen (runTask st1) (λ st0,
                 match pendingTasks st0 with
                 | [] => (set_idle false st0, [])
                 | _ :: _ => (set_timers (λ l0, l0 ++ [cb']) st0, [])
                 end) in
              pendingTasks (fst r) = q
              ∧ loadedImages (fst r) = loadedImages st
              ∧ snd r = uncached st [url t]
              ∧ (q ≠ [] → isIdleLoading (fst r) = isIdleLoading st)).
  { intros cb'. destruct (runTask st1) as [st2 f2]. simpl in P, L, F, I.
    unfold andThen. rewrite P.
    destruct q as [|t' q']; cbn [fst snd]; rewrite app_nil_r, F.
    - split; [exact P|]. split; [exact L|]. split; [reflexivity|].
      intros H. contradiction.
    - split; [exact P|]. split; [exact L|]. split; [reflexivity|].
      intros _. exact I. }
  destruct cb; [discriminate| |].
  - unfold idleCallback. cbn [idleLoop]. rewrite Q1.
    assert (E : andThen (runTask st1) (λ st0, (st0, [])) = runTask st1).
    { destruct (runTask st1). unfold andThen. rewrite app_nil_r. reflexivity. }
    rewrite E. apply G.
  - unfold fallbackProcess. apply G.
Qed.

Lemma filter_nonempty_lookup {A : Type} (f : A → bool) (l : list A) :
  (0 < length (List.filter f l))%nat → ∃ i x, l !! i = Some x ∧ f x = true.
Proof.
  induction l as [|x r IH]; simpl; [lia|].
  destruct (f x) eqn:E.
  - intros _. exists 0%nat, x. split; [reflexivity | exact E].
  - intros H. destruct (IH H) as (i & y & Hi & Hy). exists (S i), y. split; assumption.
Qed.

Lemma uncached_one (u : string) (st : State) :
  u ∉ loadedImages st → uncached st [u] = [u].
Proof.
  intros H. unfold uncached. simpl. rewrite bool_decide_eq_false_2 by exact H.
  reflexivity.
Qed.

(** While the drain callback is scheduled, letting it run one task at a
    time gets to every task of the queue. *)
Lemma reach_queue_draining (u : string) (n : nat) (st : State) :
  length (pendingTasks st) = n →
  scheduled st → wellFormed st → isIdleLoading st = true →
  u ∈ queued st → u ∉ loadedImages st →
  ∃ evs, Forall browserEvent evs ∧ u ∈ snd (run evs st).
Proof.
  revert st. induction n as [|m IH]; intros st Hlen S W Hidle Hq Hnl.
  - destruct (pendingTasks st) eqn:E; [|discriminate].
    unfold queued in Hq. rewrite E in Hq. inversion Hq.
  - destruct (pendingTasks st) as [|t q] eqn:E; [discriminate|].
    injection Hlen as Hlen.
    pose proof S as [Hd _]. rewrite Hidle in Hd.
    destruct (filter_nonempty_lookup isDrain (timers st)) as (d & cb & Hcb & Dcb).
    { unfold drains in Hd. lia. }
    pose proof W as [Wq _]. rewrite E in Wq.
    apply Forall_cons in Wq as [[Tp _] _].
    destruct (fire_drain_once d cb t q st Hcb Dcb E Tp) as (P & L & F & Q).
    destruct (decide (url t = u)) as [Eu|Nu].
    + exists [EvFire d 1]. split; [repeat constructor|].
      apply run_cons_fetches. left. simpl. rewrite F, Eu, uncached_one by exact Hnl.
      left.
    + assert (Hq' : u ∈ queued (fst (step (EvFire d 1) st))).
      { simpl. unfold queued. rewrite P. unfold queued in Hq. rewrite E in Hq.
        simpl in Hq. apply elem_of_cons in Hq as [Hq|Hq]; [congruence | exact Hq]. }
      destruct (IH (fst (step (EvFire d 1) st))) as (evs & Hb & Hin).
      * simpl. rewrite P. exact Hlen.
      * apply step_scheduled, S.
      * apply step_wellFormed, W.
      * simpl. rewrite Q, Hidle; [reflexivity|]. intros Eq. simpl in Hq'.
        unfold queued in Hq'. rewrite P, Eq in Hq'. inversion Hq'.
      * exact Hq'.
      * simpl. rewrite L. exact Hnl.
      * exists (EvFire d 1 :: evs). split; [constructor; [exact I | exact Hb]|].
        apply run_cons_fetches. right. exact Hin.
Qed.

(** A task in the queue is reached by the callbacks that are scheduled. *)
Lemma reach_queue (u : string) (st : State) :
  scheduled st → wellFormed st → u ∈ queued st → u ∉ loadedImages st →
  ∃ evs, Forall browserEvent evs ∧ u ∈ snd (run evs st).
Proof.
  intros S W Hq Hnl. destruct (isIdleLoading st) eqn:Hidle.
  { eapply reach_queue_draining; eauto. }
  pose proof S as [Hd Ht]. rewrite Hidle in Hd.
  assert (Hne : pendingTasks st ≠ []).
  { intros E. unfold queued in Hq. rewrite E in Hq. inversion Hq. }
  specialize (Ht Hne). destruct (timers st) as [|cb tl] eqn:T; [contradiction|].
  assert (Ecb : cb = CbProcessIdleTasks).
  { unfold drains in Hd. rewrite T in Hd. simpl in Hd.
    destruct cb; simpl in Hd; [reflexivity | discriminate | discriminate]. }
  subst cb.
  set (st1 := fst (step (EvFire 0 0) st)).
  assert (F1 : step (EvFire 0 0) st
               = (processIdleTasks (set_timers (λ l, take 0 l ++ drop 1 l) st), [])).
  { simpl. unfold fire. rewrite T. reflexivity. }
  assert (I1 : isIdleLoading st1 = true).
  { unfold st1. rewrite F1. simpl. unfold processIdleTasks. simpl. rewrite Hidle.
    simpl. destruct (hasRequestIdleCallback st); reflexivity. }
  assert (P1 : pendingTasks st1 = pendingTasks st).
  { unfold st1. rewrite F1. cbn [fst].
    rewrite (proj1 (proj2 (processIdleTasks_fields _))). reflexivity. }
  assert (L1 : loadedImages st1 = loadedImages st).
  { unfold st1. rewrite F1. cbn [fst].
    rewrite (proj1 (processIdleTasks_fields _)). reflexivity. }
  destruct (reach_queue_draining u _ st1 eq_refl) as (evs & Hb & Hin).
  - apply step_scheduled, S.
  - apply step_wellFormed, W.
  - exact I1.
  - unfold queued. rewrite P1. exact Hq.
  - rewrite L1. exact Hnl.
  - exists (EvFire 0 0 :: evs). split; [constructor; [exact I | exact Hb]|].
    apply run_cons_fetches. right. exact Hin.
Qed.

(** The sequential loop either starts the fetch of [u] or suspends on an
    earlier URL with [u] among those it still has to go through. *)
Lemma highLoop_next (h : Hook) (u : string) (rest : list string) (st : State) :
  abortRef st h = false → u ∈ rest → u ∉ loadedImages st →
  u ∈ snd (highLoop h rest st)
  ∨ ∃ v rest', inflight (fst (highLoop h rest st)) = inflight st ++ [(v, KHigh h rest')]
               ∧ u ∈ rest' ∧ (length rest' < length rest)%nat.
Proof.
  intros Ha Hin Hnl. induction rest as [|x r IH]; [inversion Hin|].
  simpl. rewrite Ha. destruct (decide (x ∈ loadedImages st)) as [Hx|Hx].
  - apply elem_of_cons in Hin as [->|Hin]; [contradiction|].
    destruct (IH Hin) as [H|(v & rest' & E & Hr & Hl)]; [left; exact H|].
    right. exists v, rest'. repeat split; [exact E | exact Hr | simpl; lia].
  - unfold preloadImage. destruct (decide _); [contradiction|]. simpl.
    apply elem_of_cons in Hin as [->|Hin]; [left; left|].
    right. exists x, r. repeat split; [exact Hin | lia].
Qed.

Lemma highLoop_fields (h : Hook) (rest : list string) (st : State) :
  loadedImages (fst (highLoop h rest st)) = loadedImages st
  ∧ aborted (fst (highLoop h rest st)) = aborted st.
Proof. split; [apply cacheNeutral_highLoop | apply highLoop_abort]. Qed.

(** A URL kept by a suspended loop of a mounted instance is reached by
    letting the images the loop waits for settle. *)
Lemma reach_loop (h : Hook) (u : string) (n : nat) :
  ∀ (rest : list string) (st : State) (i : nat) (v : string),
    (length rest ≤ n)%nat →
    inflight st !! i = Some (v, KHigh h rest) →
    abortRef st h = false → u ∈ rest → u ∉ loadedImages st →
    ∃ evs, Forall browserEvent evs ∧ u ∈ snd (run evs st).
Proof.
  induction n as [|m IH]; intros rest st i v Hlen Hi Ha Hin Hnl.
  - destruct rest; [inversion Hin | simpl in Hlen; lia].
  - set (st2 := set_inflight (λ l, take i l ++ drop (S i) l) st).
    assert (F : step (EvSettle i false) st = highLoop h rest st2).
    { simpl. rewrite (settle_found i false st v _ Hi). reflexivity. }
    assert (Ha2 : abortRef st2 h = false) by exact Ha.
    assert (Hnl2 : u ∉ loadedImages st2) by exact Hnl.
    destruct (highLoop_next h u rest st2 Ha2 Hin Hnl2) as [H|(x & rest' & E & Hr & Hl)].
    + exists [EvSettle i false]. split; [repeat constructor|].
      apply run_cons_fetches. left. rewrite F. exact H.
    + destruct (highLoop_fields h rest st2) as [L A].
      destruct (IH rest' (fst (highLoop h rest st2)) (length (inflight st2)) x)
        as (evs & Hb & Hf).
      * lia.
      * rewrite E. apply list_lookup_middle. reflexivity.
      * unfold abortRef. rewrite A. exact Ha2.
      * exact Hr.
      * rewrite L. exact Hnl2.
      * exists (EvSettle i false :: evs). split; [constructor; [exact I | exact Hb]|].
        apply run_cons_fetches. right. rewrite F. exact Hf.
Qed.

(** What waits is fetched once the browser gets to it. *)
Lemma reach_waiting (u : string) (st : State) :
  scheduled st → wellFormed st → waits u st → u ∉ loadedImages st →
  ∃ evs, Forall browserEvent evs ∧ u ∈ snd (run evs st).
Proof.
  intros S W [Hq|(i & v & h & rest & Hi & Hin & Ha)] Hnl.
  - apply reach_queue; assumption.
  - apply (reach_loop h u (length rest) rest st i v); auto.
Qed.

Lemma waits_extends (u : string) (st st' : State) :
  extends st st' → waits u st → waits u st'.
Proof.
  intros (_ & A & (n & I) & (t & Q)) [Hq|(i & v & h & rest & Hi & Hin & Ha)].
  - left. unfold queued in *. rewrite Q, map_app, elem_of_app. left. exact Hq.
  - right. exists i, v, h, rest. split; [|split; [exact Hin|]].
    + rewrite I. apply lookup_app_l_Some, Hi.
    + unfold abortRef. rewrite A. exact Ha.
Qed.

Lemma andThen_waits_l (r : Run) (f : State → Run) (u : string) :
  u ∈ snd r ∨ waits u (fst r) →
  extends (fst r) (fst (f (fst r))) →
  u ∈ snd (andThen r f) ∨ waits u (fst (andThen r f)).
Proof.
  intros [H|H] E; rewrite snd_andThen, fst_andThen.
  - left. apply elem_of_app. left. exact H.
  - right. eapply waits_extends; eassumption.
Qed.

Lemma andThen_waits_r (r : Run) (f : State → Run) (u : string) :
  u ∈ snd (f (fst r)) ∨ waits u (fst (f (fst r))) →
  u ∈ snd (andThen r f) ∨ waits u (fst (andThen r f)).
Proof.
  intros [H|H]; rewrite snd_andThen, fst_andThen.
  - left. apply elem_of_app. right. exact H.
  - right. exact H.
Qed.

Lemma url_of_tasks (p : Priority) (l : list string) :
  map url (map (λ u, mkTask u p pending) l) = l.
Proof. rewrite map_map. simpl. apply map_id. Qed.

(** After [preload], a URL that passed the filter has been fetched or
    waits. *)
Lemma preload_waits (h : Hook) (urls : list string) (p : Priority)
      (st : State) (u : string) :
  (p = high → abortRef st h = false) →
  u ∈ validUrls st urls →
  u ∈ snd (preload h urls p st) ∨ waits u (fst (preload h urls p st)).
Proof.
  intros Ha Hv. pose proof Hv as Hv'. apply elem_of_validUrls in Hv' as (_ & _ & Hnl).
  destruct p; [left; rewrite preload_critical_fetches; exact Hv| | |];
    unfold preload; destruct (validUrls st urls) as [|x valid] eqn:E;
    try (inversion Hv; fail).
  - destruct (highLoop_next h u (x :: valid) st (Ha eq_refl) Hv Hnl)
      as [H|(v & rest' & I & Hr & _)]; [left; exact H|].
    right. right. exists (length (inflight st)), v, h, rest'.
    split; [rewrite I; apply list_lookup_middle; reflexivity|].
    split; [exact Hr|]. unfold abortRef.
    rewrite (proj2 (highLoop_fields h (x :: valid) st)). apply Ha. reflexivity.
  - right. left. unfold queued. cbn [fst set_timers set_pending pendingTasks].
    rewrite map_app, url_of_tasks. apply elem_of_app. right. exact Hv.
  - right. left. unfold queued. cbn [fst].
    rewrite (proj1 (proj2 (processIdleTasks_fields _))).
    cbn [set_pending pendingTasks].
    rewrite map_app, url_of_tasks. apply elem_of_app. right. exact Hv.
Qed.

(** After [preloadForViewer] of a mounted instance, every URL of its tiers
    that is not cached has been fetched or waits. *)
Lemma preloadForViewer_waits (h : Hook) (l : list (option string)) (c n : Z)
      (st : State) (u : string) :
  abortRef st h = false →
  u ∈ allTiers (viewerTiers l c n) → u ∉ loadedImages st →
  u ∈ snd (preloadForViewer h l c n st) ∨ waits u (fst (preloadForViewer h l c n st)).
Proof.
  intros Ha Hin Hnl.
  destruct (elem_of_allTiers_truthy l c n u Hin) as [Hl Hne].
  unfold preloadForViewer.
  destruct (Js.filter_truthy l) as [|x v] eqn:Hv.
  { assert (H : u ∈ Js.filter_truthy l) by (apply elem_of_filter_truthy; tauto).
    rewrite Hv in H. inversion H. }
  set (t := viewerTiers l c n) in *. rewrite !preloadIfAny_preload.
  set (r1 := preload h (criticalUrls t) critical st).
  set (r2 := andThen r1 (preload h (highUrls t) high)).
  set (r3 := andThen r2 (preload h (lowUrls t) low)).
  assert (E1 : extends st (fst r1)) by apply preload_extends.
  assert (E2 : extends st (fst r2)).
  { unfold r2. rewrite fst_andThen. eapply extends_trans; [exact E1|].
    apply preload_extends. }
  assert (E3 : extends st (fst r3)).
  { unfold r3. rewrite fst_andThen. eapply extends_trans; [exact E2|].
    apply preload_extends. }
  assert (V : ∀ st' us, extends st st' → u ∈ us → u ∈ validUrls st' us).
  { intros st' us (L & _) Hu. apply elem_of_validUrls. rewrite L. tauto. }
  assert (A : ∀ st', extends st st' → abortRef st' h = false).
  { intros st' (_ & A & _). unfold abortRef. rewrite A. exact Ha. }
  unfold allTiers in Hin. rewrite !elem_of_app in Hin.
  destruct Hin as [Hin|[Hin|[Hin|Hin]]].
  - apply andThen_waits_l; [|apply preload_extends].
    apply andThen_waits_l; [|apply preload_extends].
    apply andThen_waits_l; [|apply preload_extends].
    apply preload_waits; [discriminate|]. apply V; [apply extends_refl | exact Hin].
  - apply andThen_waits_l; [|apply preload_extends].
    apply andThen_waits_l; [|apply preload_extends].
    apply andThen_waits_r.
    apply preload_waits; [intros _; apply A, E1|]. apply V; [exact E1 | exact Hin].
  - apply andThen_waits_l; [|apply preload_extends].
    apply andThen_waits_r.
    apply preload_waits; [discriminate|]. apply V; [exact E2 | exact Hin].
  - apply andThen_waits_r.
    apply preload_waits; [discriminate|]. apply V; [exact E3 | exact Hin].
Qed.

End RetryReach.




(** X7.  The high tier loads one image at a time.  On a mounted hook a
    [preload(urls, 'high')] call starts a fetch for the first URL that
    passes the filter and for no other, and when that image fails the loop
    goes on with the first URL left that is not cached.  No call adds more
    than one image to those the high-tier loops wait for, and no settling
    image adds any, or starts more than one fetch. *)
Theorem high_tier_one_at_a_time (h : Preloader.Hook) (st : Preloader.State) :
  Preloader.abortRef st h = false →
  (∀ urls,
      snd (Preloader.preload h urls Preloader.high st)
      = take 1 (Preloader.validUrls st urls)
      ∧ (PreloaderApi.highInFlight (fst (Preloader.preload h urls Preloader.high st))
         ≤ PreloaderApi.highInFlight st + 1)%nat)
  ∧ (∀ i ok,
        (PreloaderApi.highInFlight (fst (Preloader.settle i ok st))
         ≤ PreloaderApi.highInFlight st)%nat
        ∧ (length (snd (Preloader.settle i ok st)) ≤ 1)%nat)
  ∧ (∀ i v rest,
        Preloader.inflight st !! i = Some (v, Preloader.KHigh h rest) →
        snd (Preloader.settle i false st) = take 1 (PreloaderApi.uncached st rest)).
Proof.
  intros Ha. split; [|split].
  - intros urls. apply preload_high_first, Ha.
  - intros i ok. apply settle_highInFlight.
  - intros i v rest E. apply (settle_error_resumes h i st v rest); assumption.
Qed.

Lemma high_tier_one_at_a_time_witness :
  let st0 := Preloader.initial true in
  let st1 := fst (Preloader.preload 0%nat ["p3.webp"; "p4.webp"]%string Preloader.high st0) in
  snd (Preloader.preload 0%nat ["p3.webp"; "p4.webp"]%string Preloader.high st0)
  = ["p3.webp"]%string
  ∧ snd (Preloader.settle 0 false st1) = ["p4.webp"]%string.
Proof.
  intros st0 st1. split.
  - destruct (high_tier_one_at_a_time 0%nat st0) as (H & _); [reflexivity|].
    destruct (H ["p3.webp"; "p4.webp"]%string) as [F _]. rewrite F. reflexivity.
  - destruct (high_tier_one_at_a_time 0%nat st1) as (_ & _ & H); [reflexivity|].
    rewrite (H 0%nat "p3.webp"%string ["p4.webp"%string]); reflexivity.
Defined.

(** X8.  After a hook instance is unmounted its abort flag stays set for
    good, a [preload(urls, 'high')] call through it does nothing at all, and
    a high-tier loop of it that was waiting for an image stops when the
    image settles.  The fetch already in flight is not cancelled: if it
    succeeds, its URL still enters the cache.  The flag is the instance's
    own: no event other than the unmount of an instance changes its flag,
    so other instances stay mounted. *)
Theorem unmount_stops_high_tier (h : Preloader.Hook) (st : Preloader.State) :
  Preloader.abortRef st h = true →
  (∀ urls, Preloader.preload h urls Preloader.high st = (st, []))
  ∧ (∀ i ok v rest,
        Preloader.inflight st !! i = Some (v, Preloader.KHigh h rest) →
        snd (Preloader.settle i ok st) = []
        ∧ (ok = true → v ∈ Preloader.loadedImages (fst (Preloader.settle i ok st))))
  ∧ (∀ evs, Preloader.abortRef (fst (Preloader.run evs st)) h = true)
  ∧ (∀ g ev, ev ≠ Preloader.EvUnmount g →
             Preloader.abortRef (fst (Preloader.step ev st)) g
             = Preloader.abortRef st g).
Proof.
  intros Ha. split; [|split; [|split]].
  - intros urls. unfold Preloader.preload.
    destruct (Preloader.validUrls st urls); [reflexivity|].
    apply highLoop_aborted, Ha.
  - intros i ok v rest E. rewrite (settle_found i ok st v _ E). cbv zeta.
    rewrite highLoop_aborted by (destruct ok; exact Ha).
    split; [reflexivity|]. intros ->. simpl. apply elem_of_union_l, elem_of_singleton.
    reflexivity.
  - intros evs. apply run_abort_stays, Ha.
  - intros g ev Hev. unfold Preloader.abortRef. rewrite step_aborted.
    destruct ev as [| | | |g']; try reflexivity.
    apply bool_decide_ext. rewrite elem_of_union, elem_of_singleton.
    split; [intros [->|H]; [congruence | exact H] | tauto].
Qed.

Lemma unmount_stops_high_tier_witness :
  let st := fst (Preloader.run
                   [Preloader.EvPreload 0%nat ["p3.webp"; "p4.webp"]%string Preloader.high;
                    Preloader.EvUnmount 0%nat]
                   (Preloader.initial true)) in
  snd (Preloader.settle 0 true st) = []
  ∧ Preloader.preload 0%nat ["p9.webp"]%string Preloader.high st = (st, []).
Proof.
  intros st. destruct (unmount_stops_high_tier 0%nat st) as (P & S & _); [reflexivity|].
  split; [|apply P].
  apply (S 0%nat true "p3.webp"%string ["p4.webp"%string]). reflexivity.
Defined.

(** Opening again after an unmount: the new instance has its own flag, so
    its high tier fetches what the stopped loop of the old one left. *)
Lemma remount_fetches_again :
  let st := fst (Preloader.run
                   [Preloader.EvPreload 0%nat ["p3.webp"; "p4.webp"]%string Preloader.high;
                    Preloader.EvUnmount 0%nat;
                    Preloader.EvSettle 0 true]
                   (Preloader.initial true)) in
  Preloader.isLoaded "p4.webp" st = false
  ∧ snd (Preloader.preload 0%nat ["p4.webp"]%string Preloader.high st) = []
  ∧ snd (Preloader.preload 1%nat ["p4.webp"]%string Preloader.high st)
    = ["p4.webp"]%string.
Proof. vm_compute. repeat split. Qed.

(** ** Preloader: first pages, opening a document, tier sizes *)

Section ViewerPreloadFacts.

Import Preloader PreloaderApi.

Lemma preloadFirstPages_fetches (h : Preloader.Hook) (docs : list (option (list (option string)))) (st : State) :
  snd (preloadFirstPages h docs st)
  = validUrls st (Js.filter_truthy (map firstPage docs)).
Proof.
  unfold preloadFirstPages.
  destruct (Js.filter_truthy (map firstPage docs)) as [|u us] eqn:E; [reflexivity|].
  apply preload_critical_fetches.
Qed.

Lemma filter_truthy_none (l : list (option string)) :
  existsb Js.truthy l = false → Js.filter_truthy l = [].
Proof.
  induction l as [|[s|] l IH]; simpl; [reflexivity | |exact IH].
  destruct (Js.truthy_string s); simpl; [discriminate | exact IH].
Qed.

Lemma hasPrerenderedImages_false (l : list (option string)) :
  ViewerUi.hasPrerenderedImages (Some l) = false → Js.filter_truthy l = [].
Proof.
  unfold ViewerUi.hasPrerenderedImages. intros H.
  apply andb_false_iff in H as [H|H]; [|apply filter_truthy_none, H].
  destruct l; [reflexivity | simpl in H; discriminate].
Qed.

Lemma slice_length {A : Type} (l : list A) (a b : Z) :
  0 ≤ a → 0 ≤ b →
  Z.of_nat (length (Js.slice l a b))
  = Z.max 0 (Z.min b (Z.of_nat (length l)) - Z.min a (Z.of_nat (length l))).
Proof.
  intros Ha Hb. rewrite slice_nonneg by assumption.
  rewrite length_take, length_drop. lia.
Qed.

End ViewerPreloadFacts.

(** X9.  [preloadFirstPages] starts a fetch, within the call, for a URL
    exactly when it is the first page image of one of the documents, is
    neither null nor empty, and is not cached.  Documents without page
    images contribute nothing and no page other than the first is
    fetched. *)
Theorem first_pages_are_preloaded (h : Preloader.Hook)
        (docs : list (option (list (option string)))) (st : Preloader.State)
        (u : string) :
  u ∈ snd (PreloaderApi.preloadFirstPages h docs st)
  ↔ (∃ d, d ∈ docs ∧ PreloaderApi.firstPage d = Some u)
    ∧ u ≠ EmptyString
    ∧ u ∉ Preloader.loadedImages st.
Proof.
  rewrite preloadFirstPages_fetches, elem_of_validUrls, elem_of_filter_truthy.
  rewrite list_elem_of_In, in_map_iff. split.
  - intros ([(d & Hd & Hin) _] & Hne & Hnl).
    split; [exists d; split; [apply list_elem_of_In, Hin | exact Hd]|].
    split; assumption.
  - intros ((d & Hin & Hd) & Hne & Hnl).
    split; [split; [exists d; split; [exact Hd | apply list_elem_of_In, Hin] | exact Hne]|].
    split; assumption.
Qed.

(** X10.  When the viewer opens a document with page images, the preload it
    triggers (from page 1, 2 pages per spread at 1024 px and above, else 1)
    dispatches every page image of the document that is neither null nor
    empty and is not cached yet, and nothing else; a document without any
    usable page image dispatches nothing. *)
Theorem opening_dispatches_whole_document (h : Preloader.Hook)
        (l : list (option string)) (innerWidth : Z) (st : Preloader.State)
        (u : string) :
  Preloader.abortRef st h = false →
  u ∈ Preloader.dispatched st (ViewerUi.openPreload h (Some l) innerWidth st)
  ↔ Some u ∈ l ∧ u ≠ EmptyString ∧ u ∉ Preloader.loadedImages st.
Proof.
  intros Ha. unfold ViewerUi.openPreload.
  destruct (ViewerUi.hasPrerenderedImages (Some l)) eqn:E.
  - rewrite preloadForViewer_dispatched by exact Ha.
    rewrite viewerTiers_concat by (destruct (1024 <=? innerWidth); lia).
    simpl. rewrite drop_0, elem_of_filter_truthy. tauto.
  - rewrite dispatched_nothing. apply hasPrerenderedImages_false in E.
    split; [intros H; inversion H|].
    intros (Hin & Hne & _).
    assert (Hu : u ∈ Js.filter_truthy l) by (apply elem_of_filter_truthy; tauto).
    rewrite E in Hu. inversion Hu.
Qed.

Lemma opening_dispatches_whole_document_witness :
  let l := [Some "p1.webp"; None; Some "p3.webp"]%string in
  "p3.webp"%string
    ∈ Preloader.dispatched (Preloader.initial true)
        (ViewerUi.openPreload 0%nat (Some l) 1280 (Preloader.initial true)).
Proof.
  intros l.
  apply (opening_dispatches_whole_document 0%nat l 1280 (Preloader.initial true));
    [reflexivity|].
  split; [right; right; left|]. split; [discriminate | apply not_elem_of_empty].
Defined.

(** X11.  The tiers of [preloadForViewer] fill up in order.  With [rem] the
    number of usable URLs from position [currentPage - 1] of the filtered
    list on, the critical tier holds [min initialPages rem] of them, the
    high tier the next [min 2] of what is left, the low tier the next
    [min 4], and the idle tier all the rest. *)
Theorem tiers_fill_in_order
        (l : list (option string)) (currentPage initialPages : Z) :
  1 ≤ currentPage → 0 ≤ initialPages →
  let t := Preloader.viewerTiers l currentPage initialPages in
  let rem := Z.max 0 (Z.of_nat (length (Js.filter_truthy l)) - (currentPage - 1)) in
  let c := Z.of_nat (length (Preloader.criticalUrls t)) in
  let h := Z.of_nat (length (Preloader.highUrls t)) in
  let w := Z.of_nat (length (Preloader.lowUrls t)) in
  let i := Z.of_nat (length (Preloader.idleUrls t)) in
  c = Z.min initialPages rem
  ∧ h = Z.min 2 (rem - c)
  ∧ w = Z.min 4 (rem - c - h)
  ∧ i = rem - c - h - w.
Proof.
  intros Hc Hn t rem c h w i.
  set (len := Z.of_nat (length (Js.filter_truthy l))) in *.
  assert (Hlen : 0 ≤ len) by (subst len; lia).
  set (cs := Z.max 0 (currentPage - 1)).
  set (ce := Z.min len (cs + initialPages)).
  set (he := Z.min len (ce + 2)).
  set (le := Z.min len (he + 4)).
  assert (Hcs : cs = currentPage - 1) by (subst cs; lia).
  assert (Hce : ce ≤ len ∧ (cs ≤ len → cs ≤ ce)) by (subst ce; lia).
  assert (Hhe : ce ≤ he ∧ he ≤ len) by (subst he; lia).
  assert (Hle : he ≤ le ∧ le ≤ len) by (subst le; lia).
  assert (Ec : c = Z.max 0 (ce - Z.min cs len)).
  { subst c t. unfold Preloader.viewerTiers. cbv zeta.
    cbn [Preloader.criticalUrls]. fold len. fold cs. fold ce.
    rewrite slice_length by lia. fold len. lia. }
  assert (Eh : h = he - ce).
  { subst h t. unfold Preloader.viewerTiers. cbv zeta.
    cbn [Preloader.highUrls]. fold len. fold cs. fold ce. fold he.
    rewrite slice_length by lia. fold len. lia. }
  assert (Ew : w = le - he).
  { subst w t. unfold Preloader.viewerTiers. cbv zeta.
    cbn [Preloader.lowUrls]. fold len. fold cs. fold ce. fold he. fold le.
    rewrite slice_length by lia. fold len. lia. }
  assert (Ei : i = len - le).
  { subst i t. unfold Preloader.viewerTiers, Js.slice_from. cbv zeta.
    cbn [Preloader.idleUrls]. fold len. fold cs. fold ce. fold he. fold le.
    rewrite slice_length by lia. fold len. lia. }
  assert (Er : rem = Z.max 0 (len - cs)) by (subst rem; rewrite Hcs; reflexivity).
  clearbody c h w i rem.
  assert (Ece : ce = Z.min len (cs + initialPages)) by reflexivity.
  assert (Ehe : he = Z.min len (ce + 2)) by reflexivity.
  assert (Ele : le = Z.min len (he + 4)) by reflexivity.
  clearbody ce he le cs. clear t.
  repeat split; lia.
Qed.

Lemma tiers_fill_in_order_witness :
  let l := map (λ n, Some (String (Ascii.ascii_of_nat (65 + n)) EmptyString)) (seq 0 12) in
  let t := Preloader.viewerTiers l 3 2 in
  (length (Preloader.criticalUrls t), length (Preloader.highUrls t),
   length (Preloader.lowUrls t), length (Preloader.idleUrls t))
  = (2, 2, 4, 2)%nat.
Proof.
  intros l t.
  pose proof (tiers_fill_in_order l 3 2 ltac:(lia) ltac:(lia)) as P.
  cbv zeta in P. fold t in P. destruct P as (C & H & W & I).
  assert (E : Z.of_nat (length (Js.filter_truthy l)) = 12) by reflexivity.
  rewrite E in *.
  assert (Hc : length (Preloader.criticalUrls t) = 2%nat) by lia.
  assert (Hh : length (Preloader.highUrls t) = 2%nat) by lia.
  assert (Hw : length (Preloader.lowUrls t) = 4%nat) by lia.
  assert (Hi : length (Preloader.idleUrls t) = 2%nat) by lia.
  rewrite Hc, Hh, Hw, Hi. reflexivity.
Defined.

(** ** Number helpers *)

Section NumFacts.

Local Open Scope Q_scope.

Lemma jsmax_spec (a b : Q) :
  a <= JsNum.max a b ∧ b <= JsNum.max a b
  ∧ (JsNum.max a b = a ∨ JsNum.max a b = b).
Proof.
  unfold JsNum.max. destruct (Qle_bool a b) eqn:E.
  - apply Qle_bool_iff in E. split; [exact E|]. split; [apply Qle_refl | right; reflexivity].
  - apply Qle_bool_false in E. split; [apply Qle_refl|].
    split; [apply Qlt_le_weak, E | left; reflexivity].
Qed.

Lemma jsmin_spec (a b : Q) :
  JsNum.min a b <= a ∧ JsNum.min a b <= b
  ∧ (JsNum.min a b = a ∨ JsNum.min a b = b).
Proof.
  unfold JsNum.min. destruct (Qle_bool a b) eqn:E.
  - apply Qle_bool_iff in E. split; [apply Qle_refl|]. split; [exact E | left; reflexivity].
  - apply Qle_bool_false in E. split; [apply Qlt_le_weak, E|].
    split; [apply Qle_refl | right; reflexivity].
Qed.

Lemma clamp01_range (v : Q) :
  0 <= JsNum.max 0 (JsNum.min 1 v) ∧ JsNum.max 0 (JsNum.min 1 v) <= 1.
Proof.
  destruct (jsmax_spec 0 (JsNum.min 1 v)) as (H0 & _ & [E|E]).
  - split; [exact H0|]. rewrite E. discriminate.
  - split; [exact H0|]. rewrite E. apply jsmin_spec.
Qed.

Lemma clamp01_id (v : Q) :
  0 <= v → v <= 1 → JsNum.max 0 (JsNum.min 1 v) == v.
Proof.
  intros H0 H1.
  destruct (jsmin_spec 1 v) as (M1 & M2 & [E|E]); rewrite E.
  - rewrite E in M2.
    destruct (jsmax_spec 0 1) as (_ & _ & [E'|E']); rewrite E'; [discriminate E' |].
    apply Qle_antisym; assumption.
  - destruct (jsmax_spec 0 v) as (_ & H & [E'|E']); rewrite E'; [|reflexivity].
    rewrite E' in H. apply Qle_antisym; assumption.
Qed.

End NumFacts.

(** ** Sound player: the pool *)

Section PoolFacts.

Import Sound SoundApi.

Lemma playClip_src (o : Options) (i : Z) (pool : list Audio) :
  map src (playClip o i pool) = map src pool.
Proof.
  unfold playClip. destruct (i <? 0); [reflexivity|].
  destruct (pool !! Z.to_nat i) as [a|] eqn:E; [|reflexivity].
  revert E. generalize (Z.to_nat i). intros n. revert pool.
  induction n as [|n IH]; intros [|b pool] E; simpl in *; try discriminate.
  - injection E as ->. reflexivity.
  - f_equal. apply IH, E.
Qed.

Lemma playFlipSound_builtOnce (hasWindow : bool) (o : Options) (draws : list Q)
      (st : State) (r : Result) :
  poolBuiltOnce st → playFlipSound hasWindow o draws st = Some r →
  poolBuiltOnce (after r).
Proof.
  intros B. unfold playFlipSound.
  destruct (negb (enabled o)); [intros [= <-]; exact B|].
  set (st1 := if negb (loadedRef st) then initAudioPool hasWindow o st else st).
  assert (B1 : poolBuiltOnce st1).
  { subst st1. destruct B as [[L P]|[L P]]; rewrite L; simpl; [|right; split; assumption].
    unfold initAudioPool. rewrite L. simpl.
    destruct hasWindow; simpl; [|left; split; assumption].
    right. split; [reflexivity|]. rewrite P. simpl. reflexivity. }
  destruct (audioPool st1) as [|a pool] eqn:E; [intros [= <-]; exact B1|].
  destruct (pickIndex _ _ _) as [[i rest]|]; [|discriminate].
  intros [= <-]. cbn [after].
  destruct B1 as [[_ P]|[L P]]; [rewrite E in P; discriminate|].
  right. cbn [audioPool loadedRef]. split; [exact L|].
  rewrite playClip_src. rewrite <- E. exact P.
Qed.

Lemma runCalls_builtOnce (hasWindow : bool) (calls : list (Options * list Q))
      (st st' : State) :
  poolBuiltOnce st → runCalls hasWindow calls st = Some st' → poolBuiltOnce st'.
Proof.
  revert st. induction calls as [|[o draws] calls IH]; intros st B; simpl.
  - intros [= <-]. exact B.
  - destruct (playFlipSound hasWindow o draws st) as [r|] eqn:E; [|discriminate].
    apply IH. eapply playFlipSound_builtOnce; eassumption.
Qed.

Lemma playClip_lookup (o : Options) (i : nat) (pool : list Audio) (a : Audio) :
  pool !! i = Some a →
  playClip o (Z.of_nat i) pool !! i
  = Some (mkAudio (src a) (opt_volume o) (playbackRate a) 0%Q (S (plays a)))
  ∧ ∀ j, j ≠ i → playClip o (Z.of_nat i) pool !! j = pool !! j.
Proof.
  intros E. unfold playClip.
  destruct (Z.ltb_spec (Z.of_nat i) 0); [lia|].
  rewrite Nat2Z.id, E. split.
  - apply list_lookup_insert_eq. eapply lookup_lt_Some, E.
  - intros j Hj. apply list_lookup_insert_ne. congruence.
Qed.

End PoolFacts.

(** X12.  The audio pool is built once.  Along any sequence of
    [playFlipSound()] calls from the initial state the pool is either still
    empty or holds exactly one clip per shipped sound, in the order of
    [PAGE_FLIP_SOUNDS]; later calls never add clips. *)
Theorem audio_pool_is_built_once
        (hasWindow : bool) (calls : list (Sound.Options * list Q)) (st : Sound.State) :
  SoundApi.runCalls hasWindow calls Sound.initial = Some st →
  (Sound.audioPool st = [] ∧ Sound.loadedRef st = false)
  ∨ (map Sound.src (Sound.audioPool st) = Sound.PAGE_FLIP_SOUNDS
     ∧ length (Sound.audioPool st) = 3%nat).
Proof.
  intros H.
  destruct (runCalls_builtOnce hasWindow calls Sound.initial st) as [[L P]|[L P]];
    [left; split; reflexivity | exact H | left; split; assumption |].
  right. split; [exact P|]. rewrite <- (length_map Sound.src), P. reflexivity.
Qed.

Lemma audio_pool_is_built_once_witness :
  let o := Sound.mkOptions 0.2 true in
  ∃ st, SoundApi.runCalls true [(o, [0.1]); (o, [0.5]); (o, [0.9; 0.3])]%Q Sound.initial
        = Some st
        ∧ length (Sound.audioPool st) = 3%nat.
Proof.
  intros o. eexists. split; [reflexivity|].
  destruct (audio_pool_is_built_once true [(o, [0.1]); (o, [0.5]); (o, [0.9; 0.3])]%Q _
                                     eq_refl) as [[E _]|[_ E]];
    [discriminate E | exact E].
Defined.

Lemma playFlipSound_selected_clip
        (hasWindow : bool) (o : Sound.Options) (draws : list Q)
        (st : Sound.State) (r : Sound.Result) (i : Z) :
  Sound.loadedRef st = true →
  Forall (λ x, (0 <= x)%Q ∧ (x < 1)%Q) draws →
  Sound.playFlipSound hasWindow o draws st = Some r →
  Sound.selected r = Some i →
  0 ≤ i < Z.of_nat (length (Sound.audioPool st))
  ∧ Sound.lastSoundIndex (Sound.after r) = i
  ∧ (∃ a, Sound.audioPool st !! Z.to_nat i = Some a
          ∧ Sound.audioPool (Sound.after r) !! Z.to_nat i
            = Some (Sound.mkAudio (Sound.src a) (Sound.opt_volume o)
                                  (Sound.playbackRate a) 0%Q (S (Sound.plays a))))
  ∧ (∀ j, j ≠ Z.to_nat i →
          Sound.audioPool (Sound.after r) !! j = Sound.audioPool st !! j).
Proof.
  intros L Hd. unfold Sound.playFlipSound.
  destruct (negb (Sound.enabled o)); [intros [= <-]; discriminate|].
  rewrite L. simpl.
  destruct (Sound.audioPool st) as [|a0 pool0] eqn:E; [intros [= <-]; discriminate|].
  rewrite <- E.
  destruct (Sound.pickIndex draws _ _) as [[k rest]|] eqn:P; [|discriminate].
  intros [= <-]. simpl. intros [= ->].
  assert (R : 0 ≤ i < Z.of_nat (length (Sound.audioPool st))).
  { eapply pickIndex_in_range; [exact Hd | rewrite E; simpl; lia | exact P]. }
  split; [exact R|]. split; [reflexivity|].
  destruct (lookup_lt_is_Some_2 (Sound.audioPool st) (Z.to_nat i)) as [a Ha]; [lia|].
  destruct (playClip_lookup o (Z.to_nat i) _ a Ha) as [H1 H2].
  rewrite Z2Nat.id in H1, H2 by lia.
  split; [exists a; split; assumption | exact H2].
Qed.

(** X13.  [setVolume] clamps: afterwards every clip of the pool has a volume
    between 0 and 1, equal to the requested one when that lies in the
    range.  The setting does not last, though: the next call that plays a
    clip puts the volume of that clip back to the configured one. *)
Theorem set_volume_is_clamped_and_overwritten (v : Q) (st : Sound.State) :
  (∀ a, a ∈ Sound.audioPool (SoundApi.setVolume v st) →
        (0 <= Sound.volume a)%Q ∧ (Sound.volume a <= 1)%Q
        ∧ ((0 <= v)%Q → (v <= 1)%Q → (Sound.volume a == v)%Q))
  ∧ (∀ hasWindow o draws r i,
        Sound.loadedRef st = true →
        Forall (λ x, (0 <= x)%Q ∧ (x < 1)%Q) draws →
        Sound.playFlipSound hasWindow o draws (SoundApi.setVolume v st) = Some r →
        Sound.selected r = Some i →
        ∃ a, Sound.audioPool (Sound.after r) !! Z.to_nat i = Some a
             ∧ Sound.volume a = Sound.opt_volume o).
Proof.
  split.
  - intros a Ha. unfold SoundApi.setVolume in Ha. simpl in Ha.
    apply list_elem_of_In, in_map_iff in Ha as (b & <- & _). simpl.
    destruct (clamp01_range v) as [H0 H1].
    split; [exact H0|]. split; [exact H1 | apply clamp01_id].
  - intros hasWindow o draws r i L Hd Hp Hs.
    destruct (playFlipSound_selected_clip hasWindow o draws (SoundApi.setVolume v st)
                                          r i L Hd Hp Hs)
      as (_ & _ & (a & _ & Ha) & _).
    eexists. split; [exact Ha | reflexivity].
Qed.

Lemma set_volume_is_clamped_and_overwritten_witness :
  let o := Sound.mkOptions 0.2 true in
  let st := SoundApi.setVolume 7 (Sound.initAudioPool true o Sound.initial) in
  Forall (λ a, (Sound.volume a == 1)%Q) (Sound.audioPool st)
  ∧ ∃ r a, Sound.playFlipSound true o [0.5]%Q st = Some r
           ∧ Sound.audioPool (Sound.after r) !! 1%nat = Some a
           ∧ Sound.volume a = 0.2%Q.
Proof.
  intros o st. split; [repeat constructor|].
  destruct (set_volume_is_clamped_and_overwritten
              7 (Sound.initAudioPool true o Sound.initial)) as [_ H].
  assert (E : ∃ r, Sound.playFlipSound true o [0.5]%Q st = Some r
                   ∧ Sound.selected r = Some 1)
    by (eexists; split; reflexivity).
  destruct E as (r & E & Hs).
  destruct (H true o [0.5]%Q r 1) as (a & Ha & Hv);
    [reflexivity | | exact E | exact Hs |].
  - constructor; [split; [discriminate | reflexivity] | constructor].
  - exists r, a. split; [exact E|]. split; assumption.
Defined.

(** ** Viewer: zoom, wheel, progress, layout floor *)

Section ZoomFacts.

Import Viewer ViewerUi.
Local Open Scope Q_scope.

Lemma zoom_in_range (a : ZoomAction) (s : Q) :
  inZoomRange s → inZoomRange (zoom a s).
Proof.
  intros [H0 H1]. unfold inZoomRange. destruct a; simpl.
  - unfold zoomOut. destruct (jsmax_spec 0.5 (s - 0.1)) as (M & _ & [E|E]).
    + split; [exact M|]. rewrite E. discriminate.
    + split; [exact M|]. rewrite E. lra.
  - unfold zoomIn. destruct (jsmin_spec 1.5 (s + 0.1)) as (M & _ & [E|E]).
    + split; [|exact M]. rewrite E. discriminate.
    + split; [|exact M]. rewrite E. lra.
  - split; discriminate.
  - unfold toggleScale. destruct (Qeq_bool s 1); split; discriminate.
Qed.

End ZoomFacts.

(** X14.  The zoom scale never leaves [0.5, 1.5]: starting inside the range
    (it starts at 1), any sequence of zoom-out clicks, zoom-in clicks,
    resets and double taps keeps it inside. *)
Theorem zoom_scale_stays_in_range (actions : list ViewerUi.ZoomAction) (s : Q) :
  ViewerUi.inZoomRange s →
  ViewerUi.inZoomRange (fold_left (λ s a, ViewerUi.zoom a s) actions s).
Proof.
  revert s. induction actions as [|a actions IH]; intros s H; simpl; [exact H|].
  apply IH, zoom_in_range, H.
Qed.

Lemma zoom_scale_stays_in_range_witness :
  ViewerUi.inZoomRange
    (fold_left (λ s a, ViewerUi.zoom a s)
               [ViewerUi.ZoomInClick; ViewerUi.ZoomInClick; ViewerUi.ZoomInClick;
                ViewerUi.ZoomInClick; ViewerUi.ZoomInClick; ViewerUi.ZoomInClick;
                ViewerUi.DoubleTap; ViewerUi.ZoomOutClick]
               (Viewer.scale Viewer.initialGesture)).
Proof.
  apply zoom_scale_stays_in_range. split; discriminate.
Defined.

Section WheelFacts.

Import Viewer ViewerUi.

Lemma handleWheel_flip (hasBook : bool) (windowW now : Z) (deltaY : Q) (lw : Z) :
  let r := handleWheel hasBook windowW now deltaY lw in
  (flip r ≠ None → 1024 ≤ windowW ∧ 300 ≤ now - lw ∧ lastWheelRef r = now)
  ∧ (lastWheelRef r = lw ∨ (lastWheelRef r = now ∧ 300 ≤ now - lw)).
Proof.
  unfold handleWheel.
  destruct (Z.ltb_spec windowW 1024); simpl; [split; [congruence | left; reflexivity]|].
  destruct (Z.ltb_spec (now - lw) 300); simpl; [split; [congruence | left; reflexivity]|].
  split; [intros _; repeat split; lia | right; split; [reflexivity | lia]].
Qed.

Lemma wheelFlips_spaced (hasBook : bool) (evs : list WheelEvent) (lw : Z) :
  spaced 300 (map fst (wheelFlips hasBook evs lw))
  ∧ Forall (λ t, 300 ≤ t - lw) (map fst (wheelFlips hasBook evs lw)).
Proof.
  revert lw. induction evs as [|e evs IH]; intros lw; simpl; [split; [exact I | constructor]|].
  destruct (handleWheel_flip hasBook (ev_windowW e) (ev_now e) (ev_deltaY e) lw)
    as [Hf Hl].
  set (r := handleWheel hasBook (ev_windowW e) (ev_now e) (ev_deltaY e) lw) in *.
  destruct (IH (lastWheelRef r)) as [Sp Fa].
  assert (Fa' : Forall (λ t, 300 ≤ t - lw)
                       (map fst (wheelFlips hasBook evs (lastWheelRef r)))).
  { eapply Forall_impl; [exact Fa|]. simpl. intros t Ht.
    destruct Hl as [E|[E Hg]]; rewrite E in Ht; lia. }
  destruct (flip r) as [f|] eqn:Ef; [|split; assumption].
  destruct Hf as (_ & Hg & El); [discriminate|].
  simpl. split; [|constructor; assumption].
  destruct (map fst (wheelFlips hasBook evs (lastWheelRef r))) as [|t' ts] eqn:Em;
    [exact I|].
  split; [|exact Sp]. inversion Fa as [|? ? Ht' _]; subst. rewrite El in Ht'. exact Ht'.
Qed.

Lemma wheelFlips_mobile (hasBook : bool) (evs : list WheelEvent) (lw : Z) :
  Forall (λ e, ev_windowW e < 1024) evs → wheelFlips hasBook evs lw = [].
Proof.
  induction 1 as [|e evs He _ IH]; simpl; [reflexivity|].
  unfold handleWheel. destruct (Z.ltb_spec (ev_windowW e) 1024); [|lia]. simpl. exact IH.
Qed.

End WheelFacts.

(** X15.  Wheel navigation is debounced: whatever wheel events arrive, two
    page flips caused by the wheel are at least 300 ms apart and the first
    one comes at least 300 ms after the last accepted wheel event; on a
    viewport narrower than 1024 px the wheel never flips a page. *)
Theorem wheel_flips_are_debounced
        (hasBook : bool) (evs : list ViewerUi.WheelEvent) (lastWheel : Z) :
  ViewerUi.spaced 300 (map fst (ViewerUi.wheelFlips hasBook evs lastWheel))
  ∧ Forall (λ t, 300 ≤ t - lastWheel)
           (map fst (ViewerUi.wheelFlips hasBook evs lastWheel))
  ∧ (Forall (λ e, ViewerUi.ev_windowW e < 1024) evs →
     ViewerUi.wheelFlips hasBook evs lastWheel = []).
Proof.
  destruct (wheelFlips_spaced hasBook evs lastWheel) as [S F].
  split; [exact S|]. split; [exact F | apply wheelFlips_mobile].
Qed.

Lemma wheel_flips_are_debounced_witness :
  ViewerUi.wheelFlips true
    [ViewerUi.mkWheelEvent 800 1000 120; ViewerUi.mkWheelEvent 640 1400 120]%Q 0
  = [].
Proof.
  apply (wheel_flips_are_debounced true). repeat constructor.
Defined.

Section ProgressFacts.

Import Viewer ViewerUi.

Lemma Qfloor_lt (x : Q) (z : Z) : Qfloor x < z ↔ (x < inject_Z z)%Q.
Proof.
  split.
  - intros H. eapply Qlt_le_trans; [apply Qlt_floor|].
    rewrite <- Zle_Qle. lia.
  - intros H. rewrite Zlt_Qlt. eapply Qle_lt_trans; [apply Qfloor_le | exact H].
Qed.

Lemma expectedPages_range (numPages : Z) (mode : ViewMode) :
  0 < numPages → 1 ≤ expectedPages numPages mode ≤ 4.
Proof.
  intros H. unfold expectedPages, PRELOAD_AHEAD. destruct mode; simpl; lia.
Qed.

(** Rounded percentage of [n] out of [e], for the sizes that occur. *)
Lemma percent_below_100 (n e : Z) :
  0 ≤ n → 1 ≤ e ≤ 4 →
  (JsNum.round (inject_Z n / inject_Z e * 100)%Q < 100 ↔ n < e).
Proof.
  intros Hn He. unfold JsNum.round. rewrite Qfloor_lt.
  assert (C : e = 1 ∨ e = 2 ∨ e = 3 ∨ e = 4) by lia.
  destruct C as [-> | [-> | [-> | ->]]];
    (unfold Qlt, Qdiv, Qmult, Qplus, Qinv, inject_Z; simpl; lia).
Qed.

Lemma percent_value (n e : Z) :
  0 ≤ n → 1 ≤ e ≤ 4 →
  JsNum.round (inject_Z n / inject_Z e * 100)%Q = (200 * n + e) / (2 * e).
Proof.
  intros Hn He. unfold JsNum.round.
  assert (C : e = 1 ∨ e = 2 ∨ e = 3 ∨ e = 4) by lia.
  destruct C as [-> | [-> | [-> | ->]]];
    (unfold Qfloor, Qdiv, Qmult, Qplus, Qinv, inject_Z; simpl; f_equal; lia).
Qed.

Lemma rendered_on_first_page (mode : ViewMode) (i : Z) :
  shouldRenderPage mode 1 i = true ↔ i ≤ 2.
Proof.
  unfold shouldRenderPage, PRELOAD_AHEAD.
  destruct (Z.ltb_spec i (initialPages mode)) as [H|H].
  - split; [intros _; destruct mode; simpl in H; lia | reflexivity].
  - rewrite Z.leb_le. lia.
Qed.

Lemma size_first_three (loaded : gset Z) :
  (∀ i, i ∈ loaded → 0 ≤ i ≤ 2) → (size loaded ≤ 3)%nat.
Proof.
  intros H.
  assert (S : loaded ⊆ ({[0; 1; 2]} : gset Z)).
  { intros i Hi. specialize (H i Hi).
    assert (C : i = 0 ∨ i = 1 ∨ i = 2) by lia.
    destruct C as [-> | [-> | ->]]; set_solver. }
  apply subseteq_size in S. etransitivity; [exact S|]. vm_compute. lia.
Qed.

End ProgressFacts.

(** X16.  For a document with pages, the load progress of the raw-document
    mode is below 100 exactly while fewer pages have loaded than
    [expectedPages]; so the progress bar, shown only below 100, goes away as
    soon as that many pages have loaded (and stays away when more do).
    Without pages the progress is 0. *)
Theorem progress_completes_at_expected_pages
        (numPages : Z) (mode : Viewer.ViewMode) (loaded : gset Z) :
  (0 < numPages →
   (ViewerUi.loadProgress numPages mode loaded < 100
    ↔ Z.of_nat (size loaded) < ViewerUi.expectedPages numPages mode)
   ∧ (ViewerUi.progressShown false numPages mode loaded = true
      ↔ Z.of_nat (size loaded) < ViewerUi.expectedPages numPages mode))
  ∧ (numPages ≤ 0 → ViewerUi.loadProgress numPages mode loaded = 0).
Proof.
  split.
  - intros Hn.
    assert (P : ViewerUi.loadProgress numPages mode loaded < 100
                ↔ Z.of_nat (size loaded) < ViewerUi.expectedPages numPages mode).
    { unfold ViewerUi.loadProgress. destruct (Z.ltb_spec 0 numPages); [|lia].
      apply percent_below_100; [lia | apply expectedPages_range, Hn]. }
    split; [exact P|]. unfold ViewerUi.progressShown. simpl.
    rewrite andb_true_iff, Z.ltb_lt, Z.ltb_lt. tauto.
  - intros Hn. unfold ViewerUi.loadProgress.
    destruct (Z.ltb_spec 0 numPages); [lia | reflexivity].
Qed.

Lemma progress_completes_at_expected_pages_witness :
  ViewerUi.loadProgress 10 Viewer.single ({[0; 1]} : gset Z) < 100
  ∧ ¬ ViewerUi.loadProgress 10 Viewer.single ({[0; 1; 2; 3; 4]} : gset Z) < 100.
Proof.
  destruct (progress_completes_at_expected_pages 10 Viewer.single {[0; 1]}) as [H _].
  destruct (progress_completes_at_expected_pages 10 Viewer.single {[0; 1; 2; 3; 4]})
    as [H' _].
  split.
  - apply H; [lia|]. vm_compute. reflexivity.
  - intros C. apply H' in C; [|lia]. vm_compute in C. discriminate.
Defined.

(** X17.  In double mode the progress bar cannot complete on the first
    page.  With four pages or more, [expectedPages] is 4 while on page 1
    only the pages at indices 0, 1 and 2 are rendered; as long as only
    rendered pages have loaded the progress is at most 75 and the bar stays
    on screen.  In single mode [expectedPages] is 3 and the same three pages
    bring it to 100. *)
Theorem progress_stalls_on_first_page_in_double_mode
        (numPages : Z) (loaded : gset Z) :
  4 ≤ numPages →
  (∀ i, i ∈ loaded → 0 ≤ i ∧ Viewer.shouldRenderPage Viewer.double 1 i = true) →
  ViewerUi.loadProgress numPages Viewer.double loaded ≤ 75
  ∧ ViewerUi.progressShown false numPages Viewer.double loaded = true
  ∧ ViewerUi.loadProgress numPages Viewer.single ({[0; 1; 2]} : gset Z) = 100.
Proof.
  intros Hn Hl.
  assert (Hs : (size loaded ≤ 3)%nat).
  { apply size_first_three. intros i Hi. destruct (Hl i Hi) as [H0 Hr].
    apply rendered_on_first_page in Hr. lia. }
  assert (E : ViewerUi.expectedPages numPages Viewer.double = 4)
    by (unfold ViewerUi.expectedPages, Viewer.PRELOAD_AHEAD; simpl; lia).
  assert (P : ViewerUi.loadProgress numPages Viewer.double loaded
              = (200 * Z.of_nat (size loaded) + 4) / 8).
  { unfold ViewerUi.loadProgress. destruct (Z.ltb_spec 0 numPages); [|lia].
    rewrite E. apply (percent_value _ 4); lia. }
  split; [|split].
  - rewrite P.
    assert ((200 * Z.of_nat (size loaded) + 4) / 8 < 76)
      by (apply Z.div_lt_upper_bound; lia).
    lia.
  - unfold ViewerUi.progressShown. simpl. rewrite P.
    apply andb_true_iff. split; [|apply Z.ltb_lt; lia].
    apply Z.ltb_lt. apply Z.div_lt_upper_bound; lia.
  - unfold ViewerUi.loadProgress. destruct (Z.ltb_spec 0 numPages); [|lia].
    assert (E1 : ViewerUi.expectedPages numPages Viewer.single = 3)
      by (unfold ViewerUi.expectedPages, Viewer.PRELOAD_AHEAD; simpl; lia).
    rewrite E1. reflexivity.
Qed.

Lemma progress_stalls_on_first_page_in_double_mode_witness :
  ViewerUi.loadProgress 12 Viewer.double ({[0; 1; 2]} : gset Z) ≤ 75.
Proof.
  apply (progress_stalls_on_first_page_in_double_mode 12 {[0; 1; 2]}); [lia|].
  intros i Hi.
  rewrite !elem_of_union, !elem_of_singleton in Hi.
  destruct Hi as [[-> | ->] | ->]; split; (lia || reflexivity).
Defined.

Section FloorFacts.

Local Open Scope Q_scope.


End FloorFacts.

(** ** Document store: rows and identifiers *)

Section RowFacts.

Import Convex.

Lemma map_fmap {A B : Type} (f : A → B) (l : list A) : map f l = f <$> l.
Proof. reflexivity. Qed.

Lemma getDoc_elem (db : Db) (id : Id) (d : Doc) :
  getDoc db id = Some d → d ∈ documents db ∧ _id d = id.
Proof.
  unfold getDoc. intros H. apply find_some in H as [Hin He].
  split; [apply list_elem_of_In, Hin | apply Nat.eqb_eq, He].
Qed.

Lemma getDoc_None (db : Db) (id : Id) :
  getDoc db id = None ↔ id ∉ map _id (documents db).
Proof.
  unfold getDoc. induction (documents db) as [|d r IH]; simpl.
  - split; [intros _ H; inversion H | reflexivity].
  - rewrite not_elem_of_cons. destruct (Nat.eqb_spec (_id d) id) as [E|E].
    + split; [discriminate | intros [H _]; congruence].
    + rewrite IH. split; [intros H; split; [congruence | exact H] | tauto].
Qed.

Lemma getDoc_is_Some (db : Db) (id : Id) :
  is_Some (getDoc db id) ↔ id ∈ map _id (documents db).
Proof.
  destruct (getDoc db id) as [d|] eqn:E.
  - split; [intros _ | eauto].
    apply getDoc_elem in E as [Hin <-]. rewrite map_fmap.
    apply list_elem_of_fmap. eauto.
  - apply getDoc_None in E. split; [intros [? ?]; discriminate | tauto].
Qed.

(** With unique identifiers a row is found by its identifier. *)
Lemma getDoc_unique (db : Db) (d : Doc) :
  NoDup (map _id (documents db)) → d ∈ documents db → getDoc db (_id d) = Some d.
Proof.
  unfold getDoc. induction (documents db) as [|x r IH]; simpl; intros Hnd Hin.
  - inversion Hin.
  - apply NoDup_cons in Hnd as [Hx Hr].
    destruct (Nat.eqb_spec (_id x) (_id d)) as [E|E].
    + apply elem_of_cons in Hin as [->|Hin]; [reflexivity|].
      exfalso. apply Hx. rewrite E, map_fmap. apply list_elem_of_fmap. eauto.
    + apply elem_of_cons in Hin as [->|Hin]; [congruence|]. apply IH; assumption.
Qed.

Lemma patchDoc_None (id : Id) (f : Doc → Doc) (l : list Doc) :
  patchDoc id f l = None ↔ id ∉ map _id l.
Proof.
  induction l as [|d r IH]; simpl.
  - split; [intros _ H; inversion H | reflexivity].
  - rewrite not_elem_of_cons. destruct (Nat.eqb_spec (_id d) id) as [E|E].
    + split; [discriminate | intros [H _]; congruence].
    + destruct (patchDoc id f r); simpl.
      * split; [discriminate | intros [_ H]; apply IH in H; discriminate].
      * split; [intros _; split; [congruence | apply IH; reflexivity] | reflexivity].
Qed.

Lemma patchDoc_ids (id : Id) (f : Doc → Doc) (l l' : list Doc) :
  (∀ d, _id (f d) = _id d) → patchDoc id f l = Some l' → map _id l' = map _id l.
Proof.
  intros Hf. revert l'. induction l as [|d r IH]; intros l'; simpl; [discriminate|].
  destruct (Nat.eqb (_id d) id).
  - intros [= <-]. simpl. rewrite Hf. reflexivity.
  - destruct (patchDoc id f r) as [r'|]; simpl; [|discriminate].
    intros [= <-]. simpl. rewrite (IH r' eq_refl). reflexivity.
Qed.

(** The row found by [ctx.db.get] is the one [ctx.db.patch] rewrites; the
    others, and the order of the rows, stay. *)
Lemma patchDoc_found (db : Db) (id : Id) (f : Doc → Doc) (d : Doc) :
  getDoc db id = Some d →
  ∃ l1 l2, documents db = l1 ++ d :: l2
           ∧ (id ∉ map _id l1)
           ∧ patchDoc id f (documents db) = Some (l1 ++ f d :: l2).
Proof.
  unfold getDoc. induction (documents db) as [|x r IH]; simpl; [discriminate|].
  destruct (Nat.eqb_spec (_id x) id) as [E|E].
  - intros [= ->]. exists [], r. repeat split. intros H; inversion H.
  - intros H. destruct (IH H) as (l1 & l2 & -> & Hn & Hp).
    exists (x :: l1), l2. rewrite Hp. repeat split.
    simpl. rewrite not_elem_of_cons. split; [congruence | exact Hn].
Qed.

Lemma find_skip (id : Id) (l1 l2 : list Doc) :
  id ∉ map _id l1 →
  List.find (λ d, Nat.eqb (_id d) id) (l1 ++ l2)
  = List.find (λ d, Nat.eqb (_id d) id) l2.
Proof.
  induction l1 as [|x r IH]; simpl; [reflexivity|].
  rewrite not_elem_of_cons. intros [Hx Hr].
  destruct (Nat.eqb_spec (_id x) id); [congruence | apply IH, Hr].
Qed.

Lemma find_snoc_other (j : Id) (d : Doc) (l : list Doc) :
  _id d ≠ j →
  List.find (λ x, Nat.eqb (_id x) j) (l ++ [d])
  = List.find (λ x, Nat.eqb (_id x) j) l.
Proof.
  intros Hd. induction l as [|x r IH]; simpl.
  - destruct (Nat.eqb_spec (_id d) j); [congruence | reflexivity].
  - rewrite IH. reflexivity.
Qed.

Lemma find_other (id j : Id) (f : Doc → Doc) (d : Doc) (l1 l2 : list Doc) :
  _id d = id → _id (f d) = id → j ≠ id →
  List.find (λ x, Nat.eqb (_id x) j) (l1 ++ f d :: l2)
  = List.find (λ x, Nat.eqb (_id x) j) (l1 ++ d :: l2).
Proof.
  intros Hd Hf Hj. induction l1 as [|x r IH]; simpl.
  - rewrite Hd, Hf. destruct (Nat.eqb_spec id j); [congruence | reflexivity].
  - rewrite IH. reflexivity.
Qed.

Lemma patchDoc_twice (id : Id) (f g : Doc → Doc) (d : Doc) (l1 l2 : list Doc) :
  id ∉ map _id l1 → _id (f d) = id →
  patchDoc id g (l1 ++ f d :: l2) = Some (l1 ++ g (f d) :: l2).
Proof.
  intros Hn Hf. induction l1 as [|x r IH]; simpl.
  - rewrite Hf, Nat.eqb_refl. reflexivity.
  - simpl in Hn. rewrite not_elem_of_cons in Hn. destruct Hn as [Hx Hr].
    destruct (Nat.eqb_spec (_id x) id); [congruence|]. rewrite (IH Hr). reflexivity.
Qed.

Lemma setActive_back (d : Doc) :
  setActive (negb (active (setActive (negb (active d)) d)))
            (setActive (negb (active d)) d) = d.
Proof. destruct d as [? ? ? ? ? ? a ? ?]. unfold setActive. simpl. rewrite negb_involutive. reflexivity. Qed.

Lemma withDocuments_same (db : Db) : withDocuments db (documents db) = db.
Proof. destruct db; reflexivity. Qed.

Lemma toggleActive_found (db : Db) (id : Id) (d : Doc) :
  getDoc db id = Some d →
  ∃ l1 l2, documents db = l1 ++ d :: l2
           ∧ (id ∉ map _id l1)
           ∧ toggleActive id db
             = withDocuments db (l1 ++ setActive (negb (active d)) d :: l2).
Proof.
  intros H. unfold toggleActive. rewrite H.
  destruct (patchDoc_found db id (setActive (negb (active d))) d H)
    as (l1 & l2 & E & Hn & Hp).
  exists l1, l2. rewrite Hp. repeat split; assumption.
Qed.

Lemma toggleActive_twice (id : Id) (db : Db) :
  toggleActive id (toggleActive id db) = db.
Proof.
  destruct (getDoc db id) as [d|] eqn:H.
  - pose proof (getDoc_elem _ _ _ H) as [_ Hid].
    destruct (toggleActive_found db id d H) as (l1 & l2 & E & Hn & ->).
    set (d1 := setActive (negb (active d)) d).
    assert (H1 : getDoc (withDocuments db (l1 ++ d1 :: l2)) id = Some d1).
    { unfold getDoc. simpl. rewrite find_skip by exact Hn. simpl.
      rewrite Hid, Nat.eqb_refl. reflexivity. }
    unfold toggleActive at 1. rewrite H1. cbn [withDocuments documents].
    rewrite (patchDoc_twice id (setActive (negb (active d))) _ d l1 l2 Hn Hid).
    fold d1. unfold d1 at 2 3. rewrite setActive_back. simpl.
    unfold withDocuments. simpl. rewrite <- E. destruct db; reflexivity.
  - unfold toggleActive. rewrite H. unfold toggleActive. rewrite H. reflexivity.
Qed.

(** *** Identifiers *)

Lemma saveDocument_wellFormed (t : string) (c s : Id) (p : option (list Id))
      (today : string) (now : Z) (db : Db) :
  Store.wellFormed db → Store.wellFormed (fst (saveDocument t c s p today now db)).
Proof.
  unfold Store.wellFormed. intros [Hnd Hlt]. simpl. split.
  - rewrite map_app. apply NoDup_app. split; [exact Hnd|]. split.
    + intros x Hx Hin. simpl in Hin. apply list_elem_of_singleton in Hin. subst x.
      rewrite map_fmap in Hx. apply list_elem_of_fmap in Hx as (d & E & Hd).
      rewrite Forall_forall in Hlt. specialize (Hlt d Hd). lia.
    + simpl. apply NoDup_singleton.
  - apply Forall_app. split.
    + eapply Forall_impl; [exact Hlt|]. simpl. intros; lia.
    + constructor; [simpl; lia | constructor].
Qed.

Lemma patchDoc_wellFormed (db : Db) (id : Id) (f : Doc → Doc) (l' : list Doc) :
  (∀ d, _id (f d) = _id d) → Store.wellFormed db →
  patchDoc id f (documents db) = Some l' → Store.wellFormed (withDocuments db l').
Proof.
  unfold Store.wellFormed. intros Hf [Hnd Hlt] Hp. simpl. split.
  - rewrite (patchDoc_ids _ _ _ _ Hf Hp). exact Hnd.
  - eapply (patchDoc_Forall (λ d, (_id d < nextId db)%nat)); [|exact Hlt|exact Hp].
    intros d Hd. simpl. rewrite Hf. exact Hd.
Qed.

Lemma reorderFrom_ids (ids : list Id) (index : Z) (l l' : list Doc) :
  reorderFrom index ids l = Some l' → map _id l' = map _id l.
Proof.
  revert index l. induction ids as [|id ids IH]; intros index l; simpl.
  - intros [= <-]. reflexivity.
  - destruct (patchDoc id (setOrder index) l) as [l1|] eqn:Hp; [|discriminate].
    intros H. rewrite (IH _ _ H). eapply patchDoc_ids; [|exact Hp]. reflexivity.
Qed.

Lemma Forall_ids (n : nat) (l l' : list Doc) :
  map _id l' = map _id l →
  Forall (λ d, (_id d < n)%nat) l → Forall (λ d, (_id d < n)%nat) l'.
Proof.
  intros E H. apply Forall_forall. intros d Hd.
  assert (Hin : _id d ∈ map _id l).
  { rewrite <- E, map_fmap. apply list_elem_of_fmap. eauto. }
  rewrite map_fmap in Hin. apply list_elem_of_fmap in Hin as (x & -> & Hx).
  rewrite Forall_forall in H. apply H, Hx.
Qed.

(** Every mutation of [documents.ts] keeps the identifiers unique. *)
Lemma applyMutation_wellFormed (m : Mutation) (db : Db) :
  Store.wellFormed db → Store.wellFormed (applyMutation m db).
Proof.
  intros H. destruct m as [t c s p today now|i t c|i|ids|i]; simpl.
  - apply saveDocument_wellFormed, H.
  - unfold updateDocument, commit.
    destruct (patchDoc _ _ _) as [l'|] eqn:Hp; [|exact H].
    eapply patchDoc_wellFormed; [|exact H|exact Hp]. reflexivity.
  - unfold toggleActive, commit. destruct (getDoc db i); [|exact H].
    destruct (patchDoc _ _ _) as [l'|] eqn:Hp; [|exact H].
    eapply patchDoc_wellFormed; [|exact H|exact Hp]. reflexivity.
  - unfold reorder, commit.
    destruct (reorderFrom _ _ _) as [l'|] eqn:Hp; [|exact H].
    destruct H as [Hnd Hlt]. split; simpl.
    + rewrite (reorderFrom_ids _ _ _ _ Hp). exact Hnd.
    + eapply Forall_ids; [|exact Hlt]. eapply reorderFrom_ids, Hp.
  - unfold deleteDocument. destruct (getDoc db i); [|exact H].
    destruct H as [Hnd Hlt]. split; simpl.
    + rewrite map_fmap. apply (NoDup_fmap_2_strong _id).
      * intros x y Hx Hy E. apply list_elem_of_In, filter_In in Hx as [Hx _].
        apply list_elem_of_In, filter_In in Hy as [Hy _].
        apply list_elem_of_In in Hx, Hy.
        pose proof (getDoc_unique db x Hnd Hx) as Gx.
        pose proof (getDoc_unique db y Hnd Hy) as Gy.
        rewrite E in Gx. congruence.
      * apply NoDup_ListNoDup, List.NoDup_filter, NoDup_ListNoDup.
        eapply NoDup_fmap_1. rewrite <- map_fmap. exact Hnd.
    + apply Forall_forall. intros x Hx.
      apply list_elem_of_In, filter_In in Hx as [Hx _].
      rewrite Forall_forall in Hlt. apply Hlt, list_elem_of_In, Hx.
Qed.

Lemma reachable_wellFormed (ms : list Mutation) :
  Store.wellFormed (fold_left (λ db m, applyMutation m db) ms emptyDb).
Proof.
  assert (G : ∀ db, Store.wellFormed db →
                    Store.wellFormed (fold_left (λ db m, applyMutation m db) ms db)).
  { induction ms as [|m ms IH]; intros db H; simpl; [exact H|].
    apply IH, applyMutation_wellFormed, H. }
  apply G. split; constructor.
Qed.

End RowFacts.

(** ** The [by_order] index as a sort *)

Section IndexFacts.

Import Convex.

Lemma insertByOrder_perm (d : Doc) (l : list Doc) : insertByOrder d l ≡ₚ d :: l.
Proof.
  induction l as [|x r IH]; simpl; [reflexivity|].
  destruct (order d <=? order x); [reflexivity|].
  rewrite IH. apply Permutation_swap.
Qed.

Lemma byOrder_perm (l : list Doc) : byOrder l ≡ₚ l.
Proof.
  unfold byOrder. induction l as [|d r IH]; simpl; [reflexivity|].
  rewrite insertByOrder_perm, IH. reflexivity.
Qed.

Lemma insertByOrder_sorted (d : Doc) (l : list Doc) :
  StronglySorted (λ a b, order a ≤ order b) l →
  StronglySorted (λ a b, order a ≤ order b) (insertByOrder d l).
Proof.
  induction 1 as [|x r Hr IH Hx]; simpl.
  - constructor; constructor.
  - destruct (Z.leb_spec (order d) (order x)) as [Hle|Hlt].
    + constructor; [constructor; assumption|].
      constructor; [exact Hle|]. eapply Forall_impl; [exact Hx|].
      simpl. intros; lia.
    + constructor; [exact IH|]. apply Forall_forall. intros y Hy.
      apply elem_of_insertByOrder in Hy as [->|Hy]; [lia|].
      rewrite Forall_forall in Hx. apply Hx, Hy.
Qed.

Lemma byOrder_sorted (l : list Doc) :
  StronglySorted (λ a b, order a ≤ order b) (byOrder l).
Proof.
  unfold byOrder. induction l as [|d r IH]; simpl; [constructor|].
  apply insertByOrder_sorted, IH.
Qed.

Lemma insertByOrder_key (k : Z) (d : Doc) (l : list Doc) :
  List.filter (λ x, order x =? k) (insertByOrder d l)
  = List.filter (λ x, order x =? k) (d :: l).
Proof.
  induction l as [|x r IH]; [reflexivity|].
  cbn [insertByOrder]. destruct (Z.leb_spec (order d) (order x)) as [Hle|Hlt];
    [reflexivity|].
  cbn [List.filter] in *. rewrite IH.
  destruct (Z.eqb_spec (order d) k), (Z.eqb_spec (order x) k); try reflexivity. lia.
Qed.

(** Rows with the same key keep their creation order. *)
Lemma byOrder_key (k : Z) (l : list Doc) :
  List.filter (λ x, order x =? k) (byOrder l) = List.filter (λ x, order x =? k) l.
Proof.
  unfold byOrder. induction l as [|d r IH]; [reflexivity|].
  cbn [fold_right]. rewrite insertByOrder_key. cbn [List.filter]. rewrite IH.
  reflexivity.
Qed.

Lemma insertByOrder_head (d : Doc) (l : list Doc) :
  Forall (λ x, order d ≤ order x) l → insertByOrder d l = d :: l.
Proof.
  destruct 1 as [|x r Hx _]; simpl; [reflexivity|].
  destruct (Z.leb_spec (order d) (order x)); [reflexivity | lia].
Qed.

Lemma insertByOrder_filter (f : Doc → bool) (d : Doc) (l : list Doc) :
  StronglySorted (λ a b, order a ≤ order b) l →
  List.filter f (insertByOrder d l)
  = if f d then insertByOrder d (List.filter f l) else List.filter f l.
Proof.
  induction 1 as [|x r Hr IH Hx]; simpl.
  - destruct (f d); reflexivity.
  - destruct (Z.leb_spec (order d) (order x)) as [Hle|Hlt].
    + simpl. destruct (f d) eqn:Fd; [|reflexivity].
      destruct (f x) eqn:Fx.
      * simpl. destruct (Z.leb_spec (order d) (order x)); [reflexivity | lia].
      * symmetry. apply insertByOrder_head. apply Forall_forall. intros y Hy.
        apply list_elem_of_In, filter_In in Hy as [Hy _].
        rewrite Forall_forall in Hx. specialize (Hx y (proj2 (list_elem_of_In _ _) Hy)).
        simpl in Hx. lia.
    + simpl. rewrite IH. destruct (f x) eqn:Fx, (f d) eqn:Fd; try reflexivity.
      simpl. destruct (Z.leb_spec (order d) (order x)); [lia | reflexivity].
Qed.

(** Filtering the rows and reading the index commute. *)
Lemma byOrder_filter (f : Doc → bool) (l : list Doc) :
  byOrder (List.filter f l) = List.filter f (byOrder l).
Proof.
  induction l as [|d r IH]; [reflexivity|].
  change (byOrder (d :: r)) with (insertByOrder d (byOrder r)).
  rewrite insertByOrder_filter by apply byOrder_sorted.
  cbn [List.filter]. destruct (f d); [|exact IH].
  change (byOrder (d :: List.filter f r))
    with (insertByOrder d (byOrder (List.filter f r))).
  rewrite IH. reflexivity.
Qed.

Lemma insertByOrder_Forall2 (R : Doc → Doc → Prop) (d d' : Doc) (l l' : list Doc) :
  (∀ x y, R x y → order x = order y) →
  R d d' → Forall2 R l l' → Forall2 R (insertByOrder d l) (insertByOrder d' l').
Proof.
  intros HR Hd. induction 1 as [|x y r r' Hxy Hr IH]; simpl.
  - constructor; [exact Hd | constructor].
  - rewrite <- (HR _ _ Hd), <- (HR _ _ Hxy).
    destruct (order d <=? order x).
    + constructor; [exact Hd|]. constructor; assumption.
    + constructor; [exact Hxy | exact IH].
Qed.

(** Rewriting rows without touching their keys does not move them in the
    index. *)
Lemma byOrder_Forall2 (R : Doc → Doc → Prop) (l l' : list Doc) :
  (∀ x y, R x y → order x = order y) →
  Forall2 R l l' → Forall2 R (byOrder l) (byOrder l').
Proof.
  intros HR. unfold byOrder. induction 1 as [|x y r r' Hxy Hr IH]; simpl;
    [constructor|].
  apply insertByOrder_Forall2; assumption.
Qed.

End IndexFacts.

(** ** [reorder] *)

Section ReorderFacts.

Import Convex.

Lemma Forall2_compose {A B C : Type} (R1 : A → B → Prop) (R2 : B → C → Prop)
      (R : A → C → Prop) (l1 : list A) (l2 : list B) (l3 : list C) :
  (∀ x y z, R1 x y → R2 y z → R x z) →
  Forall2 R1 l1 l2 → Forall2 R2 l2 l3 → Forall2 R l1 l3.
Proof.
  intros H H1. revert l3. induction H1 as [|x y r1 r2 Hxy _ IH]; intros l3 H2.
  - inversion H2. constructor.
  - inversion H2 as [|y' z r2' r3 Hyz Hr]; subst. constructor; eauto.
Qed.

(** An identifier that is not in the table makes the whole call fail, also
    when identifiers before it were found. *)
Lemma reorderFrom_missing (ids : list Id) (index : Z) (docs : list Doc) (x : Id) :
  x ∈ ids → x ∉ map _id docs → reorderFrom index ids docs = None.
Proof.
  revert index docs. induction ids as [|id ids IH]; intros index docs Hin Hx.
  - inversion Hin.
  - simpl. destruct (patchDoc id (setOrder index) docs) as [docs1|] eqn:Hp;
      [|reflexivity].
    destruct (decide (x = id)) as [->|Hne].
    + apply (patchDoc_None id (setOrder index)) in Hx. congruence.
    + apply elem_of_cons in Hin as [->|Hin]; [congruence|].
      apply IH; [exact Hin|].
      rewrite (patchDoc_ids id (setOrder index) docs docs1 (λ d, eq_refl) Hp). exact Hx.
Qed.

Lemma patchDoc_Forall2 (id : Id) (f : Doc → Doc) (docs : list Doc) :
  NoDup (map _id docs) → id ∈ map _id docs →
  ∃ docs1, patchDoc id f docs = Some docs1
           ∧ Forall2 (λ d d1, d1 = if Nat.eqb (_id d) id then f d else d) docs docs1.
Proof.
  induction docs as [|d r IH]; simpl; intros Hnd Hin; [inversion Hin|].
  apply NoDup_cons in Hnd as [Hd Hr].
  destruct (Nat.eqb_spec (_id d) id) as [E|E].
  - exists (f d :: r). split; [reflexivity|]. constructor.
    + rewrite <- E, Nat.eqb_refl. reflexivity.
    + apply Forall_Forall2_diag, Forall_forall. intros y Hy.
      destruct (Nat.eqb_spec (_id y) id) as [E'|_]; [|reflexivity].
      exfalso. apply Hd. rewrite E, <- E', map_fmap. apply list_elem_of_fmap. eauto.
  - apply elem_of_cons in Hin as [->|Hin]; [congruence|].
    destruct (IH Hr Hin) as (r1 & -> & H2). exists (d :: r1). split; [reflexivity|].
    constructor; [|exact H2]. destruct (Nat.eqb_spec (_id d) id); [congruence | reflexivity].
Qed.

(** With distinct identifiers that all exist, [reorder] gives the document
    named at position [n] the key [index + n] and touches nothing else. *)
Lemma reorderFrom_spec (ids : list Id) :
  NoDup ids → ∀ (index : Z) (docs : list Doc),
  NoDup (map _id docs) → (∀ x, x ∈ ids → x ∈ map _id docs) →
  ∃ docs', reorderFrom index ids docs = Some docs'
           ∧ Forall2 (λ d d', d' = setOrder (order d') d
                              ∧ (∀ n, ids !! n = Some (_id d) →
                                      order d' = index + Z.of_nat n)
                              ∧ (_id d ∉ ids → d' = d)) docs docs'.
Proof.
  induction 1 as [|id ids Hid Hnd IH]; intros index docs Hdocs Hall.
  - exists docs. split; [reflexivity|]. apply Forall_Forall2_diag, Forall_forall.
    intros d _. split; [destruct d; reflexivity|]. split; [|reflexivity].
    intros n Hn. rewrite lookup_nil in Hn. discriminate.
  - destruct (patchDoc_Forall2 id (setOrder index) docs Hdocs) as (docs1 & Hp & H1).
    { apply Hall. left. }
    assert (Eids : map _id docs1 = map _id docs).
    { eapply patchDoc_ids; [|exact Hp]. reflexivity. }
    destruct (IH (index + 1) docs1) as (docs' & Hr & H2).
    { rewrite Eids. exact Hdocs. }
    { intros x Hx. rewrite Eids. apply Hall. right. exact Hx. }
    exists docs'. split; [simpl; rewrite Hp; exact Hr|].
    eapply Forall2_compose; [|exact H1|exact H2].
    intros d d1 d' -> (Hd' & Hpos & Hrest).
    destruct (Nat.eqb_spec (_id d) id) as [E|E].
    + assert (Ed' : d' = setOrder index d) by (apply Hrest; simpl; rewrite E; exact Hid).
      subst d'. split; [reflexivity|]. split.
      * intros [|n] Hn; simpl; [lia|]. simpl in Hn. exfalso. apply Hid.
        rewrite <- E. eapply list_elem_of_lookup_2, Hn.
      * intros Hn. exfalso. apply Hn. rewrite E. left.
    + split; [exact Hd'|]. split.
      * intros [|n] Hn; simpl in Hn; [congruence|].
        rewrite (Hpos n Hn). lia.
      * intros Hn. apply Hrest. intros Hin. apply Hn. right. exact Hin.
Qed.

Lemma seq_sorted (n s : nat) : StronglySorted le (seq s n).
Proof.
  revert s. induction n as [|n IH]; intros s; simpl; constructor; [apply IH|].
  apply Forall_forall. intros x Hx. apply elem_of_seq in Hx. lia.
Qed.

(** A sorted list of rows whose keys are the positions of their identifiers
    in [ids] lists the identifiers as [ids] does. *)
Lemma sorted_by_position (ids : list Id) (L : list Doc) :
  NoDup ids → NoDup (map _id L) →
  (∀ x, x ∈ ids → x ∈ map _id L) →
  Forall (λ d, ∃ n, ids !! n = Some (_id d) ∧ order d = Z.of_nat n) L →
  StronglySorted (λ a b, order a ≤ order b) L →
  map _id L = ids.
Proof.
  intros Hids HL Hall Hpos Hsorted.
  set (key := λ d : Doc, Z.to_nat (order d)).
  assert (Hkey : ∀ d, d ∈ L → ids !! key d = Some (_id d)).
  { intros d Hd. rewrite Forall_forall in Hpos. destruct (Hpos d Hd) as (n & Hn & Ho).
    unfold key. rewrite Ho, Nat2Z.id. exact Hn. }
  assert (Hperm : key <$> L ≡ₚ seq 0 (length ids)).
  { apply NoDup_Permutation.
    - apply NoDup_fmap_2_strong; [|eapply NoDup_fmap_1; rewrite <- map_fmap; exact HL].
      intros x y Hx Hy E. apply Hkey in Hx as Kx. apply Hkey in Hy as Ky.
      rewrite E in Kx. rewrite Kx in Ky. injection Ky as Ky.
      pose proof (getDoc_unique (mkDb L [] 0%nat) x HL Hx) as Gx.
      pose proof (getDoc_unique (mkDb L [] 0%nat) y HL Hy) as Gy.
      rewrite Ky in Gx. congruence.
    - apply NoDup_seq.
    - intros n. rewrite elem_of_seq, list_elem_of_fmap. split.
      + intros (d & -> & Hd). apply Hkey in Hd. apply lookup_lt_Some in Hd. lia.
      + intros [_ Hn]. destruct (lookup_lt_is_Some_2 ids n) as [x Hx]; [lia|].
        pose proof (Hall x (list_elem_of_lookup_2 _ _ _ Hx)) as Hin.
        rewrite map_fmap in Hin. apply list_elem_of_fmap in Hin as (d & -> & Hd).
        exists d. split; [|exact Hd].
        eapply NoDup_lookup; [exact Hids | exact Hx | apply Hkey, Hd]. }
  assert (Hseq : key <$> L = seq 0 (length ids)).
  { apply (StronglySorted_unique le); [| |exact Hperm].
    - eapply StronglySorted_fmap; [|exact Hsorted]. unfold key. simpl. intros; lia.
    - apply seq_sorted. }
  apply list_eq. intros i. rewrite map_fmap, list_lookup_fmap.
  destruct (L !! i) as [d|] eqn:Hd; simpl.
  - assert (Hi : key d = i).
    { assert (Hk : (key <$> L) !! i = Some (key d)) by (rewrite list_lookup_fmap, Hd; reflexivity).
      rewrite Hseq in Hk. apply lookup_seq in Hk as [-> _]. reflexivity. }
    rewrite <- Hi. symmetry. apply Hkey. eapply list_elem_of_lookup_2, Hd.
  - symmetry. apply lookup_ge_None. apply lookup_ge_None in Hd.
    apply (f_equal length) in Hseq. rewrite length_fmap, length_seq in Hseq. lia.
Qed.

End ReorderFacts.

(** ** Listings after a mutation *)

Section ListingFacts.

Import Convex.

Lemma filter_ids (id : Id) (l : list Doc) :
  map _id (List.filter (λ d, negb (Nat.eqb (_id d) id)) l)
  = List.filter (λ x, negb (Nat.eqb x id)) (map _id l).
Proof.
  induction l as [|d r IH]; simpl; [reflexivity|].
  destruct (Nat.eqb (_id d) id); simpl; rewrite IH; reflexivity.
Qed.

Lemma find_filter_other (id j : Id) (l : list Doc) :
  j ≠ id →
  List.find (λ d, Nat.eqb (_id d) j) (List.filter (λ d, negb (Nat.eqb (_id d) id)) l)
  = List.find (λ d, Nat.eqb (_id d) j) l.
Proof.
  intros Hj. induction l as [|d r IH]; simpl; [reflexivity|].
  destruct (Nat.eqb_spec (_id d) id) as [E|E]; simpl.
  - destruct (Nat.eqb_spec (_id d) j); [congruence | exact IH].
  - rewrite IH. reflexivity.
Qed.

Lemma find_filter_same (id : Id) (l : list Doc) :
  List.find (λ d, Nat.eqb (_id d) id) (List.filter (λ d, negb (Nat.eqb (_id d) id)) l)
  = None.
Proof.
  induction l as [|d r IH]; simpl; [reflexivity|].
  destruct (Nat.eqb (_id d) id) eqn:E; simpl; [exact IH|]. rewrite E. exact IH.
Qed.

Lemma filter_absent (id : Id) (l : list Id) :
  id ∉ l → List.filter (λ x, negb (Nat.eqb x id)) l = l.
Proof.
  induction l as [|x r IH]; simpl; [reflexivity|].
  rewrite not_elem_of_cons. intros [Hx Hr].
  destruct (Nat.eqb_spec x id); [congruence|]. simpl. rewrite (IH Hr). reflexivity.
Qed.

Lemma byOrder_ids_perm (l : list Doc) : map _id (byOrder l) ≡ₚ map _id l.
Proof. rewrite !map_fmap, byOrder_perm. reflexivity. Qed.

(** The listing after a [reorder] that names every document once. *)
Lemma reorder_listing (ids : list Id) (db : Db) :
  NoDup (map _id (documents db)) → NoDup ids →
  (∀ x, x ∈ ids ↔ x ∈ map _id (documents db)) →
  ∃ docs', reorder ids db = withDocuments db docs'
           ∧ map _id (byOrder docs') = ids
           ∧ map _id docs' = map _id (documents db)
           ∧ Forall2 (λ d d', ∃ n, ids !! n = Some (_id d)
                                   ∧ d' = setOrder (Z.of_nat n) d)
                     (documents db) docs'.
Proof.
  intros Hdocs Hids Hall.
  destruct (reorderFrom_spec ids Hids 0 (documents db) Hdocs) as (docs' & Hr & H2).
  { intros x Hx. apply Hall, Hx. }
  pose proof (reorderFrom_ids _ _ _ _ Hr) as Eids.
  assert (H3 : Forall2 (λ d d', ∃ n, ids !! n = Some (_id d)
                                      ∧ d' = setOrder (Z.of_nat n) d)
                       (documents db) docs').
  { apply Forall2_same_length_lookup. split; [eapply Forall2_length, H2|].
    intros i d d' Hd Hd'.
    destruct (Forall2_lookup_lr _ _ _ _ _ _ H2 Hd Hd') as (E & Hpos & _).
    assert (Hi : _id d ∈ ids).
    { apply Hall. rewrite map_fmap. apply list_elem_of_fmap. exists d.
      split; [reflexivity | eapply list_elem_of_lookup_2, Hd]. }
    apply list_elem_of_lookup in Hi as [n Hn]. exists n.
    split; [exact Hn|]. rewrite E, (Hpos n Hn). reflexivity. }
  exists docs'. split; [unfold reorder; rewrite Hr; reflexivity|].
  split; [|split; [exact Eids | exact H3]].
  apply sorted_by_position.
  - exact Hids.
  - rewrite map_fmap, byOrder_perm, <- map_fmap, Eids. exact Hdocs.
  - intros x Hx. rewrite map_fmap, byOrder_perm, <- map_fmap, Eids. apply Hall, Hx.
  - apply Forall_forall. intros d' Hd'. apply (proj1 (elem_of_byOrder _ _)) in Hd'.
    apply list_elem_of_lookup in Hd' as [i Hi].
    destruct (Forall2_lookup_r _ _ _ _ _ H3 Hi) as (d & _ & n & Hn & ->).
    exists n. split; [exact Hn | reflexivity].
  - apply byOrder_sorted.
Qed.

End ListingFacts.

(** ** Public list after a toggle *)

Section VisibilityFacts.

Import Convex.

Lemma publiclyVisible_categories (db db' : Db) (d : Doc) :
  categories db' = categories db → publiclyVisible db' d = publiclyVisible db d.
Proof. unfold publiclyVisible, getCategory. intros ->. reflexivity. Qed.

(** The rows around the one that was found have other identifiers. *)
Lemma found_others (id : Id) (d : Doc) (l1 l2 : list Doc) :
  NoDup (map _id (l1 ++ d :: l2)) → _id d = id →
  Forall (λ y, _id y ≠ id) (l1 ++ l2).
Proof.
  rewrite map_app. simpl. intros Hnd Hid.
  apply NoDup_app in Hnd as (_ & H1 & H2). apply NoDup_cons in H2 as [H2 _].
  apply Forall_app. split; apply Forall_forall; intros y Hy E.
  - apply (H1 (_id y)); [rewrite map_fmap; apply list_elem_of_fmap; eauto|].
    rewrite E, Hid. left.
  - apply H2. rewrite Hid, <- E, map_fmap. apply list_elem_of_fmap. eauto.
Qed.

Lemma hidden_filter (db : Db) (id : Id) (L L' : list Doc) :
  Forall2 (λ x y, (_id x ≠ id ∧ y = x)
                  ∨ (_id x = id ∧ y = setActive false x)) L L' →
  List.filter (publiclyVisible db) L'
  = List.filter (λ x, negb (Nat.eqb (_id x) id)) (List.filter (publiclyVisible db) L)
  ∧ map _id L' = map _id L.
Proof.
  induction 1 as [|x y r r' Hxy _ [IH1 IH2]]; [split; reflexivity|].
  simpl. rewrite IH2. destruct Hxy as [[Hne ->]|[He ->]].
  - split; [|reflexivity]. destruct (publiclyVisible db x); [|exact IH1].
    simpl. destruct (Nat.eqb_spec (_id x) id); [congruence|]. simpl.
    rewrite IH1. reflexivity.
  - split; [|reflexivity].
    assert (Hv : publiclyVisible db (setActive false x) = false) by reflexivity.
    rewrite Hv. destruct (publiclyVisible db x); [|exact IH1].
    simpl. rewrite He, Nat.eqb_refl. exact IH1.
Qed.

(** *** Categories *)

Lemma getCategory_elem (db : Db) (id : Id) (c : Category) :
  getCategory db id = Some c → cat_id c = id.
Proof.
  unfold getCategory. intros H. apply find_some in H as [_ He].
  apply Nat.eqb_eq, He.
Qed.

Lemma patchCategory_found (cats : list Category) (id : Id)
      (f : Category → Category) (c : Category) :
  List.find (λ c, Nat.eqb (cat_id c) id) cats = Some c →
  ∃ l1 l2, cats = l1 ++ c :: l2
           ∧ Forall (λ x, cat_id x ≠ id) l1
           ∧ Store.patchCategory id f cats = Some (l1 ++ f c :: l2).
Proof.
  induction cats as [|x r IH]; simpl; [discriminate|].
  destruct (Nat.eqb_spec (cat_id x) id) as [E|E].
  - intros [= ->]. exists [], r. repeat split. constructor.
  - intros H. destruct (IH H) as (l1 & l2 & -> & Hn & Hp).
    exists (x :: l1), l2. rewrite Hp. repeat split. constructor; assumption.
Qed.

Lemma find_category_patched (id j : Id) (c c' : Category) (l1 l2 : list Category) :
  Forall (λ x, cat_id x ≠ id) l1 → cat_id c = id → cat_id c' = id →
  List.find (λ x, Nat.eqb (cat_id x) j) (l1 ++ c' :: l2)
  = if Nat.eqb id j then Some c'
    else List.find (λ x, Nat.eqb (cat_id x) j) (l1 ++ c :: l2).
Proof.
  intros Hn Hc Hc'. induction Hn as [|x r Hx _ IH]; simpl.
  - rewrite Hc, Hc'. destruct (Nat.eqb id j); reflexivity.
  - rewrite IH. destruct (Nat.eqb_spec (cat_id x) j) as [E|E]; [|reflexivity].
    destruct (Nat.eqb_spec id j); [congruence | reflexivity].
Qed.

Lemma toggleCategoryActive_found (db : Db) (id : Id) (c : Category) :
  getCategory db id = Some c →
  ∃ l1 l2, categories db = l1 ++ c :: l2
           ∧ Forall (λ x, cat_id x ≠ id) l1
           ∧ Store.toggleCategoryActive id db
             = mkDb (documents db)
                    (l1 ++ Store.setCategoryActive (negb (cat_active c)) c :: l2)
                    (nextId db).
Proof.
  intros H. unfold Store.toggleCategoryActive. rewrite H.
  destruct (patchCategory_found (categories db) id
              (Store.setCategoryActive (negb (cat_active c))) c H)
    as (l1 & l2 & E & Hn & Hp).
  exists l1, l2. rewrite Hp. repeat split; assumption.
Qed.

Lemma patchCategory_again (id : Id) (g : Category → Category) (c : Category)
      (l1 l2 : list Category) :
  Forall (λ x, cat_id x ≠ id) l1 → cat_id c = id →
  Store.patchCategory id g (l1 ++ c :: l2) = Some (l1 ++ g c :: l2).
Proof.
  intros Hn Hc. induction Hn as [|x r Hx _ IH]; simpl.
  - rewrite Hc, Nat.eqb_refl. reflexivity.
  - destruct (Nat.eqb_spec (cat_id x) id); [congruence|]. rewrite IH. reflexivity.
Qed.

Lemma filter_andb {A : Type} (p q : A → bool) (l : list A) :
  List.filter (λ x, p x && q x) l = List.filter q (List.filter p l).
Proof.
  induction l as [|x r IH]; simpl; [reflexivity|].
  destruct (p x); simpl; [destruct (q x); rewrite IH; reflexivity | exact IH].
Qed.

End VisibilityFacts.

(** ** Removing a category *)

Section CategoryFacts.

Import Convex.

Lemma removeRejected_spec (id : Id) (db : Db) :
  Store.removeRejected id db = true ↔ ∃ d, d ∈ documents db ∧ categoryId d = id.
Proof.
  unfold Store.removeRejected, Store.documentsOf.
  induction (documents db) as [|x r IH]; simpl.
  - split; [discriminate | intros (d & Hd & _); inversion Hd].
  - destruct (Nat.eqb_spec (categoryId x) id) as [E|E].
    + split; [intros _; exists x; split; [left | exact E]|].
      intros _. simpl. apply Z.ltb_lt. lia.
    + rewrite IH. split.
      * intros (d & Hd & Hc). exists d. split; [right; exact Hd | exact Hc].
      * intros (d & Hd & Hc). apply elem_of_cons in Hd as [->|Hd]; [congruence|].
        exists d. split; assumption.
Qed.

Lemma find_category_removed (id j : Id) (cats : list Category) :
  List.find (λ c, Nat.eqb (cat_id c) j)
            (List.filter (λ c, negb (Nat.eqb (cat_id c) id)) cats)
  = if Nat.eqb j id then None else List.find (λ c, Nat.eqb (cat_id c) j) cats.
Proof.
  induction cats as [|x r IH]; simpl; [destruct (Nat.eqb j id); reflexivity|].
  destruct (Nat.eqb_spec (cat_id x) id) as [E|E]; simpl.
  - rewrite IH. destruct (Nat.eqb_spec j id) as [Ej|Ej]; [reflexivity|].
    destruct (Nat.eqb_spec (cat_id x) j); [congruence | reflexivity].
  - rewrite IH. destruct (Nat.eqb_spec (cat_id x) j) as [Ex|Ex]; [|reflexivity].
    destruct (Nat.eqb_spec j id); [congruence | reflexivity].
Qed.

End CategoryFacts.

(** ** Upload and drag in the admin screens *)

Section AdminFacts.

Import Convex.

Lemma uploadPage_ok (run : Admin.UploadRun) (i : nat) (img : Id) :
  Admin.uploadPage run i = inr img ↔ Admin.pageUploaded (Admin.page run i) img.
Proof.
  unfold Admin.uploadPage, Admin.pageUploaded.
  destruct (Admin.page run i) as [b u r]. cbn [Admin.blob Admin.imgUploadUrl Admin.imgResult].
  destruct b as [[]|], u as [[]|], r as [[o js]|]; simpl;
    try (split; [discriminate|intros (B & U & R); discriminate]).
  destruct o, js as [x|]; simpl;
    try (split; [discriminate|intros (B & U & R); discriminate]).
  split.
  - intros [= ->]. repeat split.
  - intros (_ & _ & [= ->]). reflexivity.
Qed.

(** What a failing page reports: its own number, and a response that is
    not ok when the error is the thrown one. *)
Lemma uploadPage_failed (run : Admin.UploadRun) (i : nat) (e : Admin.UploadError) :
  Admin.uploadPage run i = inl e →
  (e = Admin.PageUploadFailed i
   ∧ Admin.blob (Admin.page run i) = Admin.Resolved tt
   ∧ Admin.imgUploadUrl (Admin.page run i) = Admin.Resolved tt
   ∧ ∃ j, Admin.imgResult (Admin.page run i)
          = Admin.Resolved (Admin.mkResponse false j))
  ∨ e = Admin.Rejection (Admin.RenderPage i)
  ∨ e = Admin.Rejection (Admin.PageUploadUrl i)
  ∨ e = Admin.Rejection (Admin.PageFetch i)
  ∨ e = Admin.Rejection (Admin.PageJson i).
Proof.
  unfold Admin.uploadPage.
  destruct (Admin.page run i) as [b u r]. cbn [Admin.blob Admin.imgUploadUrl Admin.imgResult].
  destruct b as [[]|], u as [[]|], r as [[o js]|]; simpl;
    try (intros [= <-]; tauto).
  destruct o; simpl.
  - destruct js; simpl; [discriminate|]. intros [= <-]. tauto.
  - intros [= <-]. left. repeat split. now exists js.
Qed.

Lemma uploadPages_ok (run : Admin.UploadRun) (n i : nat) (acc ids : list Id) :
  Admin.uploadPages run n i acc = inr ids →
  ∃ new, ids = acc ++ new ∧ length new = n
         ∧ ∀ j img, new !! j = Some img →
                    Admin.pageUploaded (Admin.page run (i + j)) img.
Proof.
  revert i acc. induction n as [|n IH]; intros i acc; simpl.
  - intros [= <-]. exists []. rewrite app_nil_r.
    split; [reflexivity|]. split; [reflexivity|].
    intros j img H. destruct j; discriminate.
  - destruct (Admin.uploadPage run i) as [e|img0] eqn:P; simpl; [discriminate|].
    intros H. destruct (IH _ _ H) as (new & -> & L & A). exists (img0 :: new).
    rewrite <- app_assoc. split; [reflexivity|]. split; [simpl; lia|].
    intros [|j] img Hj.
    + injection Hj as <-. rewrite Nat.add_0_r. now apply uploadPage_ok.
    + replace (i + S j)%nat with (S i + j)%nat by lia. now apply A.
Qed.

Lemma uploadPages_complete (run : Admin.UploadRun) (new : list Id) (i : nat) (acc : list Id) :
  (∀ j img, new !! j = Some img → Admin.pageUploaded (Admin.page run (i + j)) img) →
  Admin.uploadPages run (length new) i acc = inr (acc ++ new).
Proof.
  revert i acc. induction new as [|img0 new IH]; intros i acc A; simpl.
  - now rewrite app_nil_r.
  - assert (P : Admin.uploadPage run i = inr img0).
    { apply uploadPage_ok. specialize (A 0%nat img0 eq_refl).
      now rewrite Nat.add_0_r in A. }
    rewrite P. simpl. rewrite IH; [now rewrite <- app_assoc|].
    intros j img Hj. replace (S i + j)%nat with (i + S j)%nat by lia. now apply A.
Qed.

Lemma uploadPages_failed (run : Admin.UploadRun) (n i : nat) (acc : list Id)
      (e : Admin.UploadError) :
  Admin.uploadPages run n i acc = inl e →
  ∃ k, (i ≤ k < i + n)%nat ∧ Admin.uploadPage run k = inl e
       ∧ ∀ m, (i ≤ m < k)%nat → ∃ img, Admin.pageUploaded (Admin.page run m) img.
Proof.
  revert i acc. induction n as [|n IH]; intros i acc; simpl.
  - discriminate.
  - destruct (Admin.uploadPage run i) as [e'|img0] eqn:P; simpl.
    + intros [= <-]. exists i. split; [lia|]. split; [exact P|]. intros m Hm. lia.
    + intros H. destruct (IH _ _ H) as (k & Hk & Pk & A). exists k.
      split; [lia|]. split; [exact Pk|].
      intros m Hm. destruct (decide (m = i)) as [->|Hne].
      * exists img0. now apply uploadPage_ok.
      * apply A. lia.
Qed.

Lemma findIndex_Some (id : Id) (l : list Doc) (i : nat) :
  Admin.findIndex id l = Some i → ∃ d, l !! i = Some d ∧ _id d = id.
Proof.
  revert i. induction l as [|x r IH]; intros i; simpl; [discriminate|].
  destruct (Nat.eqb_spec (_id x) id) as [E|E].
  - intros [= <-]. exists x. split; [reflexivity | exact E].
  - destruct (Admin.findIndex id r) as [n|]; simpl; [|discriminate].
    intros [= <-]. apply IH. reflexivity.
Qed.

Lemma findIndex_is_Some (id : Id) (l : list Doc) :
  id ∈ map _id l → is_Some (Admin.findIndex id l).
Proof.
  induction l as [|x r IH]; simpl; intros Hin; [inversion Hin|].
  destruct (Nat.eqb_spec (_id x) id) as [E|E]; [eauto|].
  apply elem_of_cons in Hin as [->|Hin]; [congruence|].
  destruct (IH Hin) as [n ->]. simpl. eauto.
Qed.

Lemma moveItem_perm {A : Type} (i j : nat) (l : list A) : Admin.moveItem i j l ≡ₚ l.
Proof.
  unfold Admin.moveItem. destruct (l !! i) as [x|] eqn:Hx; [|reflexivity].
  rewrite <- Permutation_middle, take_drop.
  rewrite <- (take_drop_middle l i x Hx) at 3.
  rewrite <- Permutation_middle. reflexivity.
Qed.

Lemma moveItem_lookup {A : Type} (i j : nat) (l : list A) (x : A) :
  l !! i = Some x → (j < length l)%nat → Admin.moveItem i j l !! j = Some x.
Proof.
  intros Hx Hj. unfold Admin.moveItem. rewrite Hx.
  assert (Hi : (i < length l)%nat) by (eapply lookup_lt_Some, Hx).
  assert (Hlen : length (take i l ++ drop (S i) l) = (length l - 1)%nat).
  { rewrite length_app, length_take, length_drop. lia. }
  rewrite lookup_app_r; rewrite length_take, Hlen; [|lia].
  replace (j - j `min` (length l - 1))%nat with 0%nat by lia. reflexivity.
Qed.

Lemma moveItem_fmap {A B : Type} (f : A → B) (i j : nat) (l : list A) :
  f <$> Admin.moveItem i j l = Admin.moveItem i j (f <$> l).
Proof.
  unfold Admin.moveItem. rewrite list_lookup_fmap.
  destruct (l !! i) as [x|]; simpl; [|reflexivity].
  rewrite fmap_app, fmap_cons, !fmap_take, !fmap_drop, fmap_app, fmap_take, fmap_drop.
  reflexivity.
Qed.

End AdminFacts.

(** ** Document store: lookups after a mutation *)

(** X19.  In a table with unique identifiers below the next fresh one (every
    table built by the mutations is one), the identifier [saveDocument]
    returns was not in use, looking it up afterwards gives the new record,
    every other lookup is unchanged, and the identifiers are still unique. *)
Theorem saved_document_is_found
        (t : string) (c s : Convex.Id) (p : option (list Convex.Id))
        (today : string) (now : Z) (db : Convex.Db) :
  Store.wellFormed db →
  Convex.getDoc db (snd (Convex.saveDocument t c s p today now db)) = None
  ∧ Convex.getDoc (fst (Convex.saveDocument t c s p today now db))
                  (snd (Convex.saveDocument t c s p today now db))
    = Some (Convex.mkDoc (Convex.nextId db) t c today s p true
                         (Convex.maxOrder (Convex.documents db) + 1) now)
  ∧ (∀ j, j ≠ snd (Convex.saveDocument t c s p today now db) →
          Convex.getDoc (fst (Convex.saveDocument t c s p today now db)) j
          = Convex.getDoc db j)
  ∧ Store.wellFormed (fst (Convex.saveDocument t c s p today now db)).
Proof.
  intros H.
  assert (Hfresh : Convex.nextId db ∉ map Convex._id (Convex.documents db)).
  { destruct H as [_ Hlt]. intros Hin. rewrite map_fmap in Hin.
    apply list_elem_of_fmap in Hin as (d & E & Hd).
    rewrite Forall_forall in Hlt. specialize (Hlt d Hd). simpl in Hlt. lia. }
  split; [apply getDoc_None, Hfresh|]. split; [|split].
  - unfold Convex.getDoc. simpl. rewrite find_skip by exact Hfresh. simpl.
    rewrite Nat.eqb_refl. reflexivity.
  - simpl. intros j Hj. unfold Convex.getDoc. simpl.
    apply find_snoc_other. simpl. congruence.
  - apply saveDocument_wellFormed, H.
Qed.

Lemma saved_document_is_found_witness :
  Convex.getDoc (fst (Convex.saveDocument "a" 1%nat 2%nat None "d" 5 Convex.emptyDb)) 0%nat
  = Some (Convex.mkDoc 0%nat "a" 1%nat "d" 2%nat None true 1 5).
Proof.
  assert (W : Store.wellFormed Convex.emptyDb) by (split; constructor).
  exact (proj1 (proj2 (saved_document_is_found "a" 1%nat 2%nat None "d" 5 Convex.emptyDb W))).
Defined.

(** X21.  [toggleActive] only flips the flag of the document it names, and
    calling it twice gives back the table it started from; naming a
    document that does not exist changes nothing. *)
Theorem document_toggle_twice_restores (id : Convex.Id) (db : Convex.Db) :
  Convex.toggleActive id (Convex.toggleActive id db) = db
  ∧ (∀ d, Convex.getDoc db id = Some d →
          Convex.getDoc (Convex.toggleActive id db) id
          = Some (Convex.setActive (negb (Convex.active d)) d))
  ∧ (∀ j, j ≠ id →
          Convex.getDoc (Convex.toggleActive id db) j = Convex.getDoc db j).
Proof.
  split; [apply toggleActive_twice|]. split.
  - intros d H. pose proof (getDoc_elem _ _ _ H) as [_ Hid].
    destruct (toggleActive_found db id d H) as (l1 & l2 & E & Hn & ->).
    unfold Convex.getDoc. simpl. rewrite find_skip by exact Hn. simpl.
    rewrite Hid, Nat.eqb_refl. reflexivity.
  - intros j Hj. destruct (Convex.getDoc db id) as [d|] eqn:H.
    + pose proof (getDoc_elem _ _ _ H) as [_ Hid].
      destruct (toggleActive_found db id d H) as (l1 & l2 & E & Hn & ->).
      unfold Convex.getDoc. simpl. rewrite E.
      apply (find_other id j); [exact Hid | exact Hid | exact Hj].
    + unfold Convex.toggleActive. rewrite H. reflexivity.
Qed.

(** X22.  [deleteDocument] removes the document it names and nothing else:
    the identifier is no longer found, every other lookup is unchanged, and
    the admin listing is the old one without that identifier, in the same
    order. *)
Theorem delete_removes_only_that_document (id : Convex.Id) (db : Convex.Db) :
  Convex.getDoc (Convex.deleteDocument id db) id = None
  ∧ (∀ j, j ≠ id →
          Convex.getDoc (Convex.deleteDocument id db) j = Convex.getDoc db j)
  ∧ Store.listedIds (Convex.deleteDocument id db)
    = List.filter (λ x, negb (Nat.eqb x id)) (Store.listedIds db).
Proof.
  unfold Convex.deleteDocument, Store.listedIds.
  destruct (Convex.getDoc db id) as [d|] eqn:H.
  - split; [apply find_filter_same|]. split.
    + intros j Hj. apply find_filter_other, Hj.
    + simpl. rewrite byOrder_filter. apply filter_ids.
  - split; [exact H|]. split; [reflexivity|].
    symmetry. apply filter_absent. apply getDoc_None in H.
    intros Hin. apply H. rewrite map_fmap in *.
    rewrite <- (byOrder_perm (Convex.documents db)). exact Hin.
Qed.

(** X23.  When the identifiers are unique and [ids] names every document
    exactly once, after [reorder ids] the admin listing shows the documents
    in exactly the order of [ids]; each document got the position of its
    identifier as its key and kept all its other fields. *)
Theorem reorder_sets_listing_order (ids : list Convex.Id) (db : Convex.Db) :
  NoDup (map Convex._id (Convex.documents db)) → NoDup ids →
  (∀ x, x ∈ ids ↔ x ∈ map Convex._id (Convex.documents db)) →
  Store.listedIds (Convex.reorder ids db) = ids
  ∧ ∀ id d, Convex.getDoc db id = Some d →
            ∃ n, ids !! n = Some id
                 ∧ Convex.getDoc (Convex.reorder ids db) id
                   = Some (Convex.setOrder (Z.of_nat n) d).
Proof.
  intros Hdocs Hids Hall.
  destruct (reorder_listing ids db Hdocs Hids Hall) as (docs' & -> & EL & Eids & H2).
  split; [exact EL|]. intros id d H.
  apply getDoc_elem in H as [Hin <-].
  apply list_elem_of_lookup in Hin as [i Hi].
  destruct (Forall2_lookup_l _ _ _ _ _ H2 Hi) as (d' & Hd' & n & Hn & ->).
  exists n. split; [exact Hn|].
  change (Convex._id d) with (Convex._id (Convex.setOrder (Z.of_nat n) d)).
  apply getDoc_unique; simpl; [rewrite Eids; exact Hdocs|].
  eapply list_elem_of_lookup_2, Hd'.
Qed.

Lemma reorder_sets_listing_order_witness :
  Store.listedIds
    (Convex.reorder [1%nat; 0%nat]
       (Convex.mkDb [Convex.mkDoc 0%nat "a" 0%nat "d" 0%nat None true 1 0;
                     Convex.mkDoc 1%nat "b" 0%nat "d" 0%nat None true 2 0] [] 2%nat))
  = [1%nat; 0%nat].
Proof.
  refine (proj1 (reorder_sets_listing_order [1%nat; 0%nat]
    (Convex.mkDb [Convex.mkDoc 0%nat "a" 0%nat "d" 0%nat None true 1 0;
                  Convex.mkDoc 1%nat "b" 0%nat "d" 0%nat None true 2 0] [] 2%nat) _ _ _)).
  - apply (bool_decide_unpack _). vm_compute. exact I.
  - apply (bool_decide_unpack _). vm_compute. exact I.
  - intros x. simpl. rewrite !elem_of_cons. split; intros [->|[->|H]]; auto; inversion H.
Defined.

(** X24.  A mutation that names a document that does not exist leaves the
    table as it was.  For [reorder] this holds as soon as one of the
    identifiers is missing, also when the ones before it were found: no
    key is changed then. *)
Theorem missing_document_changes_nothing (id : Convex.Id) (db : Convex.Db) :
  Convex.getDoc db id = None →
  (∀ t c, Convex.updateDocument id t c db = db)
  ∧ Convex.toggleActive id db = db
  ∧ Convex.deleteDocument id db = db
  ∧ (∀ ids, id ∈ ids → Convex.reorder ids db = db).
Proof.
  intros H. split; [|split; [|split]].
  - intros t c. unfold Convex.updateDocument.
    apply getDoc_None in H.
    rewrite (proj2 (patchDoc_None id (Convex.setTitleCategory t c) _) H). reflexivity.
  - unfold Convex.toggleActive. rewrite H. reflexivity.
  - unfold Convex.deleteDocument. rewrite H. reflexivity.
  - intros ids Hin. unfold Convex.reorder. apply getDoc_None in H.
    rewrite (reorderFrom_missing ids 0 _ id Hin H). reflexivity.
Qed.

Lemma missing_document_changes_nothing_witness :
  Convex.reorder [0%nat; 7%nat]
    (Convex.mkDb [Convex.mkDoc 0%nat "a" 0%nat "d" 0%nat None true 5 0] [] 1%nat)
  = Convex.mkDb [Convex.mkDoc 0%nat "a" 0%nat "d" 0%nat None true 5 0] [] 1%nat.
Proof.
  refine (proj2 (proj2 (proj2 (missing_document_changes_nothing 7%nat
    (Convex.mkDb [Convex.mkDoc 0%nat "a" 0%nat "d" 0%nat None true 5 0] [] 1%nat) _))) _ _).
  - reflexivity.
  - right. left.
Defined.

(** X25.  The admin listing returns every document exactly once, in
    ascending order of the key; documents with the same key come in the
    order in which they were created. *)
Theorem admin_listing_sorted_and_stable
        (getUrl : Convex.Id → option string) (db : Convex.Db) :
  map Convex.doc (Convex.listDocuments getUrl db) ≡ₚ Convex.documents db
  ∧ StronglySorted (λ a b, Convex.order a ≤ Convex.order b)
                   (map Convex.doc (Convex.listDocuments getUrl db))
  ∧ ∀ k, List.filter (λ d, Convex.order d =? k)
                     (map Convex.doc (Convex.listDocuments getUrl db))
         = List.filter (λ d, Convex.order d =? k) (Convex.documents db).
Proof.
  assert (E : map Convex.doc (Convex.listDocuments getUrl db)
              = Convex.byOrder (Convex.documents db)).
  { unfold Convex.listDocuments. rewrite map_map. simpl. apply map_id. }
  rewrite E. split; [apply byOrder_perm|]. split; [apply byOrder_sorted|].
  intros k. apply byOrder_key.
Qed.

(** ** Public list after a toggle *)

(** X26.  With unique identifiers, switching an active document off removes
    exactly that document from the public list: the list afterwards is the
    old one without it, the others in the same order.  The admin listing
    keeps its order. *)
Theorem deactivated_document_leaves_public_list
        (getUrl : Convex.Id → option string)
        (id : Convex.Id) (d : Convex.Doc) (db : Convex.Db) :
  NoDup (map Convex._id (Convex.documents db)) →
  Convex.getDoc db id = Some d → Convex.active d = true →
  map Convex.doc (Convex.listActiveDocuments getUrl (Convex.toggleActive id db))
  = List.filter (λ x, negb (Nat.eqb (Convex._id x) id))
                (map Convex.doc (Convex.listActiveDocuments getUrl db))
  ∧ Store.listedIds (Convex.toggleActive id db) = Store.listedIds db.
Proof.
  intros Hnd H Ha. pose proof (getDoc_elem _ _ _ H) as [_ Hid].
  destruct (toggleActive_found db id d H) as (l1 & l2 & E & Hn & ->).
  rewrite Ha in *. simpl negb.
  assert (HF : Forall2 (λ x y, (Convex._id x ≠ id ∧ y = x)
                               ∨ (Convex._id x = id ∧ y = Convex.setActive false x))
                       (Convex.documents db) (l1 ++ Convex.setActive false d :: l2)).
  { rewrite E in Hnd |- *. apply found_others with (id := id) in Hnd; [|exact Hid].
    apply Forall_app in Hnd as [H1 H2].
    assert (D : ∀ l, Forall (λ y, Convex._id y ≠ id) l →
                     Forall2 (λ x y, (Convex._id x ≠ id ∧ y = x)
                                     ∨ (Convex._id x = id ∧ y = Convex.setActive false x))
                             l l).
    { intros l Hl. apply Forall_Forall2_diag. eapply Forall_impl; [exact Hl|].
      simpl. intros x Hx. left. split; [exact Hx | reflexivity]. }
    apply Forall2_app; [apply D, H1|]. constructor; [|apply D, H2].
    right. split; [exact Hid | reflexivity]. }
  apply byOrder_Forall2 in HF.
  2:{ intros x y [[_ ->]|[_ ->]]; reflexivity. }
  destruct (hidden_filter db id _ _ HF) as [E1 E2].
  unfold Store.listedIds. cbn [Convex.withDocuments Convex.documents].
  split; [|exact E2].
  unfold Convex.listActiveDocuments. rewrite !activeViews_filter.
  cbn [Convex.withDocuments Convex.documents]. rewrite <- E1.
  apply filter_ext. intros x. apply publiclyVisible_categories. reflexivity.
Qed.

Lemma deactivated_document_leaves_public_list_witness :
  map Convex.doc
      (Convex.listActiveDocuments (λ _, None)
         (Convex.toggleActive 0%nat
            (Convex.mkDb [Convex.mkDoc 0%nat "a" 0%nat "d" 0%nat None true 1 0]
                         [Convex.mkCategory 0%nat "c" true 0] 1%nat)))
  = [].
Proof.
  refine (proj1 (deactivated_document_leaves_public_list (λ _, None) 0%nat
    (Convex.mkDoc 0%nat "a" 0%nat "d" 0%nat None true 1 0)
    (Convex.mkDb [Convex.mkDoc 0%nat "a" 0%nat "d" 0%nat None true 1 0]
                 [Convex.mkCategory 0%nat "c" true 0] 1%nat) _ _ _)).
  - apply (bool_decide_unpack _). vm_compute. exact I.
  - reflexivity.
  - reflexivity.
Defined.

(** X27.  Switching an active category off removes exactly the documents of
    that category from the public list, the others staying in the same
    order; the documents themselves are untouched, and switching the
    category on again gives back the table. *)
Theorem deactivated_category_hides_its_documents
        (getUrl : Convex.Id → option string)
        (id : Convex.Id) (c : Convex.Category) (db : Convex.Db) :
  Convex.getCategory db id = Some c → Convex.cat_active c = true →
  map Convex.doc
      (Convex.listActiveDocuments getUrl (Store.toggleCategoryActive id db))
  = List.filter (λ d, negb (Nat.eqb (Convex.categoryId d) id))
                (map Convex.doc (Convex.listActiveDocuments getUrl db))
  ∧ Convex.documents (Store.toggleCategoryActive id db) = Convex.documents db
  ∧ Store.toggleCategoryActive id (Store.toggleCategoryActive id db) = db.
Proof.
  intros H Ha. pose proof (getCategory_elem _ _ _ H) as Hid.
  destruct (toggleCategoryActive_found db id c H) as (l1 & l2 & E & Hn & ->).
  rewrite Ha. simpl negb. set (c' := Store.setCategoryActive false c).
  assert (G : ∀ j, Convex.getCategory
                     (Convex.mkDb (Convex.documents db) (l1 ++ c' :: l2)
                                  (Convex.nextId db)) j
                   = if Nat.eqb id j then Some c' else Convex.getCategory db j).
  { intros j. unfold Convex.getCategory. simpl. rewrite E.
    apply find_category_patched; [exact Hn | exact Hid | exact Hid]. }
  split; [|split].
  - unfold Convex.listActiveDocuments. rewrite !activeViews_filter.
    cbn [Convex.documents]. rewrite <- filter_andb.
    apply filter_ext. intros d. unfold Convex.publiclyVisible. rewrite G.
    destruct (Nat.eqb_spec (Convex.categoryId d) id) as [Ed|Ed].
    + rewrite Ed, Nat.eqb_refl. simpl. rewrite !andb_false_r. reflexivity.
    + destruct (Nat.eqb_spec id (Convex.categoryId d)); [congruence|].
      rewrite andb_true_r. reflexivity.
  - reflexivity.
  - unfold Store.toggleCategoryActive at 1. rewrite G, Nat.eqb_refl. simpl.
    rewrite (patchCategory_again id _ c' l1 l2 Hn Hid). simpl.
    unfold c', Store.setCategoryActive. simpl. rewrite <- Ha.
    destruct db as [docs cats n]. simpl in *. rewrite E.
    destruct c; reflexivity.
Qed.

Lemma deactivated_category_hides_its_documents_witness :
  map Convex.doc
      (Convex.listActiveDocuments (λ _, None)
         (Store.toggleCategoryActive 0%nat
            (Convex.mkDb [Convex.mkDoc 0%nat "a" 0%nat "d" 0%nat None true 1 0]
                         [Convex.mkCategory 0%nat "c" true 0] 1%nat)))
  = [].
Proof.
  refine (proj1 (deactivated_category_hides_its_documents (λ _, None) 0%nat
    (Convex.mkCategory 0%nat "c" true 0)
    (Convex.mkDb [Convex.mkDoc 0%nat "a" 0%nat "d" 0%nat None true 1 0]
                 [Convex.mkCategory 0%nat "c" true 0] 1%nat) _ _)); reflexivity.
Defined.

(** ** Removing a category *)

(** X28.  [categories.remove] is refused, leaving the table as it was,
    exactly when some document still refers to the category.  Otherwise the
    category is gone and every other category is found as before.  Either
    way, if every document referred to an existing category before, it
    still does afterwards. *)
Theorem category_removal_keeps_references (id : Convex.Id) (db : Convex.Db) :
  Store.referencesResolve db →
  Store.referencesResolve (Store.removeCategory id db)
  ∧ ((∃ d, d ∈ Convex.documents db ∧ Convex.categoryId d = id) →
     Store.removeCategory id db = db)
  ∧ ((∀ d, d ∈ Convex.documents db → Convex.categoryId d ≠ id) →
     Convex.getCategory (Store.removeCategory id db) id = None
     ∧ ∀ j, j ≠ id →
            Convex.getCategory (Store.removeCategory id db) j
            = Convex.getCategory db j).
Proof.
  intros Href. unfold Store.removeCategory.
  destruct (Store.removeRejected id db) eqn:R.
  - split; [exact Href|]. split; [reflexivity|].
    intros Hno. apply removeRejected_spec in R as (d & Hd & Hc).
    exfalso. exact (Hno d Hd Hc).
  - assert (Hno : ∀ d, d ∈ Convex.documents db → Convex.categoryId d ≠ id).
    { intros d Hd Hc. assert (T : Store.removeRejected id db = true)
        by (apply removeRejected_spec; eauto). congruence. }
    assert (G : ∀ j, Convex.getCategory
                       (Convex.mkDb (Convex.documents db)
                          (List.filter (λ c, negb (Nat.eqb (Convex.cat_id c) id))
                                       (Convex.categories db))
                          (Convex.nextId db)) j
                     = if Nat.eqb j id then None else Convex.getCategory db j).
    { intros j. apply find_category_removed. }
    split; [|split].
    + unfold Store.referencesResolve in *. simpl.
      apply Forall_forall. intros d Hd. rewrite G.
      destruct (Nat.eqb_spec (Convex.categoryId d) id) as [E|E];
        [exfalso; exact (Hno d Hd E)|].
      rewrite Forall_forall in Href. apply Href, Hd.
    + intros (d & Hd & Hc). exfalso. exact (Hno d Hd Hc).
    + intros _. split; [rewrite G, Nat.eqb_refl; reflexivity|].
      intros j Hj. rewrite G. destruct (Nat.eqb_spec j id); [congruence | reflexivity].
Qed.

Lemma category_removal_keeps_references_witness :
  Store.removeCategory 0%nat
    (Convex.mkDb [Convex.mkDoc 0%nat "a" 0%nat "d" 0%nat None true 1 0]
                 [Convex.mkCategory 0%nat "c" true 0] 1%nat)
  = Convex.mkDb [Convex.mkDoc 0%nat "a" 0%nat "d" 0%nat None true 1 0]
                [Convex.mkCategory 0%nat "c" true 0] 1%nat.
Proof.
  refine (proj1 (proj2 (category_removal_keeps_references 0%nat
    (Convex.mkDb [Convex.mkDoc 0%nat "a" 0%nat "d" 0%nat None true 1 0]
                 [Convex.mkCategory 0%nat "c" true 0] 1%nat) _)) _).
  - constructor; [eexists; reflexivity | constructor].
  - eexists. split; [left | reflexivity].
Defined.

(** ** Upload and drag in the admin screens *)



(** X30.  With unique identifiers, dragging a listed document onto another
    one sends a [reorder] after which the admin listing is the old listing
    with the dragged document moved to the position the target had.
    Nothing else changes place relative to the others. *)
Theorem drag_moves_document_to_target
        (dragged target : Convex.Id) (db : Convex.Db) :
  NoDup (map Convex._id (Convex.documents db)) →
  dragged ≠ target →
  is_Some (Convex.getDoc db dragged) → is_Some (Convex.getDoc db target) →
  ∃ i j, Store.listedIds db !! i = Some dragged
         ∧ Store.listedIds db !! j = Some target
         ∧ Store.listedIds (Admin.dragOver (Some dragged) target db)
           = Admin.moveItem i j (Store.listedIds db)
         ∧ Store.listedIds (Admin.dragOver (Some dragged) target db) !! j
           = Some dragged.
Proof.
  intros Hnd Hne Hd Ht. unfold Store.listedIds, Admin.dragOver, Admin.handleDragOver.
  set (L := Convex.byOrder (Convex.documents db)).
  assert (HL : ∀ x, x ∈ map Convex._id L ↔ x ∈ map Convex._id (Convex.documents db)).
  { intros x. unfold L. rewrite byOrder_ids_perm. reflexivity. }
  apply getDoc_is_Some, HL, findIndex_is_Some in Hd as [i Hi].
  apply getDoc_is_Some, HL, findIndex_is_Some in Ht as [j Hj].
  destruct (Nat.eqb_spec dragged target) as [|_]; [congruence|].
  rewrite Hi, Hj.
  apply findIndex_Some in Hi as (di & Hdi & Edi).
  apply findIndex_Some in Hj as (dj & Hdj & Edj).
  set (ids := map Convex._id (Admin.moveItem i j L)).
  assert (Eids : ids = Admin.moveItem i j (map Convex._id L)).
  { unfold ids. rewrite !map_fmap. apply moveItem_fmap. }
  destruct (reorder_listing ids db Hnd) as (docs' & -> & EL & _).
  { rewrite Eids, moveItem_perm. unfold L. rewrite byOrder_ids_perm. exact Hnd. }
  { intros x. rewrite Eids, moveItem_perm. apply HL. }
  exists i, j. cbn [Convex.withDocuments Convex.documents]. rewrite EL, Eids.
  rewrite !map_fmap, !list_lookup_fmap, Hdi, Hdj. simpl. rewrite Edi, Edj.
  split; [reflexivity|]. split; [reflexivity|]. split; [reflexivity|].
  apply moveItem_lookup.
  - rewrite list_lookup_fmap, Hdi. simpl. rewrite Edi. reflexivity.
  - rewrite length_fmap. eapply lookup_lt_Some, Hdj.
Qed.

Lemma drag_moves_document_to_target_witness :
  ∃ i j,
    Store.listedIds
      (Admin.dragOver (Some 1%nat) 0%nat
         (Convex.mkDb [Convex.mkDoc 0%nat "a" 0%nat "d" 0%nat None true 1 0;
                       Convex.mkDoc 1%nat "b" 0%nat "d" 0%nat None true 2 0] [] 2%nat))
    = Admin.moveItem i j [0%nat; 1%nat].
Proof.
  destruct (drag_moves_document_to_target 1%nat 0%nat
    (Convex.mkDb [Convex.mkDoc 0%nat "a" 0%nat "d" 0%nat None true 1 0;
                  Convex.mkDoc 1%nat "b" 0%nat "d" 0%nat None true 2 0] [] 2%nat))
    as (i & j & _ & _ & E & _).
  - apply (bool_decide_unpack _). vm_compute. exact I.
  - lia.
  - eexists. reflexivity.
  - eexists. reflexivity.
  - exists i, j. exact E.
Defined.

Section ProgressBarFacts.

Import Double.
Local Open Scope Q_scope.

(** The rounded share of the pages done, times 80. *)
Lemma pageShare (i numPages : Z) :
  (0 <= i <= numPages)%Z → (0 < numPages < 2 ^ 31)%Z →
  ∃ t, mul (div (ofZ i) (ofZ numPages)) (Fin 80) = Fin t ∧ 0 <= t <= 80.
Proof.
  intros Hi Hn. unfold ofZ. rewrite !rnd_Z by lia.
  assert (N : 0 < inject_Z numPages).
  { change 0 with (inject_Z 0). rewrite <- Zlt_Qlt. lia. }
  assert (I0 : 0 <= inject_Z i).
  { change 0 with (inject_Z 0). rewrite <- Zle_Qle. lia. }
  assert (I1 : inject_Z i <= inject_Z numPages) by (rewrite <- Zle_Qle; lia).
  rewrite (div_Fin _ _ N).
  destruct (rnd_between (inject_Z i / inject_Z numPages) 0 1) as (q & E & Q0 & Q1);
    [reflexivity|reflexivity
    |change (inject_Z 0) with 0; apply Qle_shift_div_l; [exact N|lra]
    |change (inject_Z 1) with 1; apply Qle_shift_div_r; [exact N|lra]|].
  rewrite E. change (mul (Fin q) (Fin 80)) with (rnd (q * 80)).
  change (inject_Z 0) with 0 in Q0. change (inject_Z 1) with 1 in Q1.
  destruct (rnd_between (q * 80) 0 80) as (t & Et & T0 & T1);
    [reflexivity|reflexivity|change (inject_Z 0) with 0; lra
    |change (inject_Z 80) with 80; lra|].
  exists t. split; [exact Et|]. split; assumption.
Qed.

Lemma pageShare_mono (i j numPages : Z) (a b : Q) :
  (0 <= i <= j)%Z → (0 < numPages < 2 ^ 31)%Z → (j <= numPages)%Z →
  mul (div (ofZ i) (ofZ numPages)) (Fin 80) = Fin a →
  mul (div (ofZ j) (ofZ numPages)) (Fin 80) = Fin b →
  a <= b.
Proof.
  intros Hi Hn Hj. unfold ofZ. rewrite !rnd_Z by lia.
  assert (N : 0 < inject_Z numPages).
  { change 0 with (inject_Z 0). rewrite <- Zlt_Qlt. lia. }
  rewrite !(div_Fin _ _ N).
  assert (M : le (rnd (inject_Z i / inject_Z numPages))
                 (rnd (inject_Z j / inject_Z numPages))).
  { apply rnd_mono. apply Qmult_le_compat_r; [rewrite <- Zle_Qle; lia|].
    apply Qlt_le_weak, Qinv_lt_0_compat, N. }
  destruct (rnd (inject_Z i / inject_Z numPages)) as [|s|x],
           (rnd (inject_Z j / inject_Z numPages)) as [|s'|y];
    simpl in M; try tauto; try discriminate;
    try (destruct s; simpl; destruct (Qeq_bool 80 0); discriminate);
    try (destruct s'; simpl; destruct (Qeq_bool 80 0); discriminate).
  change (mul (Fin x) (Fin 80)) with (rnd (x * 80)).
  change (mul (Fin y) (Fin 80)) with (rnd (y * 80)).
  intros Ea Eb.
  assert (M2 : le (rnd (x * 80)) (rnd (y * 80))) by (apply rnd_mono; lra).
  rewrite Ea, Eb in M2. exact M2.
Qed.

(** The progress shown during the page loop of [handleUpload] is a whole
    number between 10 and 90, never goes back, and is 90 after the last
    page. *)
Lemma pageProgress_range (i j numPages : Z) :
  (1 <= i)%Z → (i <= j)%Z → (j <= numPages)%Z → (numPages < 2 ^ 31)%Z →
  ∃ a b : Z,
    Admin.pageProgress i numPages = Fin (inject_Z a)
    ∧ Admin.pageProgress j numPages = Fin (inject_Z b)
    ∧ (10 <= a)%Z ∧ (a <= b)%Z ∧ (b <= 90)%Z
    ∧ Admin.pageProgress numPages numPages = Fin 90.
Proof.
  intros Hi Hij Hj Hn. unfold Admin.pageProgress.
  destruct (pageShare i numPages) as (ta & Ea & A0 & A1); [lia|lia|].
  destruct (pageShare j numPages) as (tb & Eb & B0 & B1); [lia|lia|].
  pose proof (pageShare_mono i j numPages ta tb ltac:(lia) ltac:(lia) Hj Ea Eb) as M.
  assert (Add : ∀ t, 0 <= t <= 80 →
            add (Fin 10) (round (Fin t)) = Fin (inject_Z (10 + Qfloor (t + (1 # 2))))
            ∧ (0 <= Qfloor (t + (1 # 2)) <= 80)%Z).
  { intros t (T0 & T1).
    assert (F : (0 <= Qfloor (t + (1 # 2)) < 81)%Z).
    { apply Qfloor_range.
      - change (inject_Z 0) with 0. lra.
      - change (inject_Z 81) with 81. lra. }
    split; [|lia]. unfold round, add.
    rewrite <- (rnd_Z (10 + Qfloor (t + (1 # 2)))) by lia.
    apply rnd_compat. rewrite inject_Z_plus. reflexivity. }
  destruct (Add ta (conj A0 A1)) as (Pa & Ra).
  destruct (Add tb (conj B0 B1)) as (Pb & Rb).
  exists (10 + Qfloor (ta + (1 # 2)))%Z, (10 + Qfloor (tb + (1 # 2)))%Z.
  rewrite Ea, Eb, Pa, Pb.
  split; [reflexivity|]. split; [reflexivity|]. split; [lia|].
  split; [|split; [lia|]].
  - assert (Qfloor (ta + (1 # 2)) <= Qfloor (tb + (1 # 2)))%Z
      by (apply Qfloor_resp_le; lra). lia.
  - assert (N : 0 < inject_Z numPages).
    { change 0 with (inject_Z 0). rewrite <- Zlt_Qlt. lia. }
    unfold ofZ. rewrite rnd_Z by lia. rewrite (div_Fin _ _ N).
    assert (E1 : rnd (inject_Z numPages / inject_Z numPages) = Fin 1).
    { transitivity (rnd (inject_Z 1)); [|apply (rnd_Z 1); reflexivity].
      apply rnd_compat. change (inject_Z 1) with 1. field. lra. }
    rewrite E1. vm_compute. reflexivity.
Qed.

End ProgressBarFacts.
